(** * simhex: the HexGame engine of main.cpp, embedded and verified

    The class [HexGame] (identical in both driver programs of the
    repository) is embedded shallowly: the object is a record of its data
    members, every member function is a function from the state before
    the call to an [outcome] holding the returned value and the state
    after it.

    Modelling conventions.
    - [int] is [Z].  Every value the engine computes on a board of
      dimension [N] is bounded by [2 * (N + 2) * (N + 2)], so for the
      dimensions the drivers use (3 to 15) no [int] arithmetic wraps.
    - [std::vector<int>] is [list Z]; [v[i]] outside [0 .. size-1] is
      undefined behaviour in C++ and is the outcome [Undefined OutOfRange]
      here, [x / 0] and [x % 0] are [Undefined DivisionByZero],
      [back()] and [pop_back()] of an empty vector are
      [Undefined BackOfEmpty].
    - [/] and [%] truncate toward zero ([Z.quot], [Z.rem]).
    - [rand()] is an extra argument [r] of [place_piece_randomly].
    - the recursion of [connect] is bounded by a fuel argument;
      running out is the outcome [OutOfFuel]; the lemmas show that any
      fuel above the number of clear slots of the mark vector suffices
      ([connect_ok]) and that more fuel never changes a result
      ([connect_mono]). *)

From Stdlib Require Import ZArith List Lia Bool Permutation FinFun.
From stdpp Require Import base list.
Import ListNotations.
Local Open Scope Z_scope.

(** ** Outcomes of a member function *)

(** The undefined behaviours the engine's code can run into. *)
Inductive fault : Type :=
| DivisionByZero
| OutOfRange
| BackOfEmpty.

(** The two error conditions the specification names.  No member
    function of [HexGame] contains a [throw], an [assert], an error
    return or an [abort]; the constructor [Throws] is only here so that
    statements about these conditions can be written down. *)
Inductive condition : Type :=
| ExhaustedBoard
| InsufficientHistory.

Inductive outcome (A : Type) : Type :=
| Ok (a : A)
| Throws (c : condition)
| Undefined (f : fault)
| OutOfFuel.

Arguments Ok {A} a.
Arguments Throws {A} c.
Arguments Undefined {A} f.
Arguments OutOfFuel {A}.

Definition bind {A B : Type} (m : outcome A) (k : A -> outcome B) : outcome B :=
  match m with
  | Ok a => k a
  | Throws c => Throws c
  | Undefined f => Undefined f
  | OutOfFuel => OutOfFuel
  end.

Notation "'let*' x ':=' m 'in' k" := (bind m (fun x => k))
  (at level 10, x pattern, m at level 100, k at level 200).

(** ** Vectors and integer division *)

(** [v[i]] as an rvalue. *)
Definition vget (v : list Z) (i : Z) : outcome Z :=
  if i <? 0 then Undefined OutOfRange
  else match v !! Z.to_nat i with
       | Some x => Ok x
       | None => Undefined OutOfRange
       end.

(** [v[i] = x]. *)
Definition vset (v : list Z) (i : Z) (x : Z) : outcome (list Z) :=
  if (0 <=? i) && (i <? Z.of_nat (length v)) then Ok (<[Z.to_nat i := x]> v)
  else Undefined OutOfRange.

(** [v.resize(n)] on [int] elements: truncate, or pad with zeros. *)
Definition resize (v : list Z) (n : Z) : list Z :=
  take (Z.to_nat n) v ++ replicate (Z.to_nat n - length v)%nat 0.

(** [a / b] and [a % b] on [int]. *)
Definition cdiv (a b : Z) : outcome Z :=
  if b =? 0 then Undefined DivisionByZero else Ok (Z.quot a b).

Definition crem (a b : Z) : outcome Z :=
  if b =? 0 then Undefined DivisionByZero else Ok (Z.rem a b).

(** [for (int i = lo; i < hi; ++i) body], the body threading a state. *)
Fixpoint for_loop {St : Type} (n : nat) (i : Z)
    (body : Z -> St -> outcome St) (s : St) : outcome St :=
  match n with
  | O => Ok s
  | S n' => let* s' := body i s in for_loop n' (i + 1) body s'
  end.

Definition for_range {St : Type} (lo hi : Z)
    (body : Z -> St -> outcome St) (s : St) : outcome St :=
  for_loop (Z.to_nat (hi - lo)) lo body s.

(** ** The engine state: the data members of [class HexGame] *)

Record HexGame : Type := mkHexGame {
  BOARD_DIM : Z;
  board : list Z;
  open_positions : list Z;
  number_of_open_positions : Z;
  moves : list Z;
  connected : list Z;
  neighbors : list Z
}.

Definition set_board (s : HexGame) (b : list Z) : HexGame :=
  mkHexGame (BOARD_DIM s) b (open_positions s) (number_of_open_positions s)
            (moves s) (connected s) (neighbors s).

Definition set_open_positions (s : HexGame) (o : list Z) : HexGame :=
  mkHexGame (BOARD_DIM s) (board s) o (number_of_open_positions s)
            (moves s) (connected s) (neighbors s).

Definition set_number_of_open_positions (s : HexGame) (n : Z) : HexGame :=
  mkHexGame (BOARD_DIM s) (board s) (open_positions s) n
            (moves s) (connected s) (neighbors s).

Definition set_moves (s : HexGame) (m : list Z) : HexGame :=
  mkHexGame (BOARD_DIM s) (board s) (open_positions s)
            (number_of_open_positions s) m (connected s) (neighbors s).

Definition set_connected (s : HexGame) (c : list Z) : HexGame :=
  mkHexGame (BOARD_DIM s) (board s) (open_positions s)
            (number_of_open_positions s) (moves s) c (neighbors s).

(** ** [HexGame::init] *)

(** The body of the inner loop of [init] at row [i], column [j] of the
    padded grid. *)
Definition init_cell (i j : Z) (s : HexGame) : outcome HexGame :=
  let N := BOARD_DIM s in
  let* b := vset (board s) ((i * (N + 2) + j) * 2) 0 in
  let* b := vset b ((i * (N + 2) + j) * 2 + 1) 0 in
  let* o :=
    if (0 <? i) && (i <? N + 1) && (0 <? j) && (j <? N + 1)
    then vset (open_positions s) ((i - 1) * N + j - 1) (i * (N + 2) + j)
    else Ok (open_positions s) in
  let* c := vset (connected s) ((i * (N + 2) + j) * 2)
                 (if i =? 0 then 1 else 0) in
  let* c := vset c ((i * (N + 2) + j) * 2 + 1)
                 (if j =? 0 then 1 else 0) in
  Ok (set_connected (set_open_positions (set_board s b) o) c).

Definition init (s : HexGame) : outcome HexGame :=
  let N := BOARD_DIM s in
  let* s :=
    for_range 0 (N + 2) (fun i s =>
      for_range 0 (N + 2) (fun j s => init_cell i j s) s) s in
  Ok (set_moves (set_number_of_open_positions s (N * N)) []).

(** The constructor [HexGame(int dim)]: sizes the vectors of an empty
    object, fills the neighbour-offset table and calls [init]. *)
Definition HexGame_new (dim : Z) : outcome HexGame :=
  init
    (mkHexGame dim
       (resize [] ((dim + 2) * (dim + 2) * 2))
       (resize [] (dim * dim))
       0
       (resize [] (dim * dim))
       (resize [] ((dim + 2) * (dim + 2) * 2))
       [- (dim + 2) + 1; - (dim + 2); -1; 1; dim + 2; (dim + 2) - 1]).

(** ** [HexGame::connect] and [HexGame::winner] *)

(** The [for] loop of [connect]: [k] iterations are left, [i] is the
    loop index, [rec] is the recursive call [connect(player, _)]. *)
Fixpoint connect_loop (rec : Z -> HexGame -> outcome (Z * HexGame))
    (player position : Z) (k : nat) (i : Z) (s : HexGame)
    : outcome (Z * HexGame) :=
  match k with
  | O => Ok (0, s)
  | S k' =>
      let* off := vget (neighbors s) i in
      let neighbor := position + off in
      let* b := vget (board s) (neighbor * 2 + player) in
      let* unvisited :=
        if b =? 0 then Ok false
        else let* c := vget (connected s) (neighbor * 2 + player) in
             Ok (c =? 0) in
      if (unvisited : bool) then
        let* (r, s') := rec neighbor s in
        if r =? 0 then connect_loop rec player position k' (i + 1) s'
        else Ok (1, s')
      else connect_loop rec player position k' (i + 1) s
  end.

Fixpoint connect (fuel : nat) (player position : Z) (s : HexGame)
    : outcome (Z * HexGame) :=
  match fuel with
  | O => OutOfFuel
  | S fuel' =>
      let* c := vset (connected s) (position * 2 + player) 1 in
      let s := set_connected s c in
      let* top_bottom :=
        if player =? 0
        then let* q := cdiv position (BOARD_DIM s + 2) in
             Ok (q =? BOARD_DIM s)
        else Ok false in
      if (top_bottom : bool) then Ok (1, s)
      else
        let* left_right :=
          if player =? 1
          then let* m := crem position (BOARD_DIM s + 2) in
               Ok (m =? BOARD_DIM s)
          else Ok false in
        if (left_right : bool) then Ok (1, s)
        else connect_loop (connect fuel' player) player position 6%nat 0 s
  end.

(** The [for] loop of [winner]. *)
Fixpoint winner_loop (fuel : nat) (player position : Z) (k : nat) (i : Z)
    (s : HexGame) : outcome (Z * HexGame) :=
  match k with
  | O => Ok (0, s)
  | S k' =>
      let* off := vget (neighbors s) i in
      let neighbor := position + off in
      let* c := vget (connected s) (neighbor * 2 + player) in
      if c =? 0 then winner_loop fuel player position k' (i + 1) s
      else connect fuel player position s
  end.

Definition winner (fuel : nat) (player position : Z) (s : HexGame)
    : outcome (Z * HexGame) :=
  winner_loop fuel player position 6%nat 0 s.

(** ** [HexGame::place_piece_randomly], [HexGame::full_board] *)

(** [r] is the value [rand()] returns. *)
Definition place_piece_randomly (r : Z) (player : Z) (s : HexGame)
    : outcome (Z * HexGame) :=
  let N := BOARD_DIM s in
  let* random_empty_position_index := crem r (number_of_open_positions s) in
  let* empty_position := vget (open_positions s) random_empty_position_index in
  let* b := vset (board s) (empty_position * 2 + player) 1 in
  let* q := cdiv empty_position (N + 2) in
  let logical_row := q - 1 in
  let* m := crem empty_position (N + 2) in
  let logical_col := m - 1 in
  let logical_position := logical_row * N + logical_col in
  let mv := moves s ++ [logical_position] in
  let* last_open :=
    vget (open_positions s) (number_of_open_positions s - 1) in
  let* o := vset (open_positions s) random_empty_position_index last_open in
  Ok (empty_position,
      mkHexGame N b o (number_of_open_positions s - 1) mv
                (connected s) (neighbors s)).

Definition full_board (s : HexGame) : bool :=
  number_of_open_positions s =? 0.

(** ** [HexGame::remove_last_n_moves] *)

(** The loop body: the state threaded through the loop is the local
    vector [removed_moves] together with the object. *)
Definition remove_last_move (acc : list Z * HexGame)
    : outcome (list Z * HexGame) :=
  let '(removed_moves, s) := acc in
  let N := BOARD_DIM s in
  match last (moves s) with
  | None => Undefined BackOfEmpty
  | Some last_move_position =>
      let removed_moves := removed_moves ++ [last_move_position] in
      let mv := removelast (moves s) in
      let* logical_row := cdiv last_move_position N in
      let* logical_col := crem last_move_position N in
      let expanded_index := (logical_row + 1) * (N + 2) + (logical_col + 1) in
      let* b := vset (board s) (expanded_index * 2) 0 in
      let* b := vset b (expanded_index * 2 + 1) 0 in
      Ok (removed_moves, set_moves (set_board s b) mv)
  end.

Definition remove_last_n_moves (n : Z) (s : HexGame)
    : outcome (list Z * HexGame) :=
  for_range 0 n (fun _ acc => remove_last_move acc) ([], s).

(** ** [HexGame::board_to_coord] *)

Definition coord_cell (i j : Z) (s : HexGame) (coord_values : list Z)
    : outcome (list Z) :=
  let N := BOARD_DIM s in
  let* cell_x := vget (board s) (((i + 1) * (N + 2) + j + 1) * 2) in
  let* cell_o := vget (board s) (((i + 1) * (N + 2) + j + 1) * 2 + 1) in
  let cell_value :=
    if cell_x =? 1 then 1 else if cell_o =? 1 then -1 else 0 in
  Ok (coord_values ++ [cell_value]).

Definition board_to_coord (s : HexGame) : outcome (list Z) :=
  let N := BOARD_DIM s in
  for_range 0 N (fun i acc =>
    for_range 0 N (fun j acc => coord_cell i j s acc) acc) [].

(** * Reading the state *)

(** [rd v i] is the element [v[i]], and [0] outside the vector. *)
Definition rd (v : list Z) (i : Z) : Z :=
  match vget v i with
  | Ok x => x
  | _ => 0
  end.

Definition vlen (v : list Z) : Z := Z.of_nat (length v).

(** Occupancy flag and connectivity mark of padded cell [c] for [p]. *)
Definition stone (s : HexGame) (p c : Z) : Prop := rd (board s) (c * 2 + p) <> 0.
Definition marked (s : HexGame) (p c : Z) : Prop := rd (connected s) (c * 2 + p) <> 0.

Definition stoneb (s : HexGame) (p c : Z) : bool := negb (rd (board s) (c * 2 + p) =? 0).
Definition markedb (s : HexGame) (p c : Z) : bool := negb (rd (connected s) (c * 2 + p) =? 0).

(** * Basic facts about vectors *)

Lemma vget_ok v i x : vget v i = Ok x -> 0 <= i < vlen v /\ rd v i = x.
Proof.
  unfold rd, vlen, vget. destruct (Z.ltb_spec i 0); [discriminate|].
  destruct (v !! Z.to_nat i) eqn:E; [|discriminate].
  intros [= ->]. apply lookup_lt_Some in E. split; [lia|reflexivity].
Qed.

Lemma vget_in v i : 0 <= i < vlen v -> vget v i = Ok (rd v i).
Proof.
  unfold rd, vlen, vget. intros H. destruct (Z.ltb_spec i 0); [lia|].
  destruct (v !! Z.to_nat i) eqn:E; [reflexivity|].
  apply lookup_ge_None in E. lia.
Qed.

Lemma vget_out v i : ~ (0 <= i < vlen v) -> vget v i = Undefined OutOfRange.
Proof.
  unfold vlen, vget. intros H. destruct (Z.ltb_spec i 0); [reflexivity|].
  destruct (v !! Z.to_nat i) eqn:E; [|reflexivity].
  apply lookup_lt_Some in E. lia.
Qed.

Lemma rd_out v i : ~ (0 <= i < vlen v) -> rd v i = 0.
Proof. intros H. unfold rd. now rewrite vget_out. Qed.

Lemma vset_in v i x : 0 <= i < vlen v -> vset v i x = Ok (<[Z.to_nat i := x]> v).
Proof.
  unfold vset, vlen. intros H.
  destruct (Z.leb_spec 0 i); [|lia]. destruct (Z.ltb_spec i (Z.of_nat (length v))); [|lia].
  reflexivity.
Qed.

Lemma vset_ok v i x v' :
  vset v i x = Ok v' ->
  0 <= i < vlen v /\ vlen v' = vlen v /\ rd v' i = x /\
  (forall j, j <> i -> rd v' j = rd v j).
Proof.
  unfold vset, vlen.
  destruct (Z.leb_spec 0 i); [|discriminate].
  destruct (Z.ltb_spec i (Z.of_nat (length v))); [|discriminate].
  intros [= <-]. split; [lia|]. split; [now rewrite length_insert|].
  split.
  - unfold rd, vget. destruct (Z.ltb_spec i 0); [lia|].
    rewrite list_lookup_insert_eq by lia. reflexivity.
  - intros j Hj. unfold rd, vget. destruct (Z.ltb_spec j 0); [reflexivity|].
    rewrite list_lookup_insert_ne by lia. reflexivity.
Qed.

Lemma vset_out v i x : ~ (0 <= i < vlen v) -> vset v i x = Undefined OutOfRange.
Proof.
  unfold vset, vlen. intros H.
  destruct (Z.leb_spec 0 i); [|reflexivity].
  destruct (Z.ltb_spec i (Z.of_nat (length v))); [lia|reflexivity].
Qed.

(** Two vectors with the same length and the same elements are equal. *)
Lemma rd_ext (v w : list Z) :
  vlen v = vlen w -> (forall i, 0 <= i < vlen v -> rd v i = rd w i) -> v = w.
Proof.
  unfold vlen. intros Hl H. apply list_eq. intros n.
  destruct (Nat.lt_ge_cases n (length v)) as [Hn|Hn].
  - specialize (H (Z.of_nat n)). unfold rd, vget in H.
    destruct (Z.ltb_spec (Z.of_nat n) 0); [lia|]. rewrite Nat2Z.id in H.
    destruct (v !! n) eqn:E1, (w !! n) eqn:E2.
    + f_equal. apply H. lia.
    + apply lookup_ge_None in E2. lia.
    + apply lookup_ge_None in E1. lia.
    + reflexivity.
  - rewrite (proj2 (lookup_ge_None v n)) by lia.
    rewrite (proj2 (lookup_ge_None w n)) by lia. reflexivity.
Qed.

Lemma bind_ok {A B} (m : outcome A) (k : A -> outcome B) b :
  bind m k = Ok b -> exists a, m = Ok a /\ k a = Ok b.
Proof. destruct m; simpl; try discriminate. eauto. Qed.

(** * Loops *)

(** A loop whose body keeps an invariant and never fails, does not fail
    and ends in the invariant. *)
Lemma for_loop_inv {St} (I : Z -> St -> Prop) body :
  forall n i (s : St),
    I i s ->
    (forall j t, i <= j < i + Z.of_nat n -> I j t ->
       exists t', body j t = Ok t' /\ I (j + 1) t') ->
    exists s', for_loop n i body s = Ok s' /\ I (i + Z.of_nat n) s'.
Proof.
  induction n as [|n IH]; intros i s Hi Hbody; simpl.
  - exists s. split; [reflexivity|]. now replace (i + Z.of_nat 0) with i by lia.
  - destruct (Hbody i s ltac:(lia) Hi) as (t & -> & Ht). simpl.
    destruct (IH (i + 1) t Ht) as (s' & -> & Hs').
    + intros j u Hj. apply Hbody. lia.
    + exists s'. split; [reflexivity|].
      now replace (i + Z.of_nat (S n)) with (i + 1 + Z.of_nat n) by lia.
Qed.

(** What a successful loop establishes, from what its body does. *)
Lemma for_loop_post {St} (I : Z -> St -> Prop) body :
  forall n i (s s' : St),
    I i s ->
    (forall j t t', i <= j < i + Z.of_nat n -> I j t ->
       body j t = Ok t' -> I (j + 1) t') ->
    for_loop n i body s = Ok s' -> I (i + Z.of_nat n) s'.
Proof.
  induction n as [|n IH]; intros i s s' Hi Hbody; simpl.
  - intros [= <-]. now replace (i + Z.of_nat 0) with i by lia.
  - intros H. apply bind_ok in H as (t & Ht & H).
    replace (i + Z.of_nat (S n)) with (i + 1 + Z.of_nat n) by lia.
    apply (IH (i + 1) t s'); [|intros; eapply Hbody; eauto; lia|exact H].
    eapply Hbody; eauto. lia.
Qed.

Lemma for_loop_S {St} n i body (s : St) :
  for_loop (S n) i body s =
  bind (body i s) (fun s' => for_loop n (i + 1) body s').
Proof. reflexivity. Qed.

Lemma for_range_inv {St} (I : Z -> St -> Prop) body lo hi (s : St) :
  lo <= hi ->
  I lo s ->
  (forall j t, lo <= j < hi -> I j t ->
     exists t', body j t = Ok t' /\ I (j + 1) t') ->
  exists s', for_range lo hi body s = Ok s' /\ I hi s'.
Proof.
  intros Hle Hi Hbody. unfold for_range.
  destruct (for_loop_inv I body (Z.to_nat (hi - lo)) lo s Hi) as (s' & E & H).
  - intros j t Hj. apply Hbody. lia.
  - exists s'. split; [exact E|]. now replace hi with (lo + Z.of_nat (Z.to_nat (hi - lo))) by lia.
Qed.

Lemma for_range_post {St} (I : Z -> St -> Prop) body lo hi (s s' : St) :
  lo <= hi ->
  I lo s ->
  (forall j t t', lo <= j < hi -> I j t -> body j t = Ok t' -> I (j + 1) t') ->
  for_range lo hi body s = Ok s' -> I hi s'.
Proof.
  intros Hle Hi Hbody E. unfold for_range in E.
  replace hi with (lo + Z.of_nat (Z.to_nat (hi - lo))) by lia.
  eapply for_loop_post; eauto. intros; eapply Hbody; eauto. lia.
Qed.

Lemma for_range_empty {St} body lo hi (s : St) :
  hi <= lo -> for_range lo hi body s = Ok s.
Proof. intros H. unfold for_range. now replace (Z.to_nat (hi - lo)) with O by lia. Qed.

(** * Geometry of the padded grid *)

(** Row and column of padded index [c] on a board of dimension [N]. *)
Definition row (N c : Z) : Z := c / (N + 2).
Definition col (N c : Z) : Z := c mod (N + 2).

(** [cell N i j] is the padded index of row [i], column [j]. *)
Definition cell (N i j : Z) : Z := i * (N + 2) + j.

(** The playable cells are those off the one-cell border. *)
Definition playable (N c : Z) : Prop :=
  1 <= row N c <= N /\ 1 <= col N c <= N.

Definition playableb (N c : Z) : bool :=
  (1 <=? row N c) && (row N c <=? N) && (1 <=? col N c) && (col N c <=? N).

(** The affine mapping between padded and logical indices. *)
Definition logical (N c : Z) : Z := (row N c - 1) * N + (col N c - 1).
Definition padded (N m : Z) : Z := (m / N + 1) * (N + 2) + (m mod N + 1).

(** The six hex neighbours of a cell, as the offset table has them. *)
Definition offsets (N : Z) : list Z :=
  [- (N + 2) + 1; - (N + 2); -1; 1; N + 2; (N + 2) - 1].

Definition adj (N c n : Z) : Prop := In (n - c) (offsets N).

Lemma row_cell N i j : 0 <= j < N + 2 -> row N (cell N i j) = i.
Proof.
  intros H. unfold row, cell. rewrite Z.add_comm, Z.div_add by lia.
  rewrite Z.div_small by lia. lia.
Qed.

Lemma col_cell N i j : 0 <= j < N + 2 -> col N (cell N i j) = j.
Proof.
  intros H. unfold col, cell. rewrite Z.add_comm, Z.mod_add by lia.
  apply Z.mod_small. lia.
Qed.

Lemma cell_row_col N c : 0 < N -> c = cell N (row N c) (col N c).
Proof.
  intros H. unfold cell, row, col.
  pose proof (Z.div_mod c (N + 2) ltac:(lia)). lia.
Qed.

Lemma col_range N c : 0 < N -> 0 <= col N c < N + 2.
Proof. intros H. unfold col. apply Z.mod_pos_bound. lia. Qed.

Lemma row_range N c : 0 < N -> 0 <= c < (N + 2) * (N + 2) -> 0 <= row N c < N + 2.
Proof.
  intros H Hc. unfold row. split.
  - apply Z.div_pos; lia.
  - apply Z.div_lt_upper_bound; lia.
Qed.

Lemma cell_range N i j :
  0 <= i < N + 2 -> 0 <= j < N + 2 -> 0 <= cell N i j < (N + 2) * (N + 2).
Proof. unfold cell. nia. Qed.

Lemma cell_inj N i j i' j' :
  0 <= j < N + 2 -> 0 <= j' < N + 2 -> cell N i j = cell N i' j' -> i = i' /\ j = j'.
Proof.
  intros H H' E.
  pose proof (row_cell N i j H). pose proof (row_cell N i' j' H').
  pose proof (col_cell N i j H). pose proof (col_cell N i' j' H').
  rewrite E in *. lia.
Qed.

Lemma playable_cell N i j :
  0 < N -> 1 <= i <= N -> 1 <= j <= N -> playable N (cell N i j).
Proof.
  intros HN Hi Hj. unfold playable.
  rewrite row_cell, col_cell by lia. lia.
Qed.

Lemma playable_inv N c :
  0 < N -> playable N c ->
  exists i j, 1 <= i <= N /\ 1 <= j <= N /\ c = cell N i j.
Proof.
  intros HN [Hr Hc]. exists (row N c), (col N c).
  repeat split; try lia. now apply cell_row_col.
Qed.

Lemma playable_range N c :
  0 < N -> playable N c -> 0 <= c < (N + 2) * (N + 2).
Proof.
  intros HN H. destruct (playable_inv N c HN H) as (i & j & Hi & Hj & ->).
  apply cell_range; lia.
Qed.

Lemma playableb_spec N c : playableb N c = true <-> playable N c.
Proof.
  unfold playableb, playable.
  rewrite !andb_true_iff, !Z.leb_le. tauto.
Qed.

Lemma logical_cell N i j :
  0 <= j < N + 2 -> logical N (cell N i j) = (i - 1) * N + (j - 1).
Proof. intros H. unfold logical. now rewrite row_cell, col_cell. Qed.

Lemma logical_range N c : 0 < N -> playable N c -> 0 <= logical N c < N * N.
Proof. intros HN [Hr Hc]. unfold logical. nia. Qed.

Lemma padded_logical N c : 0 < N -> playable N c -> padded N (logical N c) = c.
Proof.
  intros HN [Hr Hc]. unfold padded, logical.
  replace ((row N c - 1) * N + (col N c - 1)) with ((col N c - 1) + (row N c - 1) * N) by lia.
  rewrite Z.div_add, Z.mod_add by lia.
  rewrite Z.div_small, Z.mod_small by lia.
  rewrite (cell_row_col N c HN) at 3. unfold cell. lia.
Qed.

Lemma padded_cell N m :
  0 < N -> 0 <= m < N * N -> padded N m = cell N (m / N + 1) (m mod N + 1).
Proof. reflexivity. Qed.

Lemma padded_playable N m : 0 < N -> 0 <= m < N * N -> playable N (padded N m).
Proof.
  intros HN Hm. rewrite padded_cell by assumption.
  pose proof (Z.mod_pos_bound m N HN).
  assert (0 <= m / N < N).
  { split; [apply Z.div_pos; lia|apply Z.div_lt_upper_bound; lia]. }
  apply playable_cell; lia.
Qed.

Lemma logical_padded N m : 0 < N -> 0 <= m < N * N -> logical N (padded N m) = m.
Proof.
  intros HN Hm. rewrite padded_cell by assumption.
  pose proof (Z.mod_pos_bound m N HN).
  rewrite logical_cell by lia.
  pose proof (Z.div_mod m N ltac:(lia)). lia.
Qed.

Lemma logical_inj N c c' :
  0 < N -> playable N c -> playable N c' -> logical N c = logical N c' -> c = c'.
Proof.
  intros HN H H' E. rewrite <- (padded_logical N c HN H), <- (padded_logical N c' HN H').
  now rewrite E.
Qed.

(** C++ division on the values the engine divides. *)
Lemma cdiv_row N c : 0 < N -> 0 <= c -> cdiv c (N + 2) = Ok (row N c).
Proof.
  intros HN Hc. unfold cdiv, row. destruct (Z.eqb_spec (N + 2) 0); [lia|].
  now rewrite Z.quot_div_nonneg by lia.
Qed.

Lemma crem_col N c : 0 < N -> 0 <= c -> crem c (N + 2) = Ok (col N c).
Proof.
  intros HN Hc. unfold crem, col. destruct (Z.eqb_spec (N + 2) 0); [lia|].
  now rewrite Z.rem_mod_nonneg by lia.
Qed.

(** * [init] *)

(** The vectors have the sizes the constructor gives them. *)
Definition sized (N : Z) (s : HexGame) : Prop :=
  BOARD_DIM s = N /\
  vlen (board s) = (N + 2) * (N + 2) * 2 /\
  vlen (connected s) = (N + 2) * (N + 2) * 2 /\
  vlen (open_positions s) = N * N /\
  neighbors s = offsets N.

(** What [init] leaves at row [i], column [j] of the padded grid. *)
Definition cell_reset (N : Z) (s : HexGame) (i j : Z) : Prop :=
  rd (board s) (cell N i j * 2) = 0 /\
  rd (board s) (cell N i j * 2 + 1) = 0 /\
  rd (connected s) (cell N i j * 2) = (if i =? 0 then 1 else 0) /\
  rd (connected s) (cell N i j * 2 + 1) = (if j =? 0 then 1 else 0) /\
  (1 <= i <= N -> 1 <= j <= N ->
   rd (open_positions s) ((i - 1) * N + (j - 1)) = cell N i j).

(** The state [init] produces. *)
Definition fresh (N : Z) (s : HexGame) : Prop :=
  sized N s /\
  (forall i j, 0 <= i < N + 2 -> 0 <= j < N + 2 -> cell_reset N s i j) /\
  number_of_open_positions s = N * N /\
  moves s = [].

Lemma init_cell_ok N i j t :
  0 < N -> sized N t -> 0 <= i < N + 2 -> 0 <= j < N + 2 ->
  exists t',
    init_cell i j t = Ok t' /\ sized N t' /\
    cell_reset N t' i j /\
    (forall i' j', 0 <= i' < N + 2 -> 0 <= j' < N + 2 ->
       (i', j') <> (i, j) -> cell_reset N t i' j' -> cell_reset N t' i' j').
Proof.
  intros HN (HD & Hb & Hc & Ho & Hn) Hi Hj.
  pose proof (cell_range N i j Hi Hj) as Hr.
  unfold init_cell. rewrite HD. fold (cell N i j).
  destruct (vset (board t) (cell N i j * 2) 0) as [b1| | |] eqn:E1;
    try (rewrite vset_in in E1 by lia; discriminate).
  apply vset_ok in E1 as (_ & L1 & R1 & F1). simpl.
  destruct (vset b1 (cell N i j * 2 + 1) 0) as [b2| | |] eqn:E2;
    try (rewrite vset_in in E2 by lia; discriminate).
  apply vset_ok in E2 as (_ & L2 & R2 & F2). simpl.
  set (pl := (0 <? i) && (i <? N + 1) && (0 <? j) && (j <? N + 1)).
  assert (Hpl : pl = true <-> (1 <= i <= N /\ 1 <= j <= N)).
  { unfold pl. rewrite !andb_true_iff, !Z.ltb_lt. lia. }
  assert (exists o,
    (if pl then vset (open_positions t) ((i - 1) * N + j - 1) (cell N i j)
     else Ok (open_positions t)) = Ok o /\ vlen o = N * N /\
    (pl = true -> rd o ((i - 1) * N + (j - 1)) = cell N i j) /\
    (forall k, (pl = true -> k <> (i - 1) * N + (j - 1)) ->
       rd o k = rd (open_positions t) k)) as (o & -> & Lo & Ro & Fo).
  { destruct pl eqn:Epl.
    - destruct (proj1 Hpl eq_refl) as [Hi' Hj'].
      destruct (vset (open_positions t) ((i - 1) * N + j - 1) (cell N i j))
        as [o| | |] eqn:E3; try (rewrite vset_in in E3 by nia; discriminate).
      apply vset_ok in E3 as (_ & L3 & R3 & F3).
      exists o. split; [reflexivity|]. split; [lia|]. split.
      + intros _. now replace ((i - 1) * N + (j - 1)) with ((i - 1) * N + j - 1) by lia.
      + intros k Hk. apply F3. specialize (Hk eq_refl). lia.
    - exists (open_positions t). repeat split; try assumption. discriminate. }
  simpl.
  destruct (vset (connected t) (cell N i j * 2) (if i =? 0 then 1 else 0))
    as [c1| | |] eqn:E4; try (rewrite vset_in in E4 by lia; discriminate).
  apply vset_ok in E4 as (_ & L4 & R4 & F4). simpl.
  destruct (vset c1 (cell N i j * 2 + 1) (if j =? 0 then 1 else 0))
    as [c2| | |] eqn:E5; try (rewrite vset_in in E5 by lia; discriminate).
  apply vset_ok in E5 as (_ & L5 & R5 & F5). simpl.
  eexists. split; [reflexivity|]. split; [|split].
  - unfold sized; simpl. repeat split; try assumption; lia.
  - unfold cell_reset; simpl. repeat split.
    + rewrite F2 by lia. exact R1.
    + exact R2.
    + rewrite F5 by lia. exact R4.
    + exact R5.
    + intros Hi' Hj'. apply Ro. apply Hpl. lia.
  - intros i' j' Hi' Hj' Hne (A1 & A2 & A3 & A4 & A5).
    assert (cell N i' j' <> cell N i j) as Hc'.
    { intros E. apply cell_inj in E; [|lia|lia]. destruct E; subst. now apply Hne. }
    unfold cell_reset; simpl. repeat split.
    + rewrite F2, F1 by lia. exact A1.
    + rewrite F2, F1 by lia. exact A2.
    + rewrite F5, F4 by lia. exact A3.
    + rewrite F5, F4 by lia. exact A4.
    + intros Hi'' Hj''. rewrite Fo; [now apply A5|].
      intros Hp. apply Hpl in Hp. intros E.
      apply Hne. assert (i' = i) by nia. subst i'. f_equal. lia.
Qed.

Lemma init_ok N s :
  0 < N -> sized N s -> exists s', init s = Ok s' /\ fresh N s'.
Proof.
  intros HN Hs. unfold init.
  assert (HD : BOARD_DIM s = N) by apply Hs. rewrite HD.
  set (I := fun (i j : Z) (t : HexGame) =>
    sized N t /\
    forall i' j', 0 <= i' < N + 2 -> 0 <= j' < N + 2 ->
      (i' < i \/ (i' = i /\ j' < j)) -> cell_reset N t i' j').
  destruct (for_range_inv (fun i t => I i 0 t)
    (fun i t => for_range 0 (N + 2) (fun j t => init_cell i j t) t)
    0 (N + 2) s) as (s1 & E & Hs1 & H1).
  - lia.
  - split; [exact Hs|]. intros. lia.
  - intros i t Hi Ht.
    destruct (for_range_inv (fun j t => I i j t)
      (fun j t => init_cell i j t) 0 (N + 2) t) as (t' & E' & Ht'1 & Ht'2).
    + lia.
    + exact Ht.
    + intros j u Hj [Hu1 Hu2].
      destruct (init_cell_ok N i j u HN Hu1 Hi Hj) as (u' & Eu & Su & Ru & Fu).
      exists u'. split; [exact Eu|]. split; [exact Su|].
      intros i' j' Hi' Hj' Hd.
      destruct (Z.eq_dec i' i) as [->|Hne].
      * destruct (Z.eq_dec j' j) as [->|Hne']; [exact Ru|].
        apply Fu; try assumption; [congruence|]. apply Hu2; try assumption. lia.
      * apply Fu; try assumption; [congruence|]. apply Hu2; try assumption. lia.
    + exists t'. split; [exact E'|]. split; [exact Ht'1|].
      intros i' j' Hi' Hj' Hd. apply Ht'2; try assumption. lia.
  - rewrite E. simpl. eexists. split; [reflexivity|].
    destruct Hs1 as (A & B & C & D & F).
    unfold fresh, sized, cell_reset in *; simpl.
    repeat split; try assumption; try (apply H1; lia).
Qed.

Lemma sized_new N :
  0 < N ->
  sized N (mkHexGame N
       (resize [] ((N + 2) * (N + 2) * 2))
       (resize [] (N * N))
       0
       (resize [] (N * N))
       (resize [] ((N + 2) * (N + 2) * 2))
       (offsets N)).
Proof.
  intros HN. unfold sized, vlen, resize; simpl.
  rewrite !take_nil. simpl. rewrite !length_replicate.
  repeat split; try reflexivity; nia.
Qed.

Lemma HexGame_new_ok N : 0 < N -> exists s, HexGame_new N = Ok s /\ fresh N s.
Proof. intros HN. apply init_ok; [exact HN|]. now apply sized_new. Qed.

(** * The engine invariant *)

(** [wf N s] holds of every state the engine reaches on a board of
    dimension [N] (lemma [reach_wf]). *)
Record wf (N : Z) (s : HexGame) : Prop := mkwf {
  wf_sized : sized N s;
  wf_count : 0 <= number_of_open_positions s <= N * N;
  wf_open_playable : forall k, 0 <= k < number_of_open_positions s ->
    playable N (rd (open_positions s) k);
  wf_open_inj : forall k k',
    0 <= k < number_of_open_positions s ->
    0 <= k' < number_of_open_positions s ->
    rd (open_positions s) k = rd (open_positions s) k' -> k = k';
  wf_open_free : forall k, 0 <= k < number_of_open_positions s ->
    rd (board s) (rd (open_positions s) k * 2) = 0 /\
    rd (board s) (rd (open_positions s) k * 2 + 1) = 0;
  wf_board_vals : forall k, rd (board s) k = 0 \/ rd (board s) k = 1;
  wf_conn_vals : forall k, rd (connected s) k = 0 \/ rd (connected s) k = 1;
  wf_border : forall c, ~ playable N c ->
    rd (board s) (c * 2) = 0 /\ rd (board s) (c * 2 + 1) = 0;
  wf_moves_nodup : List.NoDup (moves s);
  wf_moves_occ : forall m, In m (moves s) <->
    (0 <= m < N * N /\
     (rd (board s) (padded N m * 2) = 1 \/ rd (board s) (padded N m * 2 + 1) = 1))
}.

Ltac inv_bind H :=
  repeat match type of H with
  | bind _ _ = Ok _ =>
      let a := fresh "a" in let E := fresh "E" in
      apply bind_ok in H as (a & E & H); simpl in H
  end.

(** Every slot of a vector of size [2 * (N+2)^2] is a flag of some cell. *)
Lemma slot_cell N k :
  0 < N -> 0 <= k < (N + 2) * (N + 2) * 2 ->
  exists i j b, 0 <= i < N + 2 /\ 0 <= j < N + 2 /\ (b = 0 \/ b = 1) /\
                k = cell N i j * 2 + b.
Proof.
  intros HN Hk.
  pose proof (Z.div_mod k 2 ltac:(lia)) as E.
  pose proof (Z.mod_pos_bound k 2 ltac:(lia)) as Hb.
  assert (Hc : 0 <= k / 2 < (N + 2) * (N + 2)).
  { split; [apply Z.div_pos; lia|apply Z.div_lt_upper_bound; lia]. }
  exists (row N (k / 2)), (col N (k / 2)), (k mod 2).
  split; [now apply row_range|]. split; [now apply col_range|].
  split; [lia|]. rewrite <- cell_row_col by assumption. lia.
Qed.

Lemma fresh_board N s k : 0 < N -> fresh N s -> rd (board s) k = 0.
Proof.
  intros HN (Hs & Hc & _).
  destruct (Z.lt_ge_cases k 0) as [Hk|Hk]; [apply rd_out; lia|].
  destruct (Z.lt_ge_cases k ((N + 2) * (N + 2) * 2)) as [Hk'|Hk'].
  - destruct (slot_cell N k HN ltac:(lia)) as (i & j & b & Hi & Hj & Hb & ->).
    destruct (Hc i j Hi Hj) as (A & B & _).
    destruct Hb as [-> | ->]; [now rewrite Z.add_0_r|exact B].
  - apply rd_out. destruct Hs as (_ & -> & _). lia.
Qed.

Lemma fresh_conn_vals N s k :
  0 < N -> fresh N s -> rd (connected s) k = 0 \/ rd (connected s) k = 1.
Proof.
  intros HN (Hs & Hc & _).
  destruct (Z.lt_ge_cases k 0) as [Hk|Hk]; [left; apply rd_out; lia|].
  destruct (Z.lt_ge_cases k ((N + 2) * (N + 2) * 2)) as [Hk'|Hk'].
  - destruct (slot_cell N k HN ltac:(lia)) as (i & j & b & Hi & Hj & Hb & ->).
    destruct (Hc i j Hi Hj) as (_ & _ & A & B & _).
    destruct Hb as [-> | ->].
    + rewrite Z.add_0_r, A. destruct (i =? 0); auto.
    + rewrite B. destruct (j =? 0); auto.
  - left. apply rd_out. destruct Hs as (_ & _ & -> & _). lia.
Qed.

(** The [k]-th open position of a fresh board, in coordinates. *)
Lemma fresh_open N s k :
  0 < N -> fresh N s -> 0 <= k < N * N ->
  rd (open_positions s) k = cell N (k / N + 1) (k mod N + 1).
Proof.
  intros HN (Hs & Hc & _) Hk.
  pose proof (Z.mod_pos_bound k N HN).
  assert (0 <= k / N < N).
  { split; [apply Z.div_pos; lia|apply Z.div_lt_upper_bound; lia]. }
  destruct (Hc (k / N + 1) (k mod N + 1) ltac:(lia) ltac:(lia)) as (_ & _ & _ & _ & A).
  rewrite <- A by lia. f_equal.
  pose proof (Z.div_mod k N ltac:(lia)). lia.
Qed.

Lemma fresh_wf N s : 0 < N -> fresh N s -> wf N s.
Proof.
  intros HN Hf. pose proof Hf as (Hs & Hc & Hn & Hm).
  constructor.
  - exact Hs.
  - rewrite Hn. nia.
  - intros k Hk. rewrite Hn in Hk. rewrite (fresh_open N s k HN Hf Hk).
    rewrite <- padded_cell by assumption. now apply padded_playable.
  - intros k k' Hk Hk'. rewrite Hn in Hk, Hk'.
    rewrite (fresh_open N s k HN Hf Hk), (fresh_open N s k' HN Hf Hk').
    rewrite <- !padded_cell by assumption. intros E.
    rewrite <- (logical_padded N k HN Hk), <- (logical_padded N k' HN Hk').
    now rewrite E.
  - intros k _. split; now apply (fresh_board N).
  - intros k. left. now apply (fresh_board N).
  - intros k. now apply (fresh_conn_vals N).
  - intros c _. split; now apply (fresh_board N).
  - rewrite Hm. constructor.
  - intros m. rewrite Hm. split; [intros []|].
    intros (_ & [A|A]); rewrite (fresh_board N) in A by assumption; discriminate.
Qed.

(** * [place_piece_randomly] *)

(** What a successful call did, read off the code. *)
Lemma place_inv r p s pos s' :
  place_piece_randomly r p s = Ok (pos, s') ->
  let n := number_of_open_positions s in
  let idx := Z.rem r n in
  n <> 0 /\ 0 <= idx < vlen (open_positions s) /\
  pos = rd (open_positions s) idx /\
  BOARD_DIM s + 2 <> 0 /\
  BOARD_DIM s' = BOARD_DIM s /\
  connected s' = connected s /\
  neighbors s' = neighbors s /\
  number_of_open_positions s' = n - 1 /\
  moves s' = moves s ++
    [(Z.quot pos (BOARD_DIM s + 2) - 1) * BOARD_DIM s +
     (Z.rem pos (BOARD_DIM s + 2) - 1)] /\
  vset (board s) (pos * 2 + p) 1 = Ok (board s') /\
  vset (open_positions s) idx (rd (open_positions s) (n - 1)) =
    Ok (open_positions s').
Proof.
  unfold place_piece_randomly. intros H. inv_bind H.
  injection H as <- <-. simpl.
  unfold crem in E. destruct (Z.eqb_spec (number_of_open_positions s) 0); [discriminate|].
  injection E as <-.
  apply vget_ok in E0 as [Hidx Hpos].
  unfold cdiv in E2. unfold crem in E3.
  destruct (Z.eqb_spec (BOARD_DIM s + 2) 0); [discriminate|].
  injection E2 as <-. injection E3 as <-.
  apply vget_ok in E4 as [_ <-]. subst a0.
  repeat split; auto; lia.
Qed.

Lemma rem_index r n : 0 < n -> 0 <= Z.rem r n -> 0 <= Z.rem r n < n.
Proof.
  intros Hn H. pose proof (Z.rem_bound_abs r n ltac:(lia)). lia.
Qed.

(** On a well-formed state with an open cell the call succeeds, and
    this is what it returns. *)
Lemma place_progress N r p s :
  0 < N -> wf N s -> (p = 0 \/ p = 1) ->
  0 < number_of_open_positions s -> 0 <= Z.rem r (number_of_open_positions s) ->
  exists s',
    place_piece_randomly r p s =
      Ok (rd (open_positions s) (Z.rem r (number_of_open_positions s)), s') /\
    moves s' = moves s ++
      [logical N (rd (open_positions s) (Z.rem r (number_of_open_positions s)))].
Proof.
  intros HN Hwf Hp Hn Hr.
  pose proof (wf_sized _ _ Hwf) as (HD & Hb & Hc & Ho & Hnb).
  pose proof (wf_count _ _ Hwf) as Hcnt.
  pose proof (rem_index r _ Hn Hr) as Hidx.
  pose proof (wf_open_playable _ _ Hwf _ Hidx) as Hpl.
  pose proof (playable_range N _ HN Hpl) as Hrange.
  unfold place_piece_randomly. rewrite HD.
  unfold crem at 1. destruct (Z.eqb_spec (number_of_open_positions s) 0); [lia|]. simpl.
  rewrite vget_in by lia. simpl.
  rewrite vset_in by lia. simpl.
  rewrite cdiv_row, crem_col by lia. simpl.
  rewrite vget_in by lia. simpl.
  rewrite vset_in by lia. simpl.
  eexists. split; [reflexivity|]. reflexivity.
Qed.

Lemma NoDup_snoc (l : list Z) x : List.NoDup l -> ~ In x l -> List.NoDup (l ++ [x]).
Proof.
  intros Hl Hx. apply NoDup_rev in Hl.
  rewrite <- (rev_involutive (l ++ [x])). apply NoDup_rev.
  rewrite rev_app_distr. simpl. constructor; [|exact Hl].
  now rewrite <- in_rev.
Qed.

Lemma NoDup_snoc_inv (l : list Z) x : List.NoDup (l ++ [x]) -> List.NoDup l /\ ~ In x l.
Proof.
  intros H. apply NoDup_rev in H. rewrite rev_app_distr in H. simpl in H.
  inversion H as [|y l' Hy Hl']; subst. split.
  - rewrite <- (rev_involutive l). now apply NoDup_rev.
  - now rewrite in_rev.
Qed.

(** The placed cell was open, is playable, and the state stays well
    formed. *)
Lemma place_wf N r p s pos s' :
  0 < N -> wf N s -> (p = 0 \/ p = 1) ->
  place_piece_randomly r p s = Ok (pos, s') ->
  wf N s' /\ playable N pos /\
  rd (board s) (pos * 2) = 0 /\ rd (board s) (pos * 2 + 1) = 0 /\
  moves s' = moves s ++ [logical N pos].
Proof.
  intros HN Hwf Hp H.
  pose proof (place_inv _ _ _ _ _ H) as
    (Hn0 & Hidx0 & Hpos & _ & HD' & Hc' & Hnb' & Hn' & _ & Hb' & Ho').
  simpl in *.
  pose proof (wf_sized _ _ Hwf) as (HD & Hb & Hc & Ho & Hnb).
  pose proof (wf_count _ _ Hwf) as Hcnt.
  set (n := number_of_open_positions s) in *.
  assert (Hn : 0 < n) by lia.
  pose proof (rem_index r n Hn ltac:(lia)) as Hidx.
  set (idx := Z.rem r n) in *.
  destruct (place_progress N r p s HN Hwf Hp Hn ltac:(fold n; lia)) as (s2 & E2 & Hmv).
  fold n idx in E2, Hmv. rewrite <- Hpos in E2, Hmv.
  rewrite E2 in H. injection H as ->.
  pose proof (wf_open_playable _ _ Hwf idx Hidx) as Hpl. rewrite <- Hpos in Hpl.
  pose proof (wf_open_free _ _ Hwf idx Hidx) as Hfree. rewrite <- Hpos in Hfree.
  apply vset_ok in Hb' as (_ & Lb & Rb & Fb).
  apply vset_ok in Ho' as (_ & Lo & Ro & Fo).
  assert (Hopen : forall k, 0 <= k < n - 1 ->
            exists k', 0 <= k' < n /\ k' <> idx /\
                       rd (open_positions s') k = rd (open_positions s) k').
  { intros k Hk. destruct (Z.eq_dec k idx) as [->|Hne].
    - exists (n - 1). rewrite Ro. repeat split; lia.
    - exists k. rewrite Fo by exact Hne. repeat split; lia. }
  assert (Hother : forall c, c <> pos ->
            rd (board s') (c * 2) = rd (board s) (c * 2) /\
            rd (board s') (c * 2 + 1) = rd (board s) (c * 2 + 1)).
  { intros c Hc0. split; apply Fb; lia. }
  assert (Hnotin : ~ In (logical N pos) (moves s)).
  { intros Hin. apply (wf_moves_occ _ _ Hwf) in Hin as (_ & Hocc).
    rewrite padded_logical in Hocc by assumption. lia. }
  refine (conj _ (conj Hpl (conj (proj1 Hfree) (conj (proj2 Hfree) Hmv)))).
  constructor.
  - unfold sized. rewrite HD', Hc', Hnb'. repeat split; try assumption; lia.
  - lia.
  - rewrite Hn'. intros k Hk. destruct (Hopen k Hk) as (k' & Hk' & _ & ->).
    now apply (wf_open_playable _ _ Hwf).
  - rewrite Hn'. intros k1 k2 Hk1 Hk2 E.
    destruct (Z.eq_dec k1 idx) as [->|Hne1], (Z.eq_dec k2 idx) as [->|Hne2];
      try reflexivity.
    + rewrite Ro, Fo in E by exact Hne2.
      apply (wf_open_inj _ _ Hwf) in E; fold n; lia.
    + rewrite Ro, Fo in E by exact Hne1.
      apply (wf_open_inj _ _ Hwf) in E; fold n; lia.
    + rewrite !Fo in E by assumption.
      apply (wf_open_inj _ _ Hwf) in E; fold n; lia.
  - rewrite Hn'. intros k Hk. destruct (Hopen k Hk) as (k' & Hk' & Hne & ->).
    assert (rd (open_positions s) k' <> pos) as Hc0.
    { rewrite Hpos. intros E. apply (wf_open_inj _ _ Hwf) in E; fold n; lia. }
    destruct (Hother _ Hc0) as [-> ->]. now apply (wf_open_free _ _ Hwf).
  - intros k. destruct (Z.eq_dec k (pos * 2 + p)) as [->|Hne].
    + right. exact Rb.
    + rewrite Fb by exact Hne. apply (wf_board_vals _ _ Hwf).
  - rewrite Hc'. apply (wf_conn_vals _ _ Hwf).
  - intros c Hc0. assert (c <> pos) as Hne by (intros ->; contradiction).
    destruct (Hother _ Hne) as [-> ->]. now apply (wf_border _ _ Hwf).
  - rewrite Hmv. apply NoDup_snoc; [apply (wf_moves_nodup _ _ Hwf)|exact Hnotin].
  - intros m. rewrite Hmv, in_app_iff. simpl. split.
    + intros [Hin| [<- |[]]].
      * pose proof Hin as Hin'.
        apply (wf_moves_occ _ _ Hwf) in Hin as (Hm & Hocc). split; [exact Hm|].
        assert (padded N m <> pos) as Hne.
        { intros E. apply Hnotin. rewrite <- E, logical_padded by assumption. exact Hin'. }
        destruct (Hother _ Hne) as [-> ->]. exact Hocc.
      * split; [now apply logical_range|].
        rewrite padded_logical by assumption.
        destruct Hp as [-> | ->]; [left|right]; rewrite <- Rb; f_equal; lia.
    + intros (Hm & Hocc).
      destruct (Z.eq_dec (padded N m) pos) as [E|Hne].
      * right. left. rewrite <- E. now rewrite logical_padded.
      * left. apply (wf_moves_occ _ _ Hwf). split; [exact Hm|].
        destruct (Hother _ Hne) as [<- <-]. exact Hocc.
Qed.

(** * [remove_last_n_moves] *)

(** [undone N s removed t]: [t] is [s] with both occupancy flags of the
    cells in [removed] cleared, and the move history aside nothing else
    changed. *)
Definition undone (N : Z) (s : HexGame) (removed : list Z) (t : HexGame) : Prop :=
  BOARD_DIM t = BOARD_DIM s /\
  open_positions t = open_positions s /\
  number_of_open_positions t = number_of_open_positions s /\
  connected t = connected s /\
  neighbors t = neighbors s /\
  vlen (board t) = vlen (board s) /\
  (forall m, In m removed ->
     rd (board t) (padded N m * 2) = 0 /\ rd (board t) (padded N m * 2 + 1) = 0) /\
  (forall k, (forall m, In m removed ->
                k <> padded N m * 2 /\ k <> padded N m * 2 + 1) ->
     rd (board t) k = rd (board s) k).

Lemma undone_refl N s : undone N s [] s.
Proof.
  unfold undone. split; [reflexivity|]. split; [reflexivity|].
  split; [reflexivity|]. split; [reflexivity|]. split; [reflexivity|].
  split; [reflexivity|]. split; [intros m []|reflexivity].
Qed.

Lemma cdiv_nonneg a b : 0 < b -> 0 <= a -> cdiv a b = Ok (a / b).
Proof.
  intros Hb Ha. unfold cdiv. destruct (Z.eqb_spec b 0); [lia|].
  now rewrite Z.quot_div_nonneg by lia.
Qed.

Lemma crem_nonneg a b : 0 < b -> 0 <= a -> crem a b = Ok (a mod b).
Proof.
  intros Hb Ha. unfold crem. destruct (Z.eqb_spec b 0); [lia|].
  now rewrite Z.rem_mod_nonneg by lia.
Qed.

(** One iteration of the loop on a non-empty history. *)
Lemma remove_last_move_ok N s removed t mv m :
  0 < N -> wf N t -> undone N s removed t -> moves t = mv ++ [m] ->
  exists t',
    remove_last_move (removed, t) = Ok (removed ++ [m], t') /\
    wf N t' /\ undone N s (removed ++ [m]) t' /\ moves t' = mv.
Proof.
  intros HN Hwf Hun Hmv.
  pose proof (wf_sized _ _ Hwf) as (HD & Hb & Hc & Ho & Hnb).
  assert (Hin : In m (moves t)) by (rewrite Hmv, in_app_iff; simpl; auto).
  pose proof (proj1 (wf_moves_occ _ _ Hwf m) Hin) as (Hm & Hocc).
  pose proof (padded_playable N m HN Hm) as Hpl.
  pose proof (playable_range N _ HN Hpl) as Hrange.
  pose proof (wf_moves_nodup _ _ Hwf) as Hnd. rewrite Hmv in Hnd.
  apply NoDup_snoc_inv in Hnd as [Hnd Hnotin].
  unfold remove_last_move. rewrite Hmv, last_snoc, removelast_last, HD.
  rewrite cdiv_nonneg, crem_nonneg by lia. simpl.
  fold (padded N m).
  destruct (vset (board t) (padded N m * 2) 0) as [b1| | |] eqn:E1;
    try (rewrite vset_in in E1 by lia; discriminate).
  apply vset_ok in E1 as (_ & L1 & R1 & F1). simpl.
  destruct (vset b1 (padded N m * 2 + 1) 0) as [b2| | |] eqn:E2;
    try (rewrite vset_in in E2 by lia; discriminate).
  apply vset_ok in E2 as (_ & L2 & R2 & F2). simpl.
  assert (R1' : rd b2 (padded N m * 2) = 0) by (rewrite F2 by lia; exact R1).
  assert (F : forall k, k <> padded N m * 2 -> k <> padded N m * 2 + 1 ->
                        rd b2 k = rd (board t) k).
  { intros k H1 H2. now rewrite F2, F1. }
  assert (Z : forall k, rd (board t) k = 0 -> rd b2 k = 0).
  { intros k Hk. destruct (Z.eq_dec k (padded N m * 2)) as [->|H1]; [exact R1'|].
    destruct (Z.eq_dec k (padded N m * 2 + 1)) as [->|H2]; [exact R2|].
    now rewrite F. }
  eexists. split; [reflexivity|]. split; [|split; [|reflexivity]].
  - constructor; simpl.
    + unfold sized; simpl. repeat split; try assumption; lia.
    + apply (wf_count _ _ Hwf).
    + apply (wf_open_playable _ _ Hwf).
    + apply (wf_open_inj _ _ Hwf).
    + intros k Hk. destruct (wf_open_free _ _ Hwf k Hk). split; now apply Z.
    + intros k. destruct (wf_board_vals _ _ Hwf k) as [A|A]; [left; now apply Z|].
      destruct (Z.eq_dec k (padded N m * 2)) as [->|H1]; [now left|].
      destruct (Z.eq_dec k (padded N m * 2 + 1)) as [->|H2]; [now left|].
      right. now rewrite F.
    + apply (wf_conn_vals _ _ Hwf).
    + intros c Hc0. destruct (wf_border _ _ Hwf c Hc0). split; now apply Z.
    + exact Hnd.
    + intros m'. split.
      * intros Hin'.
        assert (In m' (moves t)) as Hin2 by (rewrite Hmv, in_app_iff; auto).
        apply (wf_moves_occ _ _ Hwf) in Hin2 as (Hm' & Hocc'). split; [exact Hm'|].
        assert (padded N m' <> padded N m) as Hne.
        { intros E. apply Hnotin.
          rewrite <- (logical_padded N m HN Hm), <- E, logical_padded by assumption.
          exact Hin'. }
        rewrite !F by lia. exact Hocc'.
      * intros (Hm' & Hocc').
        assert (padded N m' <> padded N m) as Hne.
        { intros E. rewrite E, R1', R2 in Hocc'. lia. }
        rewrite !F in Hocc' by lia.
        assert (In m' (moves t)) as Hin2 by (apply (wf_moves_occ _ _ Hwf); auto).
        rewrite Hmv, in_app_iff in Hin2. destruct Hin2 as [?|[<-|[]]]; [assumption|].
        now contradiction Hne.
  - destruct Hun as (U1 & U2 & U3 & U4 & U5 & U6 & U7 & U8).
    unfold undone; simpl. repeat split; try assumption; try lia.
    + apply in_app_iff in H as [H|[<-|[]]]; [apply Z; now apply U7|exact R1'].
    + apply in_app_iff in H as [H|[<-|[]]]; [apply Z; now apply U7|exact R2].
    + intros k Hk. rewrite F.
      * apply U8. intros m' Hm'. apply Hk. apply in_app_iff. now left.
      * apply (Hk m). apply in_app_iff. right. now left.
      * apply (Hk m). apply in_app_iff. right. now left.
Qed.

(** The loop removes a whole tail [back] of the history, newest first. *)
Lemma undo_loop N s :
  0 < N ->
  forall k i removed t front back,
    wf N t -> undone N s removed t ->
    moves t = front ++ back -> length back = k ->
    exists t',
      for_loop k i (fun _ acc => remove_last_move acc) (removed, t) =
        Ok (removed ++ rev back, t') /\
      wf N t' /\ undone N s (removed ++ rev back) t' /\ moves t' = front.
Proof.
  intros HN. induction k as [|k IH]; intros i removed t front back Hwf Hun Hmv Hlen.
  - destruct back; [|discriminate]. simpl. rewrite app_nil_r in *.
    exists t. split; [reflexivity|]. split; [assumption|]. split; assumption.
  - destruct (exists_last (l := back)) as (back' & m & ->).
    { intros ->. discriminate. }
    rewrite length_app in Hlen. simpl in Hlen.
    rewrite app_assoc in Hmv.
    destruct (remove_last_move_ok N s removed t _ m HN Hwf Hun Hmv)
      as (t1 & E1 & Hwf1 & Hun1 & Hmv1).
    rewrite for_loop_S, E1. simpl bind.
    destruct (IH (i + 1) (removed ++ [m]) t1 front back' Hwf1 Hun1 Hmv1 ltac:(lia))
      as (t' & E' & Hwf' & Hun' & Hmv').
    rewrite rev_app_distr. simpl.
    replace (removed ++ m :: rev back') with ((removed ++ [m]) ++ rev back')
      by (now rewrite <- app_assoc).
    exists t'. split; [exact E'|]. split; [exact Hwf'|]. split; assumption.
Qed.

(** With more iterations than recorded moves the loop reaches
    [moves.back()] on an empty history. *)
Lemma undo_loop_fail N s :
  0 < N ->
  forall k i removed t,
    wf N t -> undone N s removed t -> (length (moves t) < k)%nat ->
    for_loop k i (fun _ acc => remove_last_move acc) (removed, t) =
      Undefined BackOfEmpty.
Proof.
  intros HN. induction k as [|k IH]; intros i removed t Hwf Hun Hlen; [lia|].
  destruct (moves t) as [|x l] eqn:Hmv.
  - rewrite for_loop_S. unfold remove_last_move. now rewrite Hmv.
  - destruct (exists_last (l := x :: l)) as (mv & m & E); [discriminate|].
    rewrite E in Hmv.
    destruct (remove_last_move_ok N s removed t _ m HN Hwf Hun Hmv)
      as (t1 & E1 & Hwf1 & Hun1 & Hmv1).
    rewrite for_loop_S, E1. simpl bind. apply IH; try assumption.
    rewrite Hmv1. rewrite E, length_app in Hlen. simpl in Hlen. lia.
Qed.

Lemma remove_last_n_moves_ok N n s :
  0 < N -> wf N s -> n <= Z.of_nat (length (moves s)) ->
  exists s',
    remove_last_n_moves n s =
      Ok (rev (drop (length (moves s) - Z.to_nat n) (moves s)), s') /\
    wf N s' /\
    undone N s (rev (drop (length (moves s) - Z.to_nat n) (moves s))) s' /\
    moves s' = take (length (moves s) - Z.to_nat n) (moves s).
Proof.
  intros HN Hwf Hn. unfold remove_last_n_moves, for_range.
  rewrite Z.sub_0_r.
  destruct (undo_loop N s HN (Z.to_nat n) 0 [] s
              (take (length (moves s) - Z.to_nat n) (moves s))
              (drop (length (moves s) - Z.to_nat n) (moves s))
              Hwf (undone_refl N s))
    as (s' & E & H).
  - now rewrite take_drop.
  - rewrite length_drop. lia.
  - exists s'. split; [exact E|exact H].
Qed.

Lemma remove_last_n_moves_fail N n s :
  0 < N -> wf N s -> Z.of_nat (length (moves s)) < n ->
  remove_last_n_moves n s = Undefined BackOfEmpty.
Proof.
  intros HN Hwf Hn. unfold remove_last_n_moves, for_range.
  apply (undo_loop_fail N s HN); [exact Hwf|apply undone_refl|lia].
Qed.

(** * The flood fill: [connect] *)

(** The goal edge of player [p]: the last playable row for player 0,
    the last playable column for player 1. *)
Definition goal (N p c : Z) : Prop :=
  (p = 0 /\ row N c = N) \/ (p = 1 /\ col N c = N).

Definition goalb (N p c : Z) : bool :=
  ((p =? 0) && (row N c =? N)) || ((p =? 1) && (col N c =? N)).

(** [chain N b p a c]: from cell [a] one reaches cell [c] walking from
    neighbour to neighbour over stones of [p] on board [b]. *)
Inductive chain (N : Z) (b : list Z) (p : Z) (a : Z) : Z -> Prop :=
| chain_refl : chain N b p a a
| chain_step c n :
    chain N b p a c -> adj N c n -> rd b (n * 2 + p) <> 0 -> chain N b p a n.

(** The number of clear slots of the mark vector bounds the recursion. *)
Definition zeros (v : list Z) : nat := length (List.filter (fun x => x =? 0) v).

(** What [connect] needs of the state it runs on. *)
Definition grid (N : Z) (s : HexGame) : Prop :=
  sized N s /\
  (forall c, ~ playable N c ->
     rd (board s) (c * 2) = 0 /\ rd (board s) (c * 2 + 1) = 0) /\
  (forall k, rd (connected s) k = 0 \/ rd (connected s) k = 1).

(** [grow p s s']: [s'] is [s] with some marks of player [p] flipped
    from 0 to 1 and nothing else changed. *)
Definition grow (p : Z) (s s' : HexGame) : Prop :=
  s' = set_connected s (connected s') /\
  vlen (connected s') = vlen (connected s) /\
  forall k, rd (connected s') k = rd (connected s) k \/
            (exists c, k = c * 2 + p /\
                       rd (connected s) k = 0 /\ rd (connected s') k = 1).

(** All stone neighbours of [c] carry a mark. *)
Definition closed_at (N : Z) (s : HexGame) (p c : Z) : Prop :=
  forall n, adj N c n -> stone s p n -> marked s p n.

Lemma wf_grid N s : wf N s -> grid N s.
Proof.
  intros H. split; [apply (wf_sized _ _ H)|].
  split; [apply (wf_border _ _ H)|apply (wf_conn_vals _ _ H)].
Qed.

Lemma grow_refl p s : grow p s s.
Proof. split; [now destruct s|]. split; [reflexivity|]. now left. Qed.

Lemma grow_board p s s' : grow p s s' -> board s' = board s.
Proof. intros (-> & _). reflexivity. Qed.

Lemma grow_trans p s1 s2 s3 : grow p s1 s2 -> grow p s2 s3 -> grow p s1 s3.
Proof.
  intros (E1 & L1 & H1) (E2 & L2 & H2). split; [|split].
  - rewrite E2. rewrite E1 at 1. reflexivity.
  - lia.
  - intros k. destruct (H2 k) as [A|(c & E' & A & B)], (H1 k) as [C|(c' & E & C & D)].
    + left. congruence.
    + right. exists c'. repeat split; congruence.
    + right. exists c. repeat split; congruence.
    + rewrite D in A. discriminate.
Qed.

Lemma grow_marked p s s' q c : grow p s s' -> marked s q c -> marked s' q c.
Proof.
  intros (_ & _ & H) Hm. unfold marked in *.
  destruct (H (c * 2 + q)) as [->|(_ & _ & _ & ->)]; [exact Hm|discriminate].
Qed.

Lemma grow_stone p s s' q c : grow p s s' -> stone s' q c <-> stone s q c.
Proof. intros H. unfold stone. now rewrite (grow_board _ _ _ H). Qed.

Lemma grow_closed N p s s' q c :
  grow p s s' -> closed_at N s q c -> closed_at N s' q c.
Proof.
  intros H Hc n Ha Hs. apply (grow_marked p s); [exact H|].
  apply Hc; [exact Ha|]. now apply (grow_stone p s s').
Qed.

(** Marks of the other player are untouched. *)
Lemma grow_other p s s' q c :
  (p = 0 \/ p = 1) -> (q = 0 \/ q = 1) -> q <> p ->
  grow p s s' -> rd (connected s') (c * 2 + q) = rd (connected s) (c * 2 + q).
Proof.
  intros Hp Hq Hne (_ & _ & H).
  destruct (H (c * 2 + q)) as [->|(c' & E & _)]; [reflexivity|lia].
Qed.

Lemma chain_trans N b p a c d :
  chain N b p a c -> chain N b p c d -> chain N b p a d.
Proof.
  intros H1 H2. induction H2 as [|e n H IH Ha Hs]; [exact H1|].
  eapply chain_step; eauto.
Qed.

Lemma chain_one N b p a n :
  adj N a n -> rd b (n * 2 + p) <> 0 -> chain N b p a n.
Proof. intros. eapply chain_step; eauto. apply chain_refl. Qed.

(** The offset table, entry by entry. *)
Lemma adj_offset N c n :
  adj N c n <-> exists j, 0 <= j < 6 /\ n = c + rd (offsets N) j.
Proof.
  unfold adj, offsets. simpl. split.
  - intros [H|[H|[H|[H|[H|[H|[]]]]]]].
    + exists 0. split; [lia|]. unfold rd; simpl. lia.
    + exists 1. split; [lia|]. unfold rd; simpl. lia.
    + exists 2. split; [lia|]. unfold rd; simpl. lia.
    + exists 3. split; [lia|]. unfold rd; simpl. lia.
    + exists 4. split; [lia|]. unfold rd; simpl. lia.
    + exists 5. split; [lia|]. unfold rd; simpl. lia.
  - intros (j & Hj & ->).
    assert (j = 0 \/ j = 1 \/ j = 2 \/ j = 3 \/ j = 4 \/ j = 5) as Hc by lia.
    destruct Hc as [->|[->|[->|[->|[->| ->]]]]]; unfold rd; simpl; lia.
Qed.

Lemma adj_sym N c n : adj N c n -> adj N n c.
Proof. unfold adj, offsets. simpl. lia. Qed.

(** A neighbour of a playable cell lies on the padded grid. *)
Lemma adj_range N c n :
  0 < N -> playable N c -> adj N c n -> 0 <= n < (N + 2) * (N + 2).
Proof.
  intros HN Hp Ha. destruct (playable_inv N c HN Hp) as (i & j & Hi & Hj & ->).
  unfold adj, offsets, cell in *. simpl in Ha. nia.
Qed.

(** Writing a 1 clears at most one zero. *)
Lemma zeros_insert (v : list Z) (n : nat) (x : Z) :
  v !! n = Some x ->
  zeros v = (zeros (<[n := 1%Z]> v) + (if (x =? 0)%Z then 1 else 0))%nat.
Proof.
  unfold zeros. revert n. induction v as [|y v IH]; intros [|n] H; try discriminate.
  - injection H as ->. simpl. destruct (x =? 0); simpl; lia.
  - simpl in H. simpl. specialize (IH n H).
    destruct (y =? 0); simpl; lia.
Qed.

Lemma zeros_vset v i v' :
  vset v i 1 = Ok v' ->
  zeros v = (zeros v' + (if (rd v i =? 0)%Z then 1 else 0))%nat.
Proof.
  intros H. pose proof (vset_ok _ _ _ _ H) as (Hi & _).
  rewrite vset_in in H by exact Hi. injection H as <-.
  pose proof (vget_in v i Hi) as E. unfold vget in E.
  destruct (Z.ltb_spec i 0); [lia|].
  destruct (v !! Z.to_nat i) eqn:E'; [|discriminate]. injection E as ->.
  now apply zeros_insert.
Qed.

Lemma connect_loop_S rec player position k i s :
  connect_loop rec player position (S k) i s =
  (let* off := vget (neighbors s) i in
   let neighbor := position + off in
   let* b := vget (board s) (neighbor * 2 + player) in
   let* unvisited :=
     if b =? 0 then Ok false
     else let* c := vget (connected s) (neighbor * 2 + player) in
          Ok (c =? 0) in
   if (unvisited : bool) then
     let* (r, s') := rec neighbor s in
     if r =? 0 then connect_loop rec player position k (i + 1) s'
     else Ok (1, s')
   else connect_loop rec player position k (i + 1) s).
Proof. reflexivity. Qed.

Lemma connect_S fuel player position s :
  connect (S fuel) player position s =
  (let* c := vset (connected s) (position * 2 + player) 1 in
   let s := set_connected s c in
   let* top_bottom :=
     if player =? 0
     then let* q := cdiv position (BOARD_DIM s + 2) in
          Ok (q =? BOARD_DIM s)
     else Ok false in
   if (top_bottom : bool) then Ok (1, s)
   else
     let* left_right :=
       if player =? 1
       then let* m := crem position (BOARD_DIM s + 2) in
            Ok (m =? BOARD_DIM s)
       else Ok false in
     if (left_right : bool) then Ok (1, s)
     else connect_loop (connect fuel player) player position 6%nat 0 s).
Proof. reflexivity. Qed.

Arguments connect_loop : simpl never.

Section Connect.

Variables N p : Z.
Hypothesis HN : 0 < N.
Hypothesis Hp : p = 0 \/ p = 1.

(** What a call [connect(p, pos)] on state [s] returns ([r]) and leaves
    ([s']). *)
Definition connect_post (s : HexGame) (pos r : Z) (s' : HexGame) : Prop :=
  grid N s' /\ grow p s s' /\ marked s' p pos /\
  (zeros (connected s') <= zeros (connected s))%nat /\
  (~ marked s p pos -> (zeros (connected s') < zeros (connected s))%nat) /\
  (forall c, marked s' p c -> marked s p c \/ chain N (board s) p pos c) /\
  (r = 0 \/ r = 1) /\
  (r = 0 -> forall c, c = pos \/ ~ marked s p c -> marked s' p c ->
            ~ goal N p c /\ closed_at N s' p c) /\
  (r = 1 -> exists c, marked s' p c /\ goal N p c /\ chain N (board s) p pos c).

(** A recursive call with fuel [f] on an unmarked stone does what
    [connect_post] says, provided [f] covers the clear slots. *)
Definition rec_ok (f : nat) : Prop :=
  forall n t, grid N t -> playable N n -> ~ marked t p n ->
    (zeros (connected t) <= f)%nat ->
    exists r t', connect f p n t = Ok (r, t') /\ connect_post t n r t'.

Lemma slot_range c :
  0 <= c < (N + 2) * (N + 2) -> 0 <= c * 2 + p < (N + 2) * (N + 2) * 2.
Proof. lia. Qed.

Lemma grid_stone_playable s c : grid N s -> stone s p c -> playable N c.
Proof.
  intros (_ & Hb & _) Hs.
  destruct (playableb N c) eqn:E; [now apply playableb_spec|].
  assert (~ playable N c) as Hn.
  { intros H. apply playableb_spec in H. congruence. }
  destruct (Hb c Hn) as [A B]. unfold stone in Hs.
  destruct Hp as [-> | ->]; [rewrite Z.add_0_r in Hs|]; contradiction.
Qed.

(** The first statement of [connect]: mark the position. *)
Lemma mark_ok s pos :
  grid N s -> playable N pos ->
  exists c,
    vset (connected s) (pos * 2 + p) 1 = Ok c /\
    grid N (set_connected s c) /\ grow p s (set_connected s c) /\
    marked (set_connected s c) p pos /\
    (forall c', marked (set_connected s c) p c' <-> marked s p c' \/ c' = pos) /\
    zeros (connected s) =
      (zeros c + (if (rd (connected s) (pos * 2 + p) =? 0)%Z then 1 else 0))%nat.
Proof.
  intros (Hs & Hb & Hv) Hpl. pose proof Hs as (HD & Lb & Lc & Lo & Hnb).
  pose proof (playable_range N pos HN Hpl) as Hr.
  destruct (vset (connected s) (pos * 2 + p) 1) as [c| | |] eqn:E;
    try (rewrite vset_in in E by lia; discriminate).
  exists c. split; [reflexivity|].
  pose proof (zeros_vset _ _ _ E) as Hz.
  apply vset_ok in E as (_ & L & R & F).
  split; [|split; [|split; [|split]]].
  - split; [|split]; simpl.
    + unfold sized; simpl. repeat split; try assumption; lia.
    + exact Hb.
    + intros k. destruct (Z.eq_dec k (pos * 2 + p)) as [->|Hne]; [now right|].
      rewrite F by exact Hne. apply Hv.
  - split; [reflexivity|]. split; [exact L|]. simpl. intros k.
    destruct (Z.eq_dec k (pos * 2 + p)) as [->|Hne].
    + destruct (Hv (pos * 2 + p)) as [A|A]; [right; exists pos; auto|left; congruence].
    + left. now apply F.
  - unfold marked; simpl. rewrite R. discriminate.
  - intros c'. unfold marked; simpl.
    destruct (Z.eq_dec c' pos) as [->|Hne].
    + rewrite R. split; [now right|discriminate].
    + rewrite F by lia. tauto.
  - exact Hz.
Qed.

(** The invariant of the loop of [connect] before iteration [i]; [s0]
    is the state at loop entry, [pos] the position being connected. *)
Definition loop_inv (s0 : HexGame) (pos i : Z) (t : HexGame) : Prop :=
  grid N t /\ grow p s0 t /\
  (zeros (connected t) <= zeros (connected s0))%nat /\
  (forall c, marked t p c -> marked s0 p c \/ chain N (board s0) p pos c) /\
  (forall c, ~ marked s0 p c -> marked t p c ->
     ~ goal N p c /\ closed_at N t p c) /\
  (forall j, 0 <= j < i ->
     stone t p (pos + rd (offsets N) j) -> marked t p (pos + rd (offsets N) j)).

Definition loop_post (s0 : HexGame) (pos r : Z) (t : HexGame) : Prop :=
  grid N t /\ grow p s0 t /\
  (zeros (connected t) <= zeros (connected s0))%nat /\
  (forall c, marked t p c -> marked s0 p c \/ chain N (board s0) p pos c) /\
  (r = 0 \/ r = 1) /\
  (r = 0 ->
     (forall c, ~ marked s0 p c -> marked t p c ->
        ~ goal N p c /\ closed_at N t p c) /\
     closed_at N t p pos) /\
  (r = 1 -> exists c, marked t p c /\ goal N p c /\ chain N (board s0) p pos c).

Lemma vget_offsets i : 0 <= i < 6 -> vget (offsets N) i = Ok (rd (offsets N) i).
Proof. intros H. apply vget_in. unfold vlen, offsets. simpl. lia. Qed.

Lemma connect_loop_ok f s0 pos :
  rec_ok f -> playable N pos -> (zeros (connected s0) <= f)%nat ->
  forall k i t,
    Z.of_nat k + i = 6 -> 0 <= i -> loop_inv s0 pos i t ->
    exists r t',
      connect_loop (connect f p) p pos k i t = Ok (r, t') /\
      loop_post s0 pos r t'.
Proof.
  intros Hrec Hpl Hf. induction k as [|k IH]; intros i t Hk Hi Hinv.
  - destruct Hinv as (Hg & Hgr & Hz & Hsound & Hfresh & Hproc).
    exists 0, t. split; [reflexivity|].
    split; [exact Hg|]. split; [exact Hgr|]. split; [exact Hz|].
    split; [exact Hsound|]. split; [now left|]. split; [|discriminate].
    intros _. split; [exact Hfresh|].
    intros n Ha Hs. apply adj_offset in Ha as (j & Hj & ->).
    apply Hproc; [lia|exact Hs].
  - pose proof Hinv as (Hg & Hgr & Hz & Hsound & Hfresh & Hproc).
    pose proof Hg as ((HD & Lb & Lc & Lo & Hnb) & Hbd & Hv).
    rewrite connect_loop_S, Hnb, vget_offsets by lia. simpl bind.
    set (n := pos + rd (offsets N) i).
    assert (Ha : adj N pos n) by (apply adj_offset; exists i; split; [lia|reflexivity]).
    pose proof (adj_range N pos n HN Hpl Ha) as Hn.
    rewrite (vget_in (board t)) by (rewrite Lb; now apply slot_range). simpl bind.
    assert (Hnext : forall t',
      grid N t' -> grow p t t' ->
      (zeros (connected t') <= zeros (connected t))%nat ->
      (forall c, marked t' p c ->
         marked t p c \/ (stone t p n /\ chain N (board t) p n c)) ->
      (forall c, ~ marked t p c -> marked t' p c ->
         ~ goal N p c /\ closed_at N t' p c) ->
      (stone t p n -> marked t' p n) ->
      loop_inv s0 pos (i + 1) t').
    { intros t' Hg' Hgr' Hz' Hs' Hf' Hn'.
      split; [exact Hg'|]. split; [eapply grow_trans; eauto|].
      split; [lia|]. split; [|split].
      - intros c Hc. destruct (Hs' c Hc) as [A|[A0 A]]; [now apply Hsound|].
        right. rewrite <- (grow_board _ _ _ Hgr).
        eapply chain_trans; [apply chain_one; eauto|exact A].
      - intros c Hc0 Hc.
        destruct (Z.eq_dec (rd (connected t) (c * 2 + p)) 0) as [E0|E0].
        + apply Hf'; [|exact Hc]. unfold marked. now intros H; apply H.
        + destruct (Hfresh c Hc0 E0) as [A B]. split; [exact A|].
          eapply grow_closed; eauto.
      - intros j Hj Hs.
        destruct (Z.eq_dec j i) as [->|Hne].
        + apply Hn'. now apply (grow_stone p t t').
        + eapply grow_marked; [exact Hgr'|]. apply Hproc; [lia|].
          now apply (grow_stone p t t'). }
    assert (Hskip : (stone t p n -> marked t p n) ->
      exists r t',
        connect_loop (connect f p) p pos k (i + 1) t = Ok (r, t') /\
        loop_post s0 pos r t').
    { intros Hm. apply IH; [lia|lia|].
      apply Hnext; try assumption; [apply grow_refl|lia|now left|tauto]. }
    destruct (Z.eqb_spec (rd (board t) (n * 2 + p)) 0) as [Eb|Eb]; simpl bind.
    { apply Hskip. intros Hs. contradiction. }
    rewrite (vget_in (connected t)) by (rewrite Lc; now apply slot_range). simpl bind.
    destruct (Z.eqb_spec (rd (connected t) (n * 2 + p)) 0) as [Ec|Ec]; simpl bind.
    2:{ apply Hskip. intros _. exact Ec. }
    assert (Hst : stone t p n) by exact Eb.
    assert (Hun : ~ marked t p n) by (intros H; now apply H).
    destruct (Hrec n t Hg (grid_stone_playable t n Hg Hst) Hun ltac:(lia))
      as (r & t' & E & Hg' & Hgr' & Hm' & Hz' & _ & Hs' & Hr & H0 & H1).
    rewrite E. simpl bind.
    destruct Hr as [-> | ->]; simpl.
    + apply IH; [lia|lia|]. apply Hnext; try assumption.
      * intros c Hc. destruct (Hs' c Hc); [now left|right; now split].
      * intros c Hc0 Hc. apply (H0 eq_refl); [now right|exact Hc].
      * intros _. exact Hm'.
    + destruct (H1 eq_refl) as (g & Hg1 & Hg2 & Hg3).
      exists 1, t'. split; [reflexivity|].
      split; [exact Hg'|]. split; [eapply grow_trans; eauto|].
      split; [lia|]. split; [|split; [now right|split; [discriminate|]]].
      * intros c Hc. destruct (Hs' c Hc) as [A|A]; [now apply Hsound|].
        right. rewrite <- (grow_board _ _ _ Hgr).
        eapply chain_trans; [apply chain_one; eauto|exact A].
      * intros _. exists g. split; [exact Hg1|]. split; [exact Hg2|].
        rewrite <- (grow_board _ _ _ Hgr).
        eapply chain_trans; [apply chain_one; eauto|exact Hg3].
Qed.


(** One call of [connect], given that its recursive calls behave. *)
Lemma connect_step f s pos :
  rec_ok f -> grid N s -> playable N pos ->
  (zeros (connected s) <=
     f + (if (rd (connected s) (pos * 2 + p) =? 0)%Z then 1 else 0))%nat ->
  exists r s', connect (S f) p pos s = Ok (r, s') /\ connect_post s pos r s'.
Proof.
  intros Hrec Hg Hpl Hf.
  destruct (mark_ok s pos Hg Hpl) as (c & E & Hg0 & Hgr0 & Hm0 & Hmk & Hz).
  set (s0 := set_connected s c) in *.
  pose proof (playable_range N pos HN Hpl) as Hr.
  assert (HD : BOARD_DIM s0 = N) by apply Hg0.
  assert (Hstrict : ~ marked s p pos ->
            (zeros (connected s0) < zeros (connected s))%nat).
  { intros Hun. simpl. rewrite Hz.
    destruct (Z.eqb_spec (rd (connected s) (pos * 2 + p)) 0); [lia|].
    exfalso. now apply Hun. }
  assert (Hle : (zeros (connected s0) <= zeros (connected s))%nat)
    by (simpl; lia).
  assert (Hsound0 : forall c', marked s0 p c' ->
            marked s p c' \/ chain N (board s) p pos c').
  { intros c' Hc'. apply Hmk in Hc' as [A| ->]; [now left|right; apply chain_refl]. }
  assert (Hgoal : goal N p pos -> connect_post s pos 1 s0).
  { intros Hgo. split; [exact Hg0|]. split; [exact Hgr0|]. split; [exact Hm0|].
    split; [exact Hle|]. split; [exact Hstrict|]. split; [exact Hsound0|].
    split; [now right|]. split; [discriminate|].
    intros _. exists pos. split; [exact Hm0|]. split; [exact Hgo|apply chain_refl]. }
  assert (Hloop : ~ goal N p pos ->
            exists r s',
              connect_loop (connect f p) p pos 6%nat 0 s0 = Ok (r, s') /\
              connect_post s pos r s').
  { intros Hngo.
    destruct (connect_loop_ok f s0 pos Hrec Hpl ltac:(simpl; lia) 6%nat 0 s0)
      as (r & t' & El & Hg' & Hgr' & Hz' & Hs' & Hr' & H0 & H1).
    - lia.
    - lia.
    - split; [exact Hg0|]. split; [apply grow_refl|]. split; [lia|].
      split; [now left|]. split; [intros; contradiction|intros; lia].
    - exists r, t'. split; [exact El|].
      split; [exact Hg'|]. split; [eapply grow_trans; eauto|].
      split; [eapply grow_marked; eauto|]. split; [lia|].
      split; [intros Hun; specialize (Hstrict Hun); lia|].
      split; [|split; [exact Hr'|split]].
      + intros c' Hc'. destruct (Hs' c' Hc') as [A|A]; [now apply Hsound0|now right].
      + intros -> c' Hc0 Hc'. destruct (H0 eq_refl) as [Hfr Hcl].
        destruct (Z.eq_dec c' pos) as [->|Hne]; [split; assumption|].
        destruct Hc0 as [->|Hun]; [contradiction|].
        apply Hfr; [|exact Hc']. intros Hm. apply Hmk in Hm. tauto.
      + intros ->. destruct (H1 eq_refl) as (g & A & B & C').
        exists g. repeat split; assumption. }
  change (BOARD_DIM s0) with (BOARD_DIM s) in HD.
  rewrite connect_S, E. simpl bind. fold s0. rewrite HD.
  destruct Hp as [-> | ->]; simpl.
  - rewrite cdiv_row by lia. simpl.
    destruct (Z.eqb_spec (row N pos) N) as [Erow|Erow].
    + exists 1, s0. split; [reflexivity|]. apply Hgoal. left. now split.
    + simpl. apply Hloop. intros [[_ A]|[A _]]; [contradiction|discriminate].
  - rewrite crem_col by lia. simpl.
    destruct (Z.eqb_spec (col N pos) N) as [Ecol|Ecol].
    + exists 1, s0. split; [reflexivity|]. apply Hgoal. right. now split.
    + simpl. apply Hloop. intros [[A _]|[_ A]]; [discriminate|contradiction].
Qed.

(** Recursive calls terminate within the number of clear mark slots. *)
Lemma connect_rec_ok : forall f, rec_ok f.
Proof.
  induction f as [|f IH]; intros n t Hg Hpl Hun Hz.
  - exfalso. destruct (mark_ok t n Hg Hpl) as (c & _ & _ & _ & _ & _ & E).
    destruct (Z.eqb_spec (rd (connected t) (n * 2 + p)) 0) as [A|A]; [lia|].
    now apply Hun.
  - apply connect_step; try assumption.
    destruct (Z.eqb_spec (rd (connected t) (n * 2 + p)) 0) as [A|A]; [lia|].
    exfalso. now apply Hun.
Qed.

(** The top-level call: any fuel above the number of clear mark slots
    is enough. *)
Lemma connect_ok fuel s pos :
  grid N s -> playable N pos ->
  (zeros (connected s) < fuel)%nat ->
  exists r s', connect fuel p pos s = Ok (r, s') /\ connect_post s pos r s'.
Proof.
  intros Hg Hpl Hf. destruct fuel as [|f]; [lia|].
  apply connect_step; try assumption; [apply connect_rec_ok|].
  destruct (rd (connected s) (pos * 2 + p) =? 0); lia.
Qed.

End Connect.

(** * What [connect] and [winner] leave untouched *)

Definition bits (v : list Z) : Prop := forall k, rd v k = 0 \/ rd v k = 1.

Lemma grow_bits p s s' : grow p s s' -> bits (connected s) -> bits (connected s').
Proof.
  intros (_ & _ & H) Hb k.
  destruct (H k) as [->|(_ & _ & _ & ->)]; [apply Hb|now right].
Qed.

Lemma mark_grow p s pos c :
  bits (connected s) -> vset (connected s) (pos * 2 + p) 1 = Ok c ->
  grow p s (set_connected s c).
Proof.
  intros Hb E. apply vset_ok in E as (_ & L & R & F).
  split; [reflexivity|]. split; [exact L|]. simpl. intros k.
  destruct (Z.eq_dec k (pos * 2 + p)) as [->|Hne].
  - destruct (Hb (pos * 2 + p)) as [A|A]; [right; exists pos; auto|left; congruence].
  - left. now apply F.
Qed.

Lemma connect_loop_frame p pos rec :
  (forall n t r t', bits (connected t) -> rec n t = Ok (r, t') -> grow p t t') ->
  forall k i t r t',
    bits (connected t) ->
    connect_loop rec p pos k i t = Ok (r, t') -> grow p t t'.
Proof.
  intros Hrec. induction k as [|k IH]; intros i t r t' Hb H.
  - injection H as <- <-. apply grow_refl.
  - rewrite connect_loop_S in H. inv_bind H.
    destruct a1.
    + inv_bind H. destruct a1 as [r1 t1].
      pose proof (Hrec _ _ _ _ Hb E2) as G1.
      destruct (r1 =? 0).
      * eapply grow_trans; [exact G1|]. eapply IH; [|exact H].
        eapply grow_bits; eauto.
      * injection H as <- <-. exact G1.
    + eapply IH; eauto.
Qed.

(** Whatever the position and the fuel, a call of [connect] that
    returns has only flipped marks of player [p] from 0 to 1. *)
Lemma connect_frame p : forall fuel pos s r s',
  bits (connected s) -> connect fuel p pos s = Ok (r, s') -> grow p s s'.
Proof.
  induction fuel as [|fuel IH]; intros pos s r s' Hb H; [discriminate|].
  rewrite connect_S in H. inv_bind H.
  pose proof (mark_grow p s pos a Hb E) as G0.
  destruct a0.
  - injection H as <- <-. exact G0.
  - inv_bind H. destruct a0.
    + injection H as <- <-. exact G0.
    + eapply grow_trans; [exact G0|].
      eapply connect_loop_frame; [|eapply grow_bits; eauto|exact H].
      intros n t r' t' Hb' E'. eapply IH; eauto.
Qed.

(** [no_marked_neighbor s p pos]: none of the six entries the loop of
    [winner] reads is set. *)
Definition no_marked_neighbor (s : HexGame) (p pos : Z) : Prop :=
  forall j, 0 <= j < 6 ->
    rd (connected s) ((pos + rd (neighbors s) j) * 2 + p) = 0.

Lemma winner_loop_inv fuel p pos s r s' :
  forall k i,
    winner_loop fuel p pos k i s = Ok (r, s') ->
    (connect fuel p pos s = Ok (r, s') /\
     exists j, i <= j < i + Z.of_nat k /\
       rd (connected s) ((pos + rd (neighbors s) j) * 2 + p) <> 0) \/
    (r = 0 /\ s' = s).
Proof.
  induction k as [|k IH]; intros i H.
  - injection H as <- <-. now right.
  - simpl in H. inv_bind H.
    apply vget_ok in E as [_ <-]. apply vget_ok in E0 as [_ <-].
    destruct (Z.eqb_spec (rd (connected s) ((pos + rd (neighbors s) i) * 2 + p)) 0)
      as [A|A].
    + destruct (IH _ H) as [(B & j & Hj & C)|B]; [left|now right].
      split; [exact B|]. exists j. split; [lia|exact C].
    + left. split; [exact H|]. exists i. split; [lia|exact A].
Qed.

Lemma winner_frame fuel p pos s r s' :
  bits (connected s) -> winner fuel p pos s = Ok (r, s') ->
  grow p s s' /\ (no_marked_neighbor s p pos -> r = 0 /\ s' = s).
Proof.
  intros Hb H. unfold winner in H.
  destruct (winner_loop_inv _ _ _ _ _ _ _ _ H) as [(A & j & Hj & B)|[-> ->]].
  - split; [eapply connect_frame; eauto|].
    intros Hno. exfalso. apply B. apply Hno. lia.
  - split; [apply grow_refl|]. auto.
Qed.

(** On a playable position with enough fuel [winner] returns: it is
    the flood fill from [pos] when some neighbour is marked, and [0] on
    an unchanged state otherwise. *)
Lemma winner_ok N p fuel s pos :
  0 < N -> (p = 0 \/ p = 1) -> grid N s -> playable N pos ->
  (zeros (connected s) < fuel)%nat ->
  exists r s',
    winner fuel p pos s = Ok (r, s') /\
    (((exists n, adj N pos n /\ marked s p n) /\ connect_post N p s pos r s') \/
     ((forall n, adj N pos n -> ~ marked s p n) /\ r = 0 /\ s' = s)).
Proof.
  intros HN Hp Hg Hpl Hf.
  destruct (connect_ok N p HN Hp fuel s pos Hg Hpl Hf) as (r & s' & Ec & Hpost).
  pose proof Hg as ((HD & Lb & Lc & Lo & Hnb) & _ & _).
  assert (Hloop : forall k i,
    Z.of_nat k + i = 6 -> 0 <= i ->
    (forall j, 0 <= j < i -> ~ marked s p (pos + rd (offsets N) j)) ->
    (winner_loop fuel p pos k i s = Ok (r, s') /\
     exists n, adj N pos n /\ marked s p n) \/
    (winner_loop fuel p pos k i s = Ok (0, s) /\
     forall n, adj N pos n -> ~ marked s p n)).
  { induction k as [|k IH]; intros i Hk Hi Hno.
    - right. split; [reflexivity|].
      intros n Ha. apply adj_offset in Ha as (j & Hj & ->). apply Hno. lia.
    - simpl winner_loop. rewrite Hnb, (vget_offsets N) by lia. simpl bind.
      assert (Ha : adj N pos (pos + rd (offsets N) i))
        by (apply adj_offset; exists i; split; [lia|reflexivity]).
      pose proof (adj_range N pos _ HN Hpl Ha) as Hn.
      rewrite (vget_in (connected s)) by (rewrite Lc; lia). simpl bind.
      destruct (Z.eqb_spec (rd (connected s) ((pos + rd (offsets N) i) * 2 + p)) 0)
        as [A|A].
      + apply IH; [lia|lia|]. intros j Hj.
        destruct (Z.eq_dec j i) as [->|Hne]; [|apply Hno; lia].
        intros Hm. now apply Hm.
      + left. split; [exact Ec|]. eexists. split; [exact Ha|exact A]. }
  destruct (Hloop 6%nat 0 ltac:(lia) ltac:(lia) ltac:(intros; lia))
    as [[E Hex]|[E Hno]].
  - exists r, s'. split; [exact E|]. left. split; assumption.
  - exists 0, s. split; [exact E|]. right. repeat split. exact Hno.
Qed.

(** * Every reachable state is well formed *)

Lemma grow_wf N p s s' : wf N s -> grow p s s' -> wf N s'.
Proof.
  intros Hwf Hg. pose proof Hg as (E & L & _).
  pose proof (grow_bits _ _ _ Hg (wf_conn_vals _ _ Hwf)) as Hb.
  rewrite E. constructor; simpl; try apply Hwf.
  - destruct (wf_sized _ _ Hwf) as (A & B & C & D & F).
    unfold sized; simpl. repeat split; try assumption. lia.
  - exact Hb.
Qed.

Lemma init_wf N s s' : 0 < N -> wf N s -> init s = Ok s' -> wf N s' /\ fresh N s'.
Proof.
  intros HN Hwf H.
  destruct (init_ok N s HN (wf_sized _ _ Hwf)) as (s2 & E & Hf).
  rewrite E in H. injection H as <-. split; [now apply fresh_wf|exact Hf].
Qed.

(** The states of an engine of dimension [N] under any interleaving of
    its operations. *)
Inductive reach (N : Z) : HexGame -> Prop :=
| reach_new s :
    HexGame_new N = Ok s -> reach N s
| reach_init s s' :
    reach N s -> init s = Ok s' -> reach N s'
| reach_place s r p pos s' :
    reach N s -> (p = 0 \/ p = 1) ->
    place_piece_randomly r p s = Ok (pos, s') -> reach N s'
| reach_winner s fuel p pos res s' :
    reach N s -> winner fuel p pos s = Ok (res, s') -> reach N s'
| reach_undo s n removed s' :
    reach N s -> remove_last_n_moves n s = Ok (removed, s') -> reach N s'.

Lemma remove_last_n_moves_total N n s :
  0 < N -> wf N s ->
  remove_last_n_moves n s = Undefined BackOfEmpty \/
  exists removed s',
    remove_last_n_moves n s = Ok (removed, s') /\ wf N s' /\
    n <= Z.of_nat (length (moves s)).
Proof.
  intros HN Hwf.
  destruct (Z.lt_ge_cases (Z.of_nat (length (moves s))) n) as [H|H].
  - left. now apply (remove_last_n_moves_fail N).
  - right. destruct (remove_last_n_moves_ok N n s HN Hwf ltac:(lia))
      as (s' & E & Hwf' & _).
    eexists _, s'. split; [exact E|]. split; [exact Hwf'|lia].
Qed.

Lemma reach_wf N s : 0 < N -> reach N s -> wf N s.
Proof.
  intros HN H. induction H as
    [s E|s s' _ IH E|s r p pos s' _ IH Hp E|s fuel p pos res s' _ IH E
    |s n removed s' _ IH E].
  - destruct (HexGame_new_ok N HN) as (s2 & E2 & Hf).
    rewrite E2 in E. injection E as <-. now apply fresh_wf.
  - now apply (init_wf N s s').
  - now apply (place_wf N r p s pos s').
  - apply (grow_wf N p s); [exact IH|].
    eapply winner_frame; [exact (wf_conn_vals _ _ IH)|exact E].
  - destruct (remove_last_n_moves_total N n s HN IH) as [F|(rm & s2 & E2 & Hwf2 & _)].
    + rewrite F in E. discriminate.
    + rewrite E2 in E. injection E as _ <-. exact Hwf2.
Qed.

(** * [board_to_coord] *)

(** The value [board_to_coord] pushes for the cell of logical index [m]. *)
Definition coord_value (N : Z) (b : list Z) (m : Z) : Z :=
  if rd b (padded N m * 2) =? 1 then 1
  else if rd b (padded N m * 2 + 1) =? 1 then -1 else 0.

(** The logical indices [0 .. n-1] in increasing order. *)
Definition zseq (n : nat) : list Z := map Z.of_nat (seq 0 n).

Definition count_nonzero (v : list Z) : nat :=
  length (List.filter (fun x => negb (x =? 0)) v).

Lemma zseq_S n : zseq (S n) = zseq n ++ [Z.of_nat n].
Proof. unfold zseq. rewrite seq_S, map_app. reflexivity. Qed.

Lemma length_zseq n : length (zseq n) = n.
Proof. unfold zseq. now rewrite length_map, length_seq. Qed.

Lemma In_zseq n m : In m (zseq n) <-> 0 <= m < Z.of_nat n.
Proof.
  unfold zseq. rewrite in_map_iff. split.
  - intros (k & <- & Hk). apply in_seq in Hk. lia.
  - intros H. exists (Z.to_nat m). split; [lia|]. apply in_seq. lia.
Qed.

Lemma NoDup_zseq n : List.NoDup (zseq n).
Proof.
  unfold zseq. apply Injective_map_NoDup; [|apply seq_NoDup].
  intros x y. lia.
Qed.

Lemma rd_app_l (v w : list Z) k : 0 <= k < vlen v -> rd (v ++ w) k = rd v k.
Proof.
  unfold vlen. intros H. unfold rd, vget. destruct (Z.ltb_spec k 0); [lia|].
  rewrite lookup_app_l by lia. reflexivity.
Qed.

Lemma rd_snoc (v : list Z) x : rd (v ++ [x]) (vlen v) = x.
Proof.
  unfold vlen, rd, vget. destruct (Z.ltb_spec (Z.of_nat (length v)) 0); [lia|].
  rewrite Nat2Z.id, lookup_app_r by lia. now rewrite Nat.sub_diag.
Qed.

Lemma rd_map_zseq (f : Z -> Z) n k :
  0 <= k < Z.of_nat n -> rd (map f (zseq n)) k = f k.
Proof.
  induction n as [|n IH]; intros Hk; [lia|].
  rewrite zseq_S, map_app. simpl.
  destruct (Z.eq_dec k (Z.of_nat n)) as [->|Hne].
  - pose proof (rd_snoc (map f (zseq n)) (f (Z.of_nat n))) as H.
    unfold vlen in H. now rewrite length_map, length_zseq in H.
  - rewrite rd_app_l by (unfold vlen; rewrite length_map, length_zseq; lia).
    apply IH. lia.
Qed.

Lemma count_nonzero_map (f : Z -> Z) l :
  count_nonzero (map f l) = length (List.filter (fun m => negb (f m =? 0)) l).
Proof.
  unfold count_nonzero. induction l as [|x l IH]; [reflexivity|].
  simpl. destruct (f x =? 0); simpl; now rewrite IH.
Qed.

Lemma padded_rowcol N i j :
  0 < N -> 0 <= i -> 0 <= j < N -> padded N (i * N + j) = cell N (i + 1) (j + 1).
Proof.
  intros HN Hi Hj. unfold padded, cell.
  rewrite (Z.add_comm (i * N)), Z.div_add, Z.mod_add by lia.
  rewrite Z.div_small, Z.mod_small by lia. reflexivity.
Qed.

(** The nested loops push the cell values in increasing logical index. *)
Lemma board_to_coord_ok N s :
  0 < N -> sized N s ->
  board_to_coord s = Ok (map (coord_value N (board s)) (zseq (Z.to_nat (N * N)))).
Proof.
  intros HN (HD & Lb & _). unfold board_to_coord. rewrite HD.
  set (f := coord_value N (board s)).
  destruct (for_range_inv (fun i acc => acc = map f (zseq (Z.to_nat (i * N))))
    (fun i acc => for_range 0 N (fun j acc => coord_cell i j s acc) acc)
    0 N []) as (v & E & Hv).
  - lia.
  - reflexivity.
  - intros i acc Hi ->.
    destruct (for_range_inv
      (fun j acc => acc = map f (zseq (Z.to_nat (i * N + j))))
      (fun j acc => coord_cell i j s acc) 0 N
      (map f (zseq (Z.to_nat (i * N))))) as (w & E & Hw).
    + lia.
    + now rewrite Z.add_0_r.
    + intros j acc Hj ->. unfold coord_cell. rewrite HD.
      replace ((i + 1) * (N + 2) + j + 1) with (padded N (i * N + j))
        by (rewrite padded_rowcol by lia; unfold cell; lia).
      pose proof (padded_playable N (i * N + j) HN ltac:(nia)) as Hpl.
      pose proof (playable_range N _ HN Hpl) as Hr.
      rewrite !vget_in by lia. simpl.
      eexists. split; [reflexivity|].
      replace (Z.to_nat (i * N + (j + 1))) with (S (Z.to_nat (i * N + j))) by nia.
      rewrite zseq_S, map_app. simpl.
      rewrite Z2Nat.id by nia. reflexivity.
    + exists w. split; [exact E|]. rewrite Hw. do 2 f_equal. lia.
  - rewrite E, Hv. reflexivity.
Qed.

Lemma coord_value_range N b m :
  coord_value N b m = -1 \/ coord_value N b m = 0 \/ coord_value N b m = 1.
Proof.
  unfold coord_value.
  destruct (rd b (padded N m * 2) =? 1); [tauto|].
  destruct (rd b (padded N m * 2 + 1) =? 1); tauto.
Qed.

Lemma coord_value_nonzero N b m :
  coord_value N b m <> 0 <->
  rd b (padded N m * 2) = 1 \/ rd b (padded N m * 2 + 1) = 1.
Proof.
  unfold coord_value.
  destruct (Z.eqb_spec (rd b (padded N m * 2)) 1);
    destruct (Z.eqb_spec (rd b (padded N m * 2 + 1)) 1); lia.
Qed.

(** On a well-formed state the occupied cells are those of the move
    history, so there are as many of them as recorded moves. *)
Lemma count_occupied N s :
  0 < N -> wf N s ->
  count_nonzero (map (coord_value N (board s)) (zseq (Z.to_nat (N * N)))) =
  length (moves s).
Proof.
  intros HN Hwf. rewrite count_nonzero_map.
  apply Permutation_length, Stdlib.Sorting.Permutation.NoDup_Permutation.
  - apply List.NoDup_filter, NoDup_zseq.
  - apply (wf_moves_nodup _ _ Hwf).
  - intros m. rewrite filter_In, In_zseq, negb_true_iff, Z.eqb_neq.
    rewrite coord_value_nonzero, (wf_moves_occ _ _ Hwf).
    rewrite Z2Nat.id by nia. tauto.
Qed.

(** * Concrete boards *)

Definition value_of {A : Type} (d : A) (m : outcome A) : A :=
  match m with
  | Ok a => a
  | _ => d
  end.

Definition no_game : HexGame := mkHexGame 0 [] [] 0 [] [] [].

(** A fresh 1x1 board, and the same board after its only cell was
    played by player 0. *)
Definition game1 : HexGame := Eval vm_compute in value_of no_game (HexGame_new 1).

Definition game1_full : HexGame :=
  Eval vm_compute in
    value_of no_game
      (let* (_, s) := place_piece_randomly 0 0 game1 in Ok s).

(** A fresh 2x2 board, and the board after player 0 and then player 1
    have moved ([rand()] returning 0 both times). *)
Definition game2 : HexGame := Eval vm_compute in value_of no_game (HexGame_new 2).

Definition game2_one_move : HexGame :=
  Eval vm_compute in
    value_of no_game
      (let* (_, s) := place_piece_randomly 0 0 game2 in Ok s).

Definition game2_two_moves : HexGame :=
  Eval vm_compute in
    value_of no_game
      (let* (_, s) := place_piece_randomly 0 1 game2_one_move in Ok s).

(** The same board after both moves were undone. *)
Definition game2_undone : HexGame :=
  Eval vm_compute in
    value_of no_game
      (let* (_, s) := remove_last_n_moves 2 game2_two_moves in Ok s).

Lemma reach_game1 : reach 1 game1.
Proof. apply reach_new. reflexivity. Qed.

Lemma reach_game1_full : reach 1 game1_full.
Proof.
  apply (reach_place 1 game1 0 0 4); [exact reach_game1|now left|reflexivity].
Qed.

Lemma reach_game2 : reach 2 game2.
Proof. apply reach_new. reflexivity. Qed.

Lemma reach_game2_two_moves : reach 2 game2_two_moves.
Proof.
  apply (reach_place 2 game2_one_move 0 1 10); [|now right|reflexivity].
  apply (reach_place 2 game2 0 0 5); [exact reach_game2|now left|reflexivity].
Qed.

(** * The move counter across undo *)

(** [reach_undone N u s]: [s] is reachable and [u] moves have been
    undone since the last [init]. *)
Inductive reach_undone (N : Z) : Z -> HexGame -> Prop :=
| ru_new s :
    HexGame_new N = Ok s -> reach_undone N 0 s
| ru_init u s s' :
    reach_undone N u s -> init s = Ok s' -> reach_undone N 0 s'
| ru_place u s r p pos s' :
    reach_undone N u s -> (p = 0 \/ p = 1) ->
    place_piece_randomly r p s = Ok (pos, s') -> reach_undone N u s'
| ru_winner u s fuel p pos res s' :
    reach_undone N u s -> winner fuel p pos s = Ok (res, s') ->
    reach_undone N u s'
| ru_undo u s n removed s' :
    reach_undone N u s -> remove_last_n_moves n s = Ok (removed, s') ->
    reach_undone N (u + Z.max 0 n) s'.

Lemma reach_undone_reach N u s : reach_undone N u s -> reach N s.
Proof.
  induction 1.
  - now apply reach_new.
  - eapply reach_init; eauto.
  - eapply reach_place; eauto.
  - eapply reach_winner; eauto.
  - eapply reach_undo; eauto.
Qed.

(** * One game: steps and the win condition *)

(** One engine call other than [init]. *)
Inductive game_step : HexGame -> HexGame -> Prop :=
| step_place r p pos s s' :
    (p = 0 \/ p = 1) -> place_piece_randomly r p s = Ok (pos, s') ->
    game_step s s'
| step_winner fuel p pos res s s' :
    winner fuel p pos s = Ok (res, s') -> game_step s s'
| step_undo n removed s s' :
    remove_last_n_moves n s = Ok (removed, s') -> game_step s s'.

Inductive game_steps : HexGame -> HexGame -> Prop :=
| steps_nil s : game_steps s s
| steps_cons s1 s2 s3 : game_step s1 s2 -> game_steps s2 s3 -> game_steps s1 s3.

(** Player [p]'s win condition: a cell of [p]'s goal edge carries [p]'s
    connectivity mark. *)
Definition won (N : Z) (s : HexGame) (p : Z) : Prop :=
  exists c, 0 <= c < (N + 2) * (N + 2) /\ goal N p c /\ marked s p c.

Lemma game_step_reach N s s' : reach N s -> game_step s s' -> reach N s'.
Proof.
  intros Hr Hs. destruct Hs as [r p pos s s' Hp E|fuel p pos res s s' E|n removed s s' E].
  - exact (reach_place N s r p pos s' Hr Hp E).
  - exact (reach_winner N s fuel p pos res s' Hr E).
  - exact (reach_undo N s n removed s' Hr E).
Qed.

Lemma undo_connected N n s removed s' :
  0 < N -> wf N s -> remove_last_n_moves n s = Ok (removed, s') ->
  n <= Z.of_nat (length (moves s)) /\
  removed = rev (drop (length (moves s) - Z.to_nat n) (moves s)) /\
  wf N s' /\ undone N s removed s' /\
  moves s' = take (length (moves s) - Z.to_nat n) (moves s).
Proof.
  intros HN Hwf E.
  destruct (Z.lt_ge_cases (Z.of_nat (length (moves s))) n) as [H|H].
  - rewrite (remove_last_n_moves_fail N) in E by assumption. discriminate.
  - destruct (remove_last_n_moves_ok N n s HN Hwf ltac:(lia)) as (s2 & E2 & A & B & C).
    rewrite E2 in E. injection E as <- <-.
    split; [lia|]. split; [reflexivity|]. split; [exact A|]. split; [exact B|exact C].
Qed.

Lemma game_step_marks N s s' :
  0 < N -> reach N s -> game_step s s' ->
  vlen (connected s') = vlen (connected s) /\
  forall k, rd (connected s) k <> 0 -> rd (connected s') k <> 0.
Proof.
  intros HN Hr Hs. pose proof (reach_wf N s HN Hr) as Hwf.
  destruct Hs as [r p pos s s' Hp E|fuel p pos res s s' E|n removed s s' E].
  - apply place_inv in E as (_ & _ & _ & _ & _ & -> & _). auto.
  - apply winner_frame in E as [(_ & L & H) _]; [|exact (wf_conn_vals _ _ Hwf)].
    split; [exact L|]. intros k Hk.
    destruct (H k) as [->|(_ & _ & _ & ->)]; [exact Hk|discriminate].
  - apply (undo_connected N) in E as (_ & _ & _ & (_ & _ & _ & -> & _) & _); auto.
Qed.

(** * The game invariant behind the incremental win check *)

(** The start edge of player [p] on the border: row 0 for player 0,
    column 0 for player 1.  [init] marks exactly these cells. *)
Definition seed (N p c : Z) : Prop :=
  0 <= c < (N + 2) * (N + 2) /\
  ((p = 0 /\ row N c = 0) \/ (p = 1 /\ col N c = 0)).

(** The playable cells that touch the start edge of [p]. *)
Definition first (N p c : Z) : Prop :=
  (p = 0 /\ row N c = 1) \/ (p = 1 /\ col N c = 1).

Definition firstb (N p c : Z) : bool :=
  ((p =? 0) && (row N c =? 1)) || ((p =? 1) && (col N c =? 1)).

(** The neighbours of the cell in row [i], column [j]. *)
Lemma adj_cell N i j n :
  adj N (cell N i j) n <->
  n = cell N (i - 1) (j + 1) \/ n = cell N (i - 1) j \/ n = cell N i (j - 1) \/
  n = cell N i (j + 1) \/ n = cell N (i + 1) j \/ n = cell N (i + 1) (j - 1).
Proof. unfold adj, offsets, cell. simpl. lia. Qed.

Lemma seed_adj_first N p pos m :
  0 < N -> playable N pos -> adj N pos m -> seed N p m -> first N p pos.
Proof.
  intros HN Hpl Ha (Hr & Hs).
  destruct (playable_inv N pos HN Hpl) as (i & j & Hi & Hj & ->).
  unfold first. rewrite row_cell, col_cell by lia.
  apply adj_cell in Ha.
  destruct Ha as [->|[->|[->|[->|[->| ->]]]]];
    rewrite row_cell, col_cell in Hs by lia; lia.
Qed.

Lemma first_adj_seed N p c :
  0 < N -> (p = 0 \/ p = 1) -> playable N c -> first N p c ->
  exists m, adj N c m /\ seed N p m.
Proof.
  intros HN Hp Hpl Hf.
  destruct (playable_inv N c HN Hpl) as (i & j & Hi & Hj & ->).
  unfold first in Hf. rewrite row_cell, col_cell in Hf by lia.
  destruct Hp as [-> | ->].
  - exists (cell N (i - 1) j). split; [apply adj_cell; tauto|].
    split; [apply cell_range; lia|]. left. rewrite row_cell by lia. lia.
  - exists (cell N i (j - 1)). split; [apply adj_cell; tauto|].
    split; [apply cell_range; lia|]. right. rewrite col_cell by lia. lia.
Qed.

Lemma seed_not_playable N p c : seed N p c -> ~ playable N c.
Proof. intros (_ & [[_ H]|[_ H]]) [Hr Hc]; lia. Qed.

Lemma seed_not_goal N p c : 0 < N -> seed N p c -> ~ goal N p c.
Proof. intros HN (_ & [[-> H]|[-> H]]) [[F G]|[F G]]; lia. Qed.

(** The invariant of player [p]'s marks during a game:
    - on the border exactly the start edge is marked;
    - a marked playable cell is a stone of [p] linked by stones of [p]
      to a stone touching the start edge;
    - every stone next to a marked cell is marked;
    - no marked cell lies on the goal edge. *)
Record pinv (N : Z) (s : HexGame) (p : Z) : Prop := mkpinv {
  pi_border : forall c, ~ playable N c -> (marked s p c <-> seed N p c);
  pi_sound : forall c, playable N c -> marked s p c ->
    stone s p c /\
    exists c0, playable N c0 /\ first N p c0 /\ stone s p c0 /\
               chain N (board s) p c0 c;
  pi_closed : forall c, marked s p c -> closed_at N s p c;
  pi_nogoal : forall c, marked s p c -> ~ goal N p c
}.

Definition game_inv (N : Z) (s : HexGame) : Prop :=
  wf N s /\ pinv N s 0 /\ pinv N s 1.

Lemma fresh_marked N s p c :
  0 < N -> (p = 0 \/ p = 1) -> fresh N s -> (marked s p c <-> seed N p c).
Proof.
  intros HN Hp Hf. pose proof Hf as ((_ & _ & Lc & _) & Hc & _).
  unfold marked, seed.
  destruct (Z.lt_ge_cases c 0) as [H0|H0].
  { rewrite rd_out by lia. split; [congruence|lia]. }
  destruct (Z.lt_ge_cases c ((N + 2) * (N + 2))) as [H1|H1].
  2:{ rewrite rd_out by lia. split; [congruence|lia]. }
  pose proof (row_range N c HN ltac:(lia)) as Hr.
  pose proof (col_range N c HN) as Hcl.
  destruct (Hc (row N c) (col N c) Hr Hcl) as (_ & _ & A & B & _).
  rewrite <- cell_row_col in A, B by assumption.
  destruct Hp as [-> | ->].
  - rewrite Z.add_0_r, A. destruct (Z.eqb_spec (row N c) 0); split; lia.
  - rewrite B. destruct (Z.eqb_spec (col N c) 0); split; lia.
Qed.

Lemma fresh_pinv N s p : 0 < N -> (p = 0 \/ p = 1) -> fresh N s -> pinv N s p.
Proof.
  intros HN Hp Hf. constructor.
  - intros c _. now apply fresh_marked.
  - intros c Hpl Hm. apply (fresh_marked N s p c HN Hp Hf) in Hm.
    now apply seed_not_playable in Hm.
  - intros c _ n _ Hs. unfold stone in Hs.
    now rewrite (fresh_board N s _ HN Hf) in Hs.
  - intros c Hm. apply (fresh_marked N s p c HN Hp Hf) in Hm.
    now apply seed_not_goal.
Qed.

Lemma fresh_game_inv N s : 0 < N -> fresh N s -> game_inv N s.
Proof.
  intros HN Hf. split; [now apply fresh_wf|].
  split; apply fresh_pinv; auto.
Qed.

(** * More fuel never changes a result *)

Lemma connect_loop_mono (rec rec' : Z -> HexGame -> outcome (Z * HexGame)) p pos :
  (forall n t x, rec n t = Ok x -> rec' n t = Ok x) ->
  forall k i t x,
    connect_loop rec p pos k i t = Ok x -> connect_loop rec' p pos k i t = Ok x.
Proof.
  intros Hrec. induction k as [|k IH]; intros i t x H; [exact H|].
  rewrite connect_loop_S in *. inv_bind H.
  rewrite E; simpl; rewrite E0; simpl; rewrite E1; simpl.
  destruct a1.
  - inv_bind H. rewrite (Hrec _ _ _ E2). simpl. destruct a1 as [r1 t1].
    destruct (r1 =? 0); [now apply IH|exact H].
  - now apply IH.
Qed.

Lemma connect_mono p : forall f f' pos s x,
  (f <= f')%nat -> connect f p pos s = Ok x -> connect f' p pos s = Ok x.
Proof.
  induction f as [|f IH]; intros f' pos s x Hle H; [discriminate|].
  destruct f' as [|f']; [lia|].
  rewrite connect_S in *. inv_bind H.
  rewrite E; simpl; rewrite E0; simpl.
  destruct a0; [exact H|].
  inv_bind H. rewrite E1. simpl. destruct a0; [exact H|].
  eapply connect_loop_mono; [|exact H].
  intros n t y. apply IH. lia.
Qed.

Lemma winner_mono p f f' pos s x :
  (f <= f')%nat -> winner f p pos s = Ok x -> winner f' p pos s = Ok x.
Proof.
  intros Hle. unfold winner. generalize 0. generalize 6%nat.
  induction n as [|k IH]; intros i H; [exact H|].
  simpl in *. inv_bind H. rewrite E; simpl; rewrite E0; simpl.
  destruct (a0 =? 0); [now apply IH|].
  eapply connect_mono; eauto.
Qed.

Lemma zeros_le_length v : (zeros v <= length v)%nat.
Proof. unfold zeros. apply List.filter_length_le. Qed.

(** * One move of the game keeps the invariant *)

(** [win_path N b p pos]: on board [b] the stones of [p] link [pos]
    to a stone touching [p]'s start edge and to a cell on [p]'s goal
    edge: the stone at [pos] is part of a path joining both edges. *)
Definition win_path (N : Z) (b : list Z) (p pos : Z) : Prop :=
  exists c0 g,
    playable N c0 /\ first N p c0 /\ rd b (c0 * 2 + p) <> 0 /\
    chain N b p c0 pos /\ chain N b p pos g /\ goal N p g.

Lemma chain_mono N b b' p a c :
  (forall n, rd b (n * 2 + p) <> 0 -> rd b' (n * 2 + p) <> 0) ->
  chain N b p a c -> chain N b' p a c.
Proof.
  intros H Hc. induction Hc as [|c n Hc IH Ha Hs]; [apply chain_refl|].
  eapply chain_step; eauto.
Qed.

Lemma chain_end N b p a c : chain N b p a c -> c = a \/ rd b (c * 2 + p) <> 0.
Proof. intros H. destruct H; auto. Qed.

(** The invariant of player [q] only reads [q]'s flags and marks. *)
Lemma pinv_ext N s s' q :
  (forall c, rd (board s') (c * 2 + q) = rd (board s) (c * 2 + q)) ->
  (forall c, rd (connected s') (c * 2 + q) = rd (connected s) (c * 2 + q)) ->
  pinv N s q -> pinv N s' q.
Proof.
  intros Hb Hc [B S C G].
  assert (Hm : forall c, marked s' q c <-> marked s q c)
    by (intros c; unfold marked; now rewrite Hc).
  assert (Hs : forall c, stone s' q c <-> stone s q c)
    by (intros c; unfold stone; now rewrite Hb).
  constructor.
  - intros c Hc0. rewrite Hm. now apply B.
  - intros c Hpl Hmc. apply Hm in Hmc. destruct (S c Hpl Hmc) as (A & c0 & A1 & A2 & A3 & A4).
    split; [now apply Hs|]. exists c0. repeat split; try assumption; try apply A1.
    + now apply Hs.
    + eapply chain_mono; [|exact A4]. intros n. now rewrite Hb.
  - intros c Hmc n Ha Hsn. apply Hm. apply (C c); [now apply Hm|exact Ha|now apply Hs].
  - intros c Hmc. apply G. now apply Hm.
Qed.

Lemma marked_dec s p c : marked s p c \/ ~ marked s p c.
Proof.
  unfold marked. destruct (Z.eq_dec (rd (connected s) (c * 2 + p)) 0); [right|left]; lia.
Qed.

(** After [place_piece_randomly] and a [winner] call that found no
    win, the invariant holds again; when [winner] found a win, the new
    stone is on a path joining both edges. *)
Lemma move_step N s r p pos s1 fuel res s2 :
  0 < N -> game_inv N s -> (p = 0 \/ p = 1) ->
  place_piece_randomly r p s = Ok (pos, s1) ->
  winner fuel p pos s1 = Ok (res, s2) ->
  (res = 0 /\ game_inv N s2) \/ (res = 1 /\ win_path N (board s1) p pos).
Proof.
  intros HN (Hwf & Hp0 & Hp1) Hp Epl Ew.
  destruct (place_wf N r p s pos s1 HN Hwf Hp Epl) as (Hwf1 & Hpl & F0 & F1 & Hmv).
  pose proof (place_inv _ _ _ _ _ Epl) as (_ & _ & _ & _ & _ & Hc1 & _ & _ & _ & Hb1 & _).
  apply vset_ok in Hb1 as (_ & _ & Rb & Fb).
  assert (Hpp : pinv N s p) by (destruct Hp as [-> | ->]; assumption).
  assert (Hfree : ~ stone s p pos).
  { unfold stone. destruct Hp as [-> | ->]; [rewrite Z.add_0_r|]; lia. }
  assert (Hst1 : forall c, stone s1 p c <-> stone s p c \/ c = pos).
  { intros c. unfold stone. destruct (Z.eq_dec c pos) as [->|Hne].
    - rewrite Rb. split; [now right|discriminate].
    - rewrite Fb by lia. tauto. }
  assert (Hmk1 : forall q c, marked s1 q c <-> marked s q c)
    by (intros q c; unfold marked; now rewrite Hc1).
  assert (Hunm : ~ marked s1 p pos).
  { intros Hm. apply Hmk1 in Hm. now apply (pi_sound _ _ _ Hpp pos Hpl) in Hm as [A _]. }
  assert (Hch : forall a c, chain N (board s) p a c -> chain N (board s1) p a c).
  { intros a c. apply chain_mono. intros n Hn. apply (Hst1 n). now left. }
  assert (Hsound1 : forall c, playable N c -> marked s1 p c ->
            stone s1 p c /\
            exists c0, playable N c0 /\ first N p c0 /\ stone s1 p c0 /\
                       chain N (board s1) p c0 c).
  { intros c Hc Hm. apply Hmk1 in Hm.
    destruct (pi_sound _ _ _ Hpp c Hc Hm) as (A & c0 & A1 & A2 & A3 & A4).
    split; [apply Hst1; now left|]. exists c0.
    split; [exact A1|]. split; [exact A2|]. split; [apply Hst1; now left|now apply Hch]. }
  assert (Hclosed1 : forall c n, marked s1 p c -> adj N c n -> stone s1 p n ->
            n <> pos -> marked s1 p n).
  { intros c n Hm Ha Hs Hne. apply Hmk1. apply Hmk1 in Hm. apply Hst1 in Hs as [Hs|?]; [|contradiction].
    now apply (pi_closed _ _ _ Hpp c Hm n Ha). }
  (* the other player *)
  assert (Hother : forall q s', (q = 0 \/ q = 1) -> q <> p -> grow p s1 s' ->
            pinv N s q -> pinv N s' q).
  { intros q s' Hq Hne Hg Hq0. apply (pinv_ext N s); [| |exact Hq0].
    - intros c. rewrite (grow_board _ _ _ Hg). apply Fb. lia.
    - intros c. rewrite (grow_other p s1 s' q c Hp Hq Hne Hg). now rewrite Hc1. }
  assert (Hfinish : forall s', grow p s1 s' -> pinv N s' p -> game_inv N s').
  { intros s' Hg Hpi. split; [now apply (grow_wf N p s1)|].
    destruct Hp as [-> | ->]; split; try assumption.
    - apply Hother; auto; lia.
    - apply Hother; auto; lia. }
  destruct (winner_ok N p (S (fuel + zeros (connected s1))) s1 pos HN Hp
              (wf_grid _ _ Hwf1) Hpl ltac:(lia)) as (res' & s2' & Ew' & Hcase).
  apply (winner_mono p fuel (S (fuel + zeros (connected s1)))) in Ew; [|lia].
  rewrite Ew in Ew'. injection Ew' as <- <-.
  destruct Hcase as [((m & Ham & Hmm) & Hpost)|(Hno & -> & ->)].
  2:{ left. split; [reflexivity|]. apply Hfinish; [apply grow_refl|].
      constructor.
      - intros c Hc. rewrite Hmk1. now apply (pi_border _ _ _ Hpp).
      - exact Hsound1.
      - intros c Hm n Ha Hs. destruct (Z.eq_dec n pos) as [->|Hne].
        + exfalso. apply (Hno c); [now apply adj_sym|exact Hm].
        + now apply (Hclosed1 c n).
      - intros c Hm. apply (pi_nogoal _ _ _ Hpp). now apply Hmk1. }
  destruct Hpost as (Hg2 & Hgr & Hmpos & _ & _ & Hs2 & Hres & H0 & H1).
  assert (Hlink : exists c0, playable N c0 /\ first N p c0 /\ stone s1 p c0 /\
                             chain N (board s1) p c0 pos).
  { destruct (playableb N m) eqn:Em.
    - apply playableb_spec in Em.
      destruct (Hsound1 m Em Hmm) as (_ & c0 & A1 & A2 & A3 & A4).
      exists c0. repeat split; try assumption; try apply A1.
      eapply chain_step; [exact A4|now apply adj_sym|].
      apply (Hst1 pos). now right.
    - assert (~ playable N m) as Hnpl
        by (intros H; apply playableb_spec in H; congruence).
      exists pos. split; [exact Hpl|]. split; [|split; [apply Hst1; now right|apply chain_refl]].
      apply (seed_adj_first N p pos m HN Hpl Ham).
      apply (pi_border _ _ _ Hpp m Hnpl). now apply Hmk1. }
  destruct Hres as [-> | ->].
  - left. split; [reflexivity|]. apply Hfinish; [exact Hgr|].
    assert (Hnew : forall c, marked s2 p c -> ~ marked s1 p c ->
              playable N c /\ stone s1 p c /\ chain N (board s1) p pos c).
    { intros c Hm Hn. destruct (Hs2 c Hm) as [?|Hc]; [contradiction|].
      assert (stone s1 p c) as Hsc.
      { destruct (chain_end _ _ _ _ _ Hc) as [->|?]; [apply Hst1; now right|assumption]. }
      split; [now apply (grid_stone_playable N p Hp s1 c (wf_grid _ _ Hwf1))|].
      split; assumption. }
    assert (Hst2 : forall c, stone s2 p c <-> stone s1 p c)
      by (intros c; now apply (grow_stone p s1 s2)).
    constructor.
    + intros c Hc. split.
      * intros Hm. destruct (marked_dec s1 p c) as [Hm1|Hm1].
        -- apply (pi_border _ _ _ Hpp c Hc). now apply Hmk1.
        -- destruct (Hnew c Hm Hm1) as (A & _). contradiction.
      * intros Hsd. apply (grow_marked p s1); [exact Hgr|].
        apply Hmk1. now apply (pi_border _ _ _ Hpp c Hc).
    + intros c Hc Hm. rewrite (grow_board _ _ _ Hgr).
      destruct (marked_dec s1 p c) as [Hm1|Hm1].
      * destruct (Hsound1 c Hc Hm1) as (A & c0 & A1 & A2 & A3 & A4).
        split; [now apply Hst2|]. exists c0.
        split; [exact A1|]. split; [exact A2|]. split; [now apply Hst2|exact A4].
      * destruct (Hnew c Hm Hm1) as (_ & A & B).
        split; [now apply Hst2|].
        destruct Hlink as (c0 & A1 & A2 & A3 & A4). exists c0.
        split; [exact A1|]. split; [exact A2|]. split; [now apply Hst2|].
        eapply chain_trans; eauto.
    + intros c Hm. destruct (marked_dec s1 p c) as [Hm1|Hm1].
      * destruct (Z.eq_dec c pos) as [->|Hne]; [contradiction|].
        intros n Ha Hs. apply Hst2 in Hs.
        destruct (Z.eq_dec n pos) as [->|Hne']; [exact Hmpos|].
        apply (grow_marked p s1); [exact Hgr|]. now apply (Hclosed1 c n).
      * apply (H0 eq_refl c); [now right|exact Hm].
    + intros c Hm. destruct (marked_dec s1 p c) as [Hm1|Hm1].
      * apply (pi_nogoal _ _ _ Hpp). now apply Hmk1.
      * apply (H0 eq_refl c); [now right|exact Hm].
  - right. split; [reflexivity|].
    destruct (H1 eq_refl) as (g & _ & Hgoal & Hcg).
    destruct Hlink as (c0 & A1 & A2 & A3 & A4).
    exists c0, g. repeat split; try assumption; apply A1.
Qed.

(** * The reference: a fresh flood fill over the whole board *)

(** The oracle of the specification's cross-check.  It does not look at
    the connectivity marks or at the offset table: it reads the
    occupancy flags only, takes hex adjacency from row and column, and
    floods from the given position over the player's stones, sweeping
    the whole board until nothing is added.  The placement wins when
    the flooded component touches both of the player's edges. *)

(** Hex adjacency of two cells by row and column: the neighbours of
    (r, c) are (r-1, c+1), (r-1, c), (r, c-1), (r, c+1), (r+1, c) and
    (r+1, c-1). *)
Definition hex_adjacent (N a c : Z) : bool :=
  let dr := row N c - row N a in
  let dc := col N c - col N a in
  ((dr =? -1) && ((dc =? 1) || (dc =? 0))) ||
  ((dr =? 0) && ((dc =? -1) || (dc =? 1))) ||
  ((dr =? 1) && ((dc =? 0) || (dc =? -1))).

(** A playable cell holding a stone of [p]. *)
Definition ref_stone (N : Z) (b : list Z) (p c : Z) : bool :=
  playableb N c && negb (rd b (c * 2 + p) =? 0).

Definition all_cells (N : Z) : list Z := zseq (Z.to_nat ((N + 2) * (N + 2))).

Definition memb (c : Z) (R : list Z) : bool := existsb (Z.eqb c) R.

(** The stones of [p] not yet in [R] that touch a cell of [R]. *)
Definition fringe (N : Z) (b : list Z) (p : Z) (R : list Z) : list Z :=
  List.filter
    (fun c => ref_stone N b p c && negb (memb c R) &&
              existsb (fun a => hex_adjacent N a c) R)
    (all_cells N).

Definition sweep (N : Z) (b : list Z) (p : Z) (R : list Z) : list Z :=
  R ++ fringe N b p R.

Fixpoint flood (N : Z) (b : list Z) (p : Z) (k : nat) (R : list Z) : list Z :=
  match k with
  | O => R
  | S k' => flood N b p k' (sweep N b p R)
  end.

(** The stones of [p] connected to [pos]: as many sweeps as the grid
    has cells. *)
Definition component (N : Z) (b : list Z) (p pos : Z) : list Z :=
  flood N b p (length (all_cells N)) [pos].

Definition reference_win (N : Z) (b : list Z) (p pos : Z) : bool :=
  existsb (firstb N p) (component N b p pos) &&
  existsb (goalb N p) (component N b p pos).

Section Reference.

Variables N p : Z.
Variable b : list Z.
Hypothesis HN : 0 < N.
Hypothesis Hp : p = 0 \/ p = 1.

Lemma hex_adjacent_adj a c :
  playable N a -> playable N c -> (hex_adjacent N a c = true <-> adj N a c).
Proof.
  intros Ha Hc.
  destruct (playable_inv N a HN Ha) as (i & j & Hi & Hj & ->).
  destruct (playable_inv N c HN Hc) as (i' & j' & Hi' & Hj' & ->).
  unfold hex_adjacent. rewrite !row_cell, !col_cell by lia.
  rewrite adj_cell.
  rewrite !orb_true_iff, !andb_true_iff, !orb_true_iff, !Z.eqb_eq.
  split.
  - intros H. assert (Hc' :
      (i' = i - 1 /\ j' = j + 1) \/ (i' = i - 1 /\ j' = j) \/
      (i' = i /\ j' = j - 1) \/ (i' = i /\ j' = j + 1) \/
      (i' = i + 1 /\ j' = j) \/ (i' = i + 1 /\ j' = j - 1)) by lia.
    destruct Hc' as [[-> ->]|[[-> ->]|[[-> ->]|[[-> ->]|[[-> ->]|[-> ->]]]]]]; tauto.
  - intros [H|[H|[H|[H|[H|H]]]]]; apply cell_inj in H; lia.
Qed.

Lemma ref_stone_spec c :
  ref_stone N b p c = true <-> playable N c /\ rd b (c * 2 + p) <> 0.
Proof.
  unfold ref_stone. rewrite andb_true_iff, negb_true_iff, Z.eqb_neq.
  now rewrite playableb_spec.
Qed.

Lemma memb_spec c R : memb c R = true <-> In c R.
Proof.
  unfold memb. rewrite existsb_exists. split.
  - intros (x & Hx & E). apply Z.eqb_eq in E. now subst.
  - intros H. exists c. split; [exact H|apply Z.eqb_refl].
Qed.

Lemma In_all_cells c : In c (all_cells N) <-> 0 <= c < (N + 2) * (N + 2).
Proof. unfold all_cells. rewrite In_zseq. lia. Qed.

Lemma In_fringe R c :
  In c (fringe N b p R) <->
  ref_stone N b p c = true /\ ~ In c R /\
  exists a, In a R /\ hex_adjacent N a c = true.
Proof.
  unfold fringe. rewrite filter_In, !andb_true_iff, negb_true_iff, existsb_exists.
  rewrite In_all_cells, <- memb_spec. split.
  - intros (_ & (A & B) & C). repeat split; [exact A|congruence|exact C].
  - intros (A & B & C). split; [|repeat split; [exact A| |exact C]].
    + apply ref_stone_spec in A as [A _]. now apply playable_range.
    + destruct (memb c R); [now contradiction B|reflexivity].
Qed.

(** Soundness: everything the flood collects is linked to [pos]. *)
Lemma flood_sound pos :
  playable N pos ->
  forall k R,
    (forall a, In a R -> playable N a /\ chain N b p pos a) ->
    forall c, In c (flood N b p k R) -> playable N c /\ chain N b p pos c.
Proof.
  intros Hpos. induction k as [|k IH]; intros R HR c Hc; [now apply HR|].
  simpl in Hc. apply (IH (sweep N b p R)); [|exact Hc].
  intros a Ha. unfold sweep in Ha. apply in_app_iff in Ha as [Ha|Ha]; [now apply HR|].
  apply In_fringe in Ha as (Hs & _ & a0 & Ha0 & Hadj).
  apply ref_stone_spec in Hs as [Hpl Hs].
  destruct (HR a0 Ha0) as [Hpl0 Hch]. split; [exact Hpl|].
  eapply chain_step; [exact Hch| |exact Hs].
  now apply hex_adjacent_adj.
Qed.

Lemma filter_nil (f : Z -> bool) l :
  (forall x, In x l -> f x = false) -> List.filter f l = [].
Proof.
  induction l as [|x l IH]; intros H; [reflexivity|].
  simpl. rewrite (H x) by now left. apply IH. intros y Hy. apply H. now right.
Qed.

Lemma fringe_nil_flood k : forall R, fringe N b p R = [] -> flood N b p k R = R.
Proof.
  induction k as [|k IH]; intros R H; [reflexivity|].
  simpl. unfold sweep. rewrite H, app_nil_r. now apply IH.
Qed.

(** Sweeping as often as there are cells reaches the fixed point. *)
Lemma flood_fixed :
  forall k R,
    List.NoDup R -> incl R (all_cells N) ->
    (length (all_cells N) <= length R + k)%nat ->
    fringe N b p (flood N b p k R) = [].
Proof.
  induction k as [|k IH]; intros R Hnd Hin Hlen.
  - simpl. apply filter_nil. intros c Hc.
    assert (In c R) as HcR.
    { apply (@List.NoDup_length_incl Z R (all_cells N) Hnd); [lia|exact Hin|exact Hc]. }
    apply memb_spec in HcR. rewrite HcR. simpl. now rewrite andb_false_r.
  - destruct (fringe N b p R) as [|x l] eqn:E.
    + rewrite fringe_nil_flood by exact E. exact E.
    + simpl. apply IH.
      * unfold sweep. apply List.NoDup_app; [exact Hnd| |].
        -- unfold fringe. apply List.NoDup_filter, NoDup_zseq.
        -- intros a Ha Hf. apply In_fringe in Hf as (_ & Hn & _). contradiction.
      * unfold sweep. intros a Ha. apply in_app_iff in Ha as [Ha|Ha]; [now apply Hin|].
        unfold fringe in Ha. now apply filter_In in Ha as [Ha _].
      * unfold sweep. rewrite length_app, E. simpl. lia.
Qed.

Lemma flood_incl k : forall R c, In c R -> In c (flood N b p k R).
Proof.
  induction k as [|k IH]; intros R c H; [exact H|].
  simpl. apply IH. unfold sweep. apply in_app_iff. now left.
Qed.

(** Completeness: everything linked to [pos] is in its component. *)
Lemma component_complete pos c :
  playable N pos ->
  (forall n, rd b (n * 2 + p) <> 0 -> playable N n) ->
  chain N b p pos c -> In c (component N b p pos).
Proof.
  intros Hpos Hst Hc. unfold component.
  assert (Hfix : fringe N b p (flood N b p (length (all_cells N)) [pos]) = []).
  { apply flood_fixed.
    - constructor; [intros []|constructor].
    - intros a [<-|[]]. apply In_all_cells. now apply playable_range.
    - simpl. lia. }
  induction Hc as [|c n Hc IH Ha Hs].
  - apply flood_incl. now left.
  - set (R := flood N b p (length (all_cells N)) [pos]) in *.
    destruct (memb n R) eqn:En; [now apply memb_spec|].
    exfalso. assert (In n (fringe N b p R)) as Hf.
    { apply In_fringe. split; [apply ref_stone_spec; split; [now apply Hst|exact Hs]|].
      split; [intros H; apply memb_spec in H; congruence|].
      exists c. split; [exact IH|].
      apply hex_adjacent_adj; [|now apply Hst|exact Ha].
      apply (flood_sound pos Hpos (length (all_cells N)) [pos]); [|exact IH].
      intros a [<-|[]]. split; [exact Hpos|apply chain_refl]. }
    rewrite Hfix in Hf. destruct Hf.
Qed.

Lemma component_sound pos c :
  playable N pos -> In c (component N b p pos) ->
  playable N c /\ chain N b p pos c.
Proof.
  intros Hpos Hc.
  apply (flood_sound pos Hpos (length (all_cells N)) [pos]); [|exact Hc].
  intros a [<-|[]]. split; [exact Hpos|apply chain_refl].
Qed.

(** Among stones, being linked is symmetric. *)
Lemma chain_sym a c :
  rd b (a * 2 + p) <> 0 -> chain N b p a c -> chain N b p c a.
Proof.
  intros Ha Hc. induction Hc as [|c n Hc IH Hadj Hs]; [apply chain_refl|].
  apply (chain_trans N b p n c a); [|exact IH].
  apply chain_one; [now apply adj_sym|].
  destruct (chain_end _ _ _ _ _ Hc) as [->|?]; assumption.
Qed.

Lemma goalb_spec c : goalb N p c = true <-> goal N p c.
Proof.
  unfold goalb, goal.
  rewrite orb_true_iff, !andb_true_iff, !Z.eqb_eq. tauto.
Qed.

Lemma firstb_spec c : firstb N p c = true <-> first N p c.
Proof.
  unfold firstb, first.
  rewrite orb_true_iff, !andb_true_iff, !Z.eqb_eq. tauto.
Qed.

(** The reference decides [win_path]. *)
Lemma reference_win_spec pos :
  playable N pos -> rd b (pos * 2 + p) <> 0 ->
  (forall n, rd b (n * 2 + p) <> 0 -> playable N n) ->
  (reference_win N b p pos = true <-> win_path N b p pos).
Proof.
  intros Hpos Hsp Hst. unfold reference_win, win_path.
  rewrite andb_true_iff, !existsb_exists. split.
  - intros [(c0 & Hc0 & Hf) (g & Hg & Hgo)].
    apply component_sound in Hc0 as [Hpl0 Hch0]; [|exact Hpos].
    apply component_sound in Hg as [_ Hchg]; [|exact Hpos].
    exists c0, g. split; [exact Hpl0|]. split; [now apply firstb_spec|].
    assert (rd b (c0 * 2 + p) <> 0) as Hs0
      by (destruct (chain_end _ _ _ _ _ Hch0) as [->|?]; assumption).
    split; [exact Hs0|]. split; [now apply chain_sym|].
    split; [exact Hchg|now apply goalb_spec].
  - intros (c0 & g & Hpl0 & Hf & Hs0 & Hch0 & Hchg & Hgo). split.
    + exists c0. split; [|now apply firstb_spec].
      apply component_complete; [exact Hpos|exact Hst|now apply chain_sym].
    + exists g. split; [|now apply goalb_spec].
      now apply component_complete.
Qed.

End Reference.

(** * The states of a game in progress *)

(** The protocol of the drivers: [init] (or the constructor), then
    [place_piece_randomly] followed by [winner] on the returned
    position, for as long as [winner] returns 0. *)
Inductive playing (N : Z) : HexGame -> Prop :=
| playing_new s :
    HexGame_new N = Ok s -> playing N s
| playing_init s s' :
    reach N s -> init s = Ok s' -> playing N s'
| playing_move s r p pos s1 fuel s2 :
    playing N s -> (p = 0 \/ p = 1) ->
    place_piece_randomly r p s = Ok (pos, s1) ->
    winner fuel p pos s1 = Ok (0, s2) ->
    playing N s2.

Lemma playing_reach N s : playing N s -> reach N s.
Proof.
  induction 1 as [s E|s s' H E|s r p pos s1 fuel s2 H IH Hp E1 E2].
  - now apply reach_new.
  - eapply reach_init; eauto.
  - eapply reach_winner; [|exact E2]. eapply reach_place; eauto.
Qed.

Lemma playing_game_inv N s : 0 < N -> playing N s -> game_inv N s.
Proof.
  intros HN. induction 1 as [s E|s s' H E|s r p pos s1 fuel s2 H IH Hp E1 E2].
  - destruct (HexGame_new_ok N HN) as (s2 & E2 & Hf).
    rewrite E2 in E. injection E as <-. now apply fresh_game_inv.
  - apply fresh_game_inv; [exact HN|].
    now apply (init_wf N s s' HN (reach_wf N s HN H)).
  - destruct (move_step N s r p pos s1 fuel 0 s2 HN IH Hp E1 E2)
      as [[_ A]|[A _]]; [exact A|discriminate].
Qed.

(** While the invariant holds no stone of [p] is on a path joining
    [p]'s two edges. *)
Lemma pinv_no_win_path N s p pos :
  0 < N -> (p = 0 \/ p = 1) -> pinv N s p -> ~ win_path N (board s) p pos.
Proof.
  intros HN Hp Hpi (c0 & g & Hpl0 & Hf & Hs0 & Hch0 & Hchg & Hgo).
  destruct (first_adj_seed N p c0 HN Hp Hpl0 Hf) as (m & Ham & Hsm).
  assert (Hm : marked s p m).
  { apply (pi_border _ _ _ Hpi m); [now apply (seed_not_playable N p)|exact Hsm]. }
  assert (Hm0 : marked s p c0).
  { apply (pi_closed _ _ _ Hpi m Hm c0); [now apply adj_sym|exact Hs0]. }
  assert (Hall : forall a c, marked s p a -> chain N (board s) p a c -> marked s p c).
  { intros a c Ha Hc. induction Hc as [|c n Hc IH Hadj Hs]; [exact Ha|].
    now apply (pi_closed _ _ _ Hpi c IH n). }
  apply (pi_nogoal _ _ _ Hpi g); [|exact Hgo].
  apply (Hall pos); [|exact Hchg]. now apply (Hall c0).
Qed.

(** With no marked neighbour [winner] returns 0 before any call of
    [connect]: it does so even with no fuel at all. *)
Lemma winner_no_neighbor N p s pos fuel :
  0 < N -> (p = 0 \/ p = 1) -> grid N s -> playable N pos ->
  (forall n, adj N pos n -> ~ marked s p n) ->
  winner fuel p pos s = Ok (0, s).
Proof.
  intros HN Hp ((HD & Lb & Lc & Lo & Hnb) & _ & _) Hpl Hno. unfold winner.
  assert (H : forall k i, Z.of_nat k + i = 6 -> 0 <= i ->
            winner_loop fuel p pos k i s = Ok (0, s)).
  { induction k as [|k IH]; intros i Hk Hi; [reflexivity|].
    simpl winner_loop. rewrite Hnb, (vget_offsets N) by lia. simpl bind.
    assert (Ha : adj N pos (pos + rd (offsets N) i))
      by (apply adj_offset; exists i; split; [lia|reflexivity]).
    pose proof (adj_range N pos _ HN Hpl Ha) as Hn.
    rewrite (vget_in (connected s)) by (rewrite Lc; lia). simpl bind.
    destruct (Z.eqb_spec (rd (connected s) ((pos + rd (offsets N) i) * 2 + p)) 0)
      as [A|A]; [apply IH; lia|].
    exfalso. now apply (Hno _ Ha). }
  apply H; lia.
Qed.

(** * The 3x3 scenario of the specification *)

(** X at (0,0), O at (1,1), X at (1,0), O at (0,1), and then X at (2,0):
    the values of [rand()] are chosen so that the swap-remove array
    hands out these cells. *)
Definition state_after {A : Type} (m : outcome (A * HexGame)) : HexGame :=
  value_of no_game (let* (_, s) := m in Ok s).

Definition game3 : HexGame := Eval vm_compute in value_of no_game (HexGame_new 3).

Definition game3_x00 : HexGame :=
  Eval vm_compute in state_after (place_piece_randomly 0 0 game3).
Definition game3_1 : HexGame :=
  Eval vm_compute in state_after (winner 51 0 6 game3_x00).
Definition game3_o11 : HexGame :=
  Eval vm_compute in state_after (place_piece_randomly 4 1 game3_1).
Definition game3_2 : HexGame :=
  Eval vm_compute in state_after (winner 51 1 12 game3_o11).
Definition game3_x10 : HexGame :=
  Eval vm_compute in state_after (place_piece_randomly 3 0 game3_2).
Definition game3_3 : HexGame :=
  Eval vm_compute in state_after (winner 51 0 11 game3_x10).
Definition game3_o01 : HexGame :=
  Eval vm_compute in state_after (place_piece_randomly 1 1 game3_3).
Definition game3_4 : HexGame :=
  Eval vm_compute in state_after (winner 51 1 7 game3_o01).
Definition game3_x20 : HexGame :=
  Eval vm_compute in state_after (place_piece_randomly 3 0 game3_4).

Lemma playing_game3_4 : playing 3 game3_4.
Proof.
  apply (playing_move 3 game3_3 1 1 7 game3_o01 51);
    [|now right|reflexivity|vm_compute; reflexivity].
  apply (playing_move 3 game3_2 3 0 11 game3_x10 51);
    [|now left|reflexivity|vm_compute; reflexivity].
  apply (playing_move 3 game3_1 4 1 12 game3_o11 51);
    [|now right|reflexivity|vm_compute; reflexivity].
  apply (playing_move 3 game3 0 0 6 game3_x00 51);
    [|now left|reflexivity|vm_compute; reflexivity].
  apply playing_new. reflexivity.
Qed.

(** The scenario's outcome: the fifth stone completes X's column and
    [winner(X, (2,0))] returns 1, as the reference does. *)
Example scenario_3x3 :
  place_piece_randomly 3 0 game3_4 = Ok (16, game3_x20) /\
  board_to_coord game3_x20 = Ok [1; -1; 0; 1; -1; 0; 1; 0; 0] /\
  (exists s, winner 51 0 16 game3_x20 = Ok (1, s)) /\
  reference_win 3 (board game3_x20) 0 16 = true.
Proof.
  split; [reflexivity|]. split; [vm_compute; reflexivity|].
  split; [eexists; vm_compute; reflexivity|vm_compute; reflexivity].
Qed.

(** One move earlier X holds (0,0) and (1,0) only: no win yet, for the
    engine and for the reference. *)
Example scenario_3x3_before :
  winner 51 0 11 game3_x10 = Ok (0, game3_3) /\
  reference_win 3 (board game3_x10) 0 11 = false.
Proof. split; vm_compute; reflexivity. Qed.

(** The protocol matters: when the [winner] call after a placement is
    skipped, the marks fall behind the board.  On a 2x2 board X plays
    (0,0) with no [winner] call and then (1,0): the two stones join
    X's edges and the reference says so, but [winner] finds no marked
    neighbour and returns 0. *)
Definition game2_skipped : HexGame :=
  Eval vm_compute in state_after (place_piece_randomly 2 0 game2_one_move).

Example skipped_check_disagrees :
  place_piece_randomly 2 0 game2_one_move = Ok (9, game2_skipped) /\
  winner 33 0 9 game2_skipped = Ok (0, game2_skipped) /\
  reference_win 2 (board game2_skipped) 0 9 = true.
Proof.
  split; [reflexivity|]. split; vm_compute; reflexivity.
Qed.

(** The 5x5 scenario of the specification: three moves, then
    [remove_last_n_moves(3)]: no error, the history is empty and the
    board is empty again. *)
Example scenario_5x5_undo :
  exists s0 p1 s1 p2 s2 p3 s3 removed s4,
    HexGame_new 5 = Ok s0 /\
    place_piece_randomly 7 0 s0 = Ok (p1, s1) /\
    place_piece_randomly 7 1 s1 = Ok (p2, s2) /\
    place_piece_randomly 7 0 s2 = Ok (p3, s3) /\
    remove_last_n_moves 3 s3 = Ok (removed, s4) /\
    moves s4 = [] /\
    board_to_coord s4 = Ok (replicate 25 0).
Proof.
  do 9 eexists.
  split; [vm_compute; reflexivity|]. split; [vm_compute; reflexivity|].
  split; [vm_compute; reflexivity|]. split; [vm_compute; reflexivity|].
  split; [vm_compute; reflexivity|]. split; vm_compute; reflexivity.
Qed.

(** * The properties of the specification *)

(** C1: in every state of a game in progress, for either player and any
    value of [rand()], with an open cell left: [place_piece_randomly]
    places the stone, and [winner] on the returned position returns
    (given fuel above the size of the mark vector) 1 exactly when the
    stone is on a path of the player's stones joining the player's two
    edges, which is exactly when the reference flood fill over the
    whole board says so, and 0 otherwise; when no neighbour of the
    position carries the player's mark it returns 0 on an unchanged
    state without a single call of [connect] (no fuel is needed). *)
Theorem winner_agrees_with_reference N s r p :
  0 < N -> playing N s -> (p = 0 \/ p = 1) -> 0 <= r ->
  0 < number_of_open_positions s ->
  exists pos s1,
    place_piece_randomly r p s = Ok (pos, s1) /\
    ((forall n, adj N pos n -> ~ marked s1 p n) ->
       winner 0 p pos s1 = Ok (0, s1)) /\
    forall fuel, (length (connected s1) < fuel)%nat ->
      exists res s2,
        winner fuel p pos s1 = Ok (res, s2) /\
        (res = 0 \/ res = 1) /\
        (res = 1 <-> win_path N (board s1) p pos) /\
        (res = 1 <-> reference_win N (board s1) p pos = true) /\
        ((forall n, adj N pos n -> ~ marked s1 p n) -> res = 0 /\ s2 = s1).
Proof.
  intros HN Hpl Hp Hr Hn.
  pose proof (playing_game_inv N s HN Hpl) as Hinv.
  pose proof Hinv as (Hwf & _).
  destruct (place_progress N r p s HN Hwf Hp Hn) as (s1 & E1 & _).
  { apply Z.rem_nonneg; lia. }
  set (pos := rd (open_positions s) (Z.rem r (number_of_open_positions s))) in *.
  destruct (place_wf N r p s pos s1 HN Hwf Hp E1) as (Hwf1 & Hpos & _ & _ & _).
  pose proof (wf_grid _ _ Hwf1) as Hg1.
  assert (Hstone : rd (board s1) (pos * 2 + p) <> 0).
  { pose proof (place_inv _ _ _ _ _ E1) as (_ & _ & _ & _ & _ & _ & _ & _ & _ & Hb & _).
    apply vset_ok in Hb as (_ & _ & -> & _). discriminate. }
  assert (Href : reference_win N (board s1) p pos = true <->
                 win_path N (board s1) p pos).
  { apply reference_win_spec; try assumption.
    intros n Hs. now apply (grid_stone_playable N p Hp s1 n Hg1). }
  exists pos, s1. split; [exact E1|]. split.
  { intros Hno. now apply (winner_no_neighbor N). }
  intros fuel Hf.
  destruct (winner_ok N p fuel s1 pos HN Hp Hg1 Hpos) as (res & s2 & E2 & Hcase).
  { pose proof (zeros_le_length (connected s1)). lia. }
  exists res, s2. split; [exact E2|].
  assert (Hno : (forall n, adj N pos n -> ~ marked s1 p n) -> res = 0 /\ s2 = s1).
  { intros Hno. destruct Hcase as [((m & Ha & Hm) & _)|(_ & -> & ->)]; [|now split].
    exfalso. now apply (Hno m). }
  destruct (move_step N s r p pos s1 fuel res s2 HN Hinv Hp E1 E2)
    as [[-> (_ & Hp0 & Hp1)]|[-> Hwin]].
  - assert (Hnw : ~ win_path N (board s1) p pos).
    { assert (board s2 = board s1) as <-.
      { apply (grow_board p). eapply winner_frame; [exact (wf_conn_vals _ _ Hwf1)|exact E2]. }
      apply pinv_no_win_path; [exact HN|exact Hp|].
      destruct Hp as [-> | ->]; assumption. }
    split; [now left|]. split; [split; [discriminate|contradiction]|].
    split; [|exact Hno]. split; [discriminate|].
    intros H. apply Href in H. contradiction.
  - split; [now right|]. split; [tauto|]. split; [|exact Hno].
    split; [intros _; now apply Href|reflexivity].
Qed.

Lemma winner_agrees_with_reference_witness :
  (0 < 3 /\ playing 3 game3_4 /\ (0 = 0 \/ 0 = 1) /\ 0 <= 3 /\
   0 < number_of_open_positions game3_4) /\
  exists pos s1,
    place_piece_randomly 3 0 game3_4 = Ok (pos, s1) /\
    ((forall n, adj 3 pos n -> ~ marked s1 0 n) ->
       winner 0 0 pos s1 = Ok (0, s1)) /\
    forall fuel, (length (connected s1) < fuel)%nat ->
      exists res s2,
        winner fuel 0 pos s1 = Ok (res, s2) /\
        (res = 0 \/ res = 1) /\
        (res = 1 <-> win_path 3 (board s1) 0 pos) /\
        (res = 1 <-> reference_win 3 (board s1) 0 pos = true) /\
        ((forall n, adj 3 pos n -> ~ marked s1 0 n) -> res = 0 /\ s2 = s1).
Proof.
  split.
  - split; [lia|]. split; [exact playing_game3_4|]. split; [now left|].
    split; [lia|reflexivity].
  - apply (winner_agrees_with_reference 3 game3_4 3 0);
      [lia|exact playing_game3_4|now left|lia|reflexivity].
Defined.


(** C2, as the code has it: [place_piece_randomly] checks nothing.  On a
    reachable state with no open cell it computes [rand() % 0], which
    is undefined behaviour and not an ExhaustedBoard condition; with at
    least one open cell, a player in {0,1} and a non-negative [rand()]
    it returns normally. *)
Theorem place_piece_randomly_unchecked N r p s :
  0 < N -> reach N s -> (p = 0 \/ p = 1) -> 0 <= r ->
  (number_of_open_positions s = 0 ->
     place_piece_randomly r p s = Undefined DivisionByZero) /\
  (0 < number_of_open_positions s ->
     exists pos s', place_piece_randomly r p s = Ok (pos, s')).
Proof.
  intros HN Hr Hp Hr0. pose proof (reach_wf N s HN Hr) as Hwf. split.
  - intros E. unfold place_piece_randomly, crem. now rewrite E.
  - intros Hn.
    destruct (place_progress N r p s HN Hwf Hp Hn) as (s' & E & _).
    + apply Z.rem_nonneg; lia.
    + eauto.
Qed.

Lemma place_piece_randomly_unchecked_witness :
  (0 < 1 /\ reach 1 game1_full /\ (1 = 0 \/ 1 = 1) /\ 0 <= 7) /\
  (number_of_open_positions game1_full = 0 ->
     place_piece_randomly 7 1 game1_full = Undefined DivisionByZero) /\
  (0 < number_of_open_positions game1_full ->
     exists pos s', place_piece_randomly 7 1 game1_full = Ok (pos, s')).
Proof.
  split.
  - split; [lia|]. split; [exact reach_game1_full|]. split; [now right|lia].
  - apply (place_piece_randomly_unchecked 1 7 1 game1_full);
      [lia|exact reach_game1_full|now right|lia].
Defined.

(** C2 as stated fails: on the full 1x1 board the call does not end in
    an ExhaustedBoard condition, it divides by zero. *)
Lemma place_piece_randomly_no_ExhaustedBoard :
  full_board game1_full = true /\
  place_piece_randomly 0 1 game1_full = Undefined DivisionByZero /\
  place_piece_randomly 0 1 game1_full <> Throws ExhaustedBoard.
Proof. split; [reflexivity|]. split; [reflexivity|discriminate]. Qed.

(** C3, as the code has it: [remove_last_n_moves] checks nothing.  With
    [n] above the history length it reaches [moves.back()] on an empty
    vector, which is undefined behaviour and not an InsufficientHistory
    condition; for every [n] up to the history length, the length
    itself included, it returns normally and leaves a history shorter
    by [n]. *)
Theorem remove_last_n_moves_unchecked N n s :
  0 < N -> reach N s ->
  (Z.of_nat (length (moves s)) < n ->
     remove_last_n_moves n s = Undefined BackOfEmpty) /\
  (n <= Z.of_nat (length (moves s)) ->
     exists removed s',
       remove_last_n_moves n s = Ok (removed, s') /\
       length (moves s') = (length (moves s) - Z.to_nat n)%nat).
Proof.
  intros HN Hr. pose proof (reach_wf N s HN Hr) as Hwf. split.
  - intros Hn. now apply (remove_last_n_moves_fail N).
  - intros Hn.
    destruct (remove_last_n_moves_ok N n s HN Hwf Hn) as (s' & E & _ & _ & Hm).
    eexists _, s'. split; [exact E|]. rewrite Hm, length_take. lia.
Qed.

Lemma remove_last_n_moves_unchecked_witness :
  (0 < 2 /\ reach 2 game2_two_moves) /\
  (Z.of_nat (length (moves game2_two_moves)) < 2 ->
     remove_last_n_moves 2 game2_two_moves = Undefined BackOfEmpty) /\
  (2 <= Z.of_nat (length (moves game2_two_moves)) ->
     exists removed s',
       remove_last_n_moves 2 game2_two_moves = Ok (removed, s') /\
       length (moves s') = (length (moves game2_two_moves) - Z.to_nat 2)%nat).
Proof.
  split.
  - split; [lia|exact reach_game2_two_moves].
  - apply (remove_last_n_moves_unchecked 2 2 game2_two_moves);
      [lia|exact reach_game2_two_moves].
Defined.

(** C3 as stated fails: undoing one move on a fresh 2x2 board does not
    end in an InsufficientHistory condition. *)
Lemma remove_last_n_moves_no_InsufficientHistory :
  Z.of_nat (length (moves game2)) < 1 /\
  remove_last_n_moves 1 game2 = Undefined BackOfEmpty /\
  remove_last_n_moves 1 game2 <> Throws InsufficientHistory.
Proof. split; [simpl; lia|]. split; [reflexivity|discriminate]. Qed.

(** C4, as the code has it: the returned vector holds exactly the [n]
    removed logical positions, most recently played first, that is in
    the reverse of the order they were played. *)
Theorem remove_last_n_moves_newest_first N n s removed s' :
  0 < N -> reach N s -> 0 <= n <= Z.of_nat (length (moves s)) ->
  remove_last_n_moves n s = Ok (removed, s') ->
  length removed = Z.to_nat n /\
  moves s = moves s' ++ rev removed /\
  removed = rev (drop (length (moves s) - Z.to_nat n) (moves s)).
Proof.
  intros HN Hr Hn E. pose proof (reach_wf N s HN Hr) as Hwf.
  destruct (undo_connected N n s removed s' HN Hwf E) as (_ & -> & _ & _ & ->).
  rewrite length_rev, length_drop, rev_involutive, take_drop.
  repeat split. lia.
Qed.

Lemma remove_last_n_moves_newest_first_witness :
  (0 < 2 /\ reach 2 game2_two_moves /\
   0 <= 2 <= Z.of_nat (length (moves game2_two_moves)) /\
   remove_last_n_moves 2 game2_two_moves = Ok ([3; 0], game2_undone)) /\
  length [3; 0] = Z.to_nat 2 /\
  moves game2_two_moves = moves game2_undone ++ rev [3; 0] /\
  [3; 0] = rev (drop (length (moves game2_two_moves) - Z.to_nat 2)
                     (moves game2_two_moves)).
Proof.
  assert (H : remove_last_n_moves 2 game2_two_moves = Ok ([3; 0], game2_undone)).
  { vm_compute. reflexivity. }
  split.
  - split; [lia|]. split; [exact reach_game2_two_moves|]. split; [simpl; lia|exact H].
  - apply (remove_last_n_moves_newest_first 2 2 game2_two_moves [3; 0] game2_undone);
      [lia|exact reach_game2_two_moves|simpl; lia|exact H].
Defined.

(** C4 as stated fails: on the 2x2 board where logical cell 0 and then
    logical cell 3 were played, undoing both returns [3; 0], not the
    play order [0; 3]. *)
Lemma remove_last_n_moves_not_play_order :
  moves game2_two_moves = [0; 3] /\
  remove_last_n_moves 2 game2_two_moves = Ok ([3; 0], game2_undone) /\
  [3; 0] <> drop (length (moves game2_two_moves) - 2) (moves game2_two_moves).
Proof.
  split; [reflexivity|]. split; [vm_compute; reflexivity|]. simpl. discriminate.
Qed.

(** C5, as the code has it: with an open cell, [place_piece_randomly]
    returns the padded index of the cell it occupied, a playable cell
    whose flag for [p] it has set; what it appends to the history is
    the logical index of that cell, [(row - 1) * N + (col - 1)], from
    which the returned padded index is recovered by [padded]. *)
Theorem place_piece_randomly_returns_padded N r p s :
  0 < N -> reach N s -> (p = 0 \/ p = 1) -> 0 <= r ->
  0 < number_of_open_positions s ->
  exists pos s',
    place_piece_randomly r p s = Ok (pos, s') /\
    playable N pos /\
    rd (board s) (pos * 2 + p) = 0 /\
    rd (board s') (pos * 2 + p) = 1 /\
    moves s' = moves s ++ [logical N pos] /\
    0 <= logical N pos < N * N /\
    pos = padded N (logical N pos).
Proof.
  intros HN Hr Hp Hr0 Hn. pose proof (reach_wf N s HN Hr) as Hwf.
  destruct (place_progress N r p s HN Hwf Hp Hn) as (s' & E & _).
  { apply Z.rem_nonneg; lia. }
  destruct (place_wf N r p s _ s' HN Hwf Hp E) as (_ & Hpl & F0 & F1 & Hmv).
  pose proof (place_inv _ _ _ _ _ E) as (_ & _ & _ & _ & _ & _ & _ & _ & _ & Hb & _).
  apply vset_ok in Hb as (_ & _ & Hb & _).
  eexists _, s'. split; [exact E|]. split; [exact Hpl|].
  split; [destruct Hp as [-> | ->]; [now rewrite Z.add_0_r|assumption]|].
  split; [exact Hb|]. split; [exact Hmv|].
  split; [now apply logical_range|]. now rewrite padded_logical.
Qed.

Lemma place_piece_randomly_returns_padded_witness :
  (0 < 2 /\ reach 2 game2 /\ (0 = 0 \/ 0 = 1) /\ 0 <= 0 /\
   0 < number_of_open_positions game2) /\
  exists pos s',
    place_piece_randomly 0 0 game2 = Ok (pos, s') /\
    playable 2 pos /\
    rd (board game2) (pos * 2 + 0) = 0 /\
    rd (board s') (pos * 2 + 0) = 1 /\
    moves s' = moves game2 ++ [logical 2 pos] /\
    0 <= logical 2 pos < 2 * 2 /\
    pos = padded 2 (logical 2 pos).
Proof.
  split.
  - split; [lia|]. split; [exact reach_game2|]. split; [now left|].
    split; [lia|reflexivity].
  - apply (place_piece_randomly_returns_padded 2 0 0 game2);
      [lia|exact reach_game2|now left|lia|reflexivity].
Defined.

(** C5 as stated fails: the first move on a fresh 2x2 board returns 5,
    the padded index of the cell, while the logical position it appends
    to the history is 0. *)
Lemma place_piece_randomly_not_logical :
  place_piece_randomly 0 0 game2 = Ok (5, game2_one_move) /\
  moves game2_one_move = moves game2 ++ [0] /\
  5 <> 0.
Proof. split; [reflexivity|]. split; [reflexivity|discriminate]. Qed.

(** C6, as the code has it: the number of open positions plus the
    length of the move history is [N * N] minus the number of moves
    undone since the last [init]; it is [N * N] after construction,
    after every [init] and after every [place_piece_randomly] and
    [winner] that follow, and every [remove_last_n_moves(n)] lowers it
    by [n], since undone cells are not reopened. *)
Theorem open_plus_history N u s :
  0 < N -> reach_undone N u s ->
  0 <= u /\
  number_of_open_positions s + Z.of_nat (length (moves s)) = N * N - u.
Proof.
  intros HN H. induction H as
    [s E|u s s' H IH E|u s r p pos s' H IH Hp E|u s fuel p pos res s' H IH E
    |u s n removed s' H IH E].
  - destruct (HexGame_new_ok N HN) as (s2 & E2 & _ & _ & Hn & Hm).
    rewrite E2 in E. injection E as <-. rewrite Hn, Hm. simpl. lia.
  - pose proof (reach_wf N s HN (reach_undone_reach N u s H)) as Hwf.
    destruct (init_wf N s s' HN Hwf E) as (_ & _ & _ & Hn & Hm).
    rewrite Hn, Hm. simpl. lia.
  - apply place_inv in E as (_ & _ & _ & _ & _ & _ & _ & Hn & Hm & _).
    rewrite Hn, Hm, length_app. simpl. lia.
  - pose proof (reach_wf N s HN (reach_undone_reach N u s H)) as Hwf.
    apply winner_frame in E as [(-> & _) _]; [|exact (wf_conn_vals _ _ Hwf)].
    exact IH.
  - pose proof (reach_wf N s HN (reach_undone_reach N u s H)) as Hwf.
    apply (undo_connected N) in E as (Hn & _ & _ & (_ & _ & Ho & _) & Hm);
      try assumption.
    rewrite Ho, Hm, length_take. lia.
Qed.

Lemma open_plus_history_witness :
  (0 < 2 /\ reach_undone 2 (0 + Z.max 0 2) game2_undone) /\
  0 <= 0 + Z.max 0 2 /\
  number_of_open_positions game2_undone +
    Z.of_nat (length (moves game2_undone)) = 2 * 2 - (0 + Z.max 0 2).
Proof.
  assert (H : reach_undone 2 (0 + Z.max 0 2) game2_undone).
  { apply (ru_undo 2 0 game2_two_moves 2 [3; 0]); [|vm_compute; reflexivity].
    apply (ru_place 2 0 game2_one_move 0 1 10); [|now right|reflexivity].
    apply (ru_place 2 0 game2 0 0 5); [|now left|reflexivity].
    apply ru_new. reflexivity. }
  split.
  - split; [lia|exact H].
  - apply (open_plus_history 2 (0 + Z.max 0 2) game2_undone); [lia|exact H].
Defined.

(** C6 as stated fails: after two moves and [remove_last_n_moves(2)] on
    a 2x2 board two positions are open and the history is empty. *)
Lemma open_plus_history_after_undo :
  reach 2 game2_undone /\
  number_of_open_positions game2_undone +
    Z.of_nat (length (moves game2_undone)) <> 2 * 2.
Proof.
  split; [|vm_compute; discriminate].
  apply (reach_undo 2 game2_two_moves 2 [3; 0]);
    [exact reach_game2_two_moves|vm_compute; reflexivity].
Qed.

(** C7: within one game, that is along any sequence of
    [place_piece_randomly], [winner] and [remove_last_n_moves] calls from
    a reachable state, no connectivity mark of either player goes from
    set to clear; hence a player's win condition, once true, stays
    true. *)
Theorem marks_monotone N s s' :
  0 < N -> reach N s -> game_steps s s' ->
  (forall p c, marked s p c -> marked s' p c) /\
  (forall p, won N s p -> won N s' p).
Proof.
  intros HN Hr Hs.
  assert (H : forall k, rd (connected s) k <> 0 -> rd (connected s') k <> 0).
  { induction Hs as [s|s1 s2 s3 H12 H23 IH]; [auto|].
    intros k Hk. apply IH; [eapply game_step_reach; eauto|].
    now apply (game_step_marks N s1 s2 HN Hr H12). }
  split.
  - intros p c. apply H.
  - intros p (c & Hc & Hg & Hm). exists c. repeat split; try assumption; try lia.
    now apply H.
Qed.

Lemma marks_monotone_witness :
  (0 < 1 /\ reach 1 game1 /\
   game_steps game1
     (value_of no_game (let* (_, s) := winner 19 0 4 game1_full in Ok s))) /\
  (forall p c, marked game1 p c ->
     marked (value_of no_game
               (let* (_, s) := winner 19 0 4 game1_full in Ok s)) p c) /\
  (forall p, won 1 game1 p ->
     won 1 (value_of no_game
              (let* (_, s) := winner 19 0 4 game1_full in Ok s)) p).
Proof.
  assert (H : game_steps game1
     (value_of no_game (let* (_, s) := winner 19 0 4 game1_full in Ok s))).
  { apply (steps_cons _ game1_full).
    - apply (step_place 0 0 4); [now left|reflexivity].
    - eapply steps_cons; [|apply steps_nil].
      apply (step_winner 19 0 4 1). vm_compute. reflexivity. }
  split.
  - split; [lia|]. split; [exact reach_game1|exact H].
  - apply (marks_monotone 1 game1 _); [lia|exact reach_game1|exact H].
Defined.

(** C8: for [n] up to the history length, [remove_last_n_moves(n)]
    clears both occupancy flags of every undone cell at its padded
    index, leaves every other board entry, the open-position array, its
    live count, both players' connectivity marks, the dimension and the
    offset table as they were, and drops the undone moves from the
    history. *)
Theorem remove_last_n_moves_frame N n s removed s' :
  0 < N -> reach N s -> n <= Z.of_nat (length (moves s)) ->
  remove_last_n_moves n s = Ok (removed, s') ->
  open_positions s' = open_positions s /\
  number_of_open_positions s' = number_of_open_positions s /\
  connected s' = connected s /\
  BOARD_DIM s' = BOARD_DIM s /\
  neighbors s' = neighbors s /\
  moves s' = take (length (moves s) - Z.to_nat n) (moves s) /\
  vlen (board s') = vlen (board s) /\
  (forall m, In m removed ->
     rd (board s') (padded N m * 2) = 0 /\
     rd (board s') (padded N m * 2 + 1) = 0) /\
  (forall k, (forall m, In m removed ->
                k <> padded N m * 2 /\ k <> padded N m * 2 + 1) ->
     rd (board s') k = rd (board s) k).
Proof.
  intros HN Hr Hn E. pose proof (reach_wf N s HN Hr) as Hwf.
  destruct (undo_connected N n s removed s' HN Hwf E)
    as (_ & _ & _ & (A & B & C & D & F & G & H & I) & J).
  repeat split; try assumption; now apply H.
Qed.

Lemma remove_last_n_moves_frame_witness :
  (0 < 2 /\ reach 2 game2_two_moves /\
   2 <= Z.of_nat (length (moves game2_two_moves)) /\
   remove_last_n_moves 2 game2_two_moves = Ok ([3; 0], game2_undone)) /\
  open_positions game2_undone = open_positions game2_two_moves /\
  number_of_open_positions game2_undone =
    number_of_open_positions game2_two_moves /\
  connected game2_undone = connected game2_two_moves /\
  BOARD_DIM game2_undone = BOARD_DIM game2_two_moves /\
  neighbors game2_undone = neighbors game2_two_moves /\
  moves game2_undone =
    take (length (moves game2_two_moves) - Z.to_nat 2) (moves game2_two_moves) /\
  vlen (board game2_undone) = vlen (board game2_two_moves) /\
  (forall m, In m [3; 0] ->
     rd (board game2_undone) (padded 2 m * 2) = 0 /\
     rd (board game2_undone) (padded 2 m * 2 + 1) = 0) /\
  (forall k, (forall m, In m [3; 0] ->
                k <> padded 2 m * 2 /\ k <> padded 2 m * 2 + 1) ->
     rd (board game2_undone) k = rd (board game2_two_moves) k).
Proof.
  assert (H : remove_last_n_moves 2 game2_two_moves = Ok ([3; 0], game2_undone)).
  { vm_compute. reflexivity. }
  split.
  - split; [lia|]. split; [exact reach_game2_two_moves|]. split; [simpl; lia|exact H].
  - apply (remove_last_n_moves_frame 2 2 game2_two_moves [3; 0] game2_undone);
      [lia|exact reach_game2_two_moves|simpl; lia|exact H].
Defined.

(** C9: on every reachable state [board_to_coord] returns a vector of
    length [N * N] whose entry [i * N + j] is the value of the cell in
    row [i], column [j] of the logical board: 1 when player 0's flag is
    set, -1 when player 1's is, 0 otherwise; every entry is -1, 0 or 1,
    and the number of non-zero entries is the length of the move
    history. *)
Theorem board_to_coord_cells N s :
  0 < N -> reach N s ->
  exists v,
    board_to_coord s = Ok v /\
    vlen v = N * N /\
    (forall i j, 0 <= i < N -> 0 <= j < N ->
       rd v (i * N + j) =
         if rd (board s) (cell N (i + 1) (j + 1) * 2) =? 1 then 1
         else if rd (board s) (cell N (i + 1) (j + 1) * 2 + 1) =? 1 then -1
         else 0) /\
    (forall x, In x v -> x = -1 \/ x = 0 \/ x = 1) /\
    count_nonzero v = length (moves s).
Proof.
  intros HN Hr. pose proof (reach_wf N s HN Hr) as Hwf.
  eexists. split; [apply (board_to_coord_ok N s HN (wf_sized _ _ Hwf))|].
  split; [|split; [|split]].
  - unfold vlen. rewrite length_map, length_zseq. nia.
  - intros i j Hi Hj. rewrite rd_map_zseq by nia.
    unfold coord_value. now rewrite padded_rowcol by lia.
  - intros x Hx. apply in_map_iff in Hx as (m & <- & _). apply coord_value_range.
  - now apply count_occupied.
Qed.

Lemma board_to_coord_cells_witness :
  (0 < 2 /\ reach 2 game2_two_moves) /\
  exists v,
    board_to_coord game2_two_moves = Ok v /\
    vlen v = 2 * 2 /\
    (forall i j, 0 <= i < 2 -> 0 <= j < 2 ->
       rd v (i * 2 + j) =
         if rd (board game2_two_moves) (cell 2 (i + 1) (j + 1) * 2) =? 1 then 1
         else if rd (board game2_two_moves) (cell 2 (i + 1) (j + 1) * 2 + 1) =? 1
              then -1
         else 0) /\
    (forall x, In x v -> x = -1 \/ x = 0 \/ x = 1) /\
    count_nonzero v = length (moves game2_two_moves).
Proof.
  split.
  - split; [lia|exact reach_game2_two_moves].
  - apply (board_to_coord_cells 2 game2_two_moves); [lia|exact reach_game2_two_moves].
Defined.

(** C10: a call of [winner] on a reachable state, whatever player,
    position and fuel, that returns leaves the occupancy flags, the
    move history, the open-position array and its count (and the
    dimension and the offset table) unchanged; every entry of the mark
    vector is either unchanged or is a slot [c * 2 + p] of the given
    player that went from 0 to 1; and when none of the six neighbours
    of the position carries a mark of [p] the state is unchanged and
    the result is 0. *)
Theorem winner_frame_effect N fuel p pos s res s' :
  0 < N -> reach N s -> winner fuel p pos s = Ok (res, s') ->
  board s' = board s /\
  moves s' = moves s /\
  open_positions s' = open_positions s /\
  number_of_open_positions s' = number_of_open_positions s /\
  BOARD_DIM s' = BOARD_DIM s /\
  neighbors s' = neighbors s /\
  vlen (connected s') = vlen (connected s) /\
  (forall k, rd (connected s') k = rd (connected s) k \/
             (exists c, k = c * 2 + p /\
                        rd (connected s) k = 0 /\ rd (connected s') k = 1)) /\
  ((forall n, adj N pos n -> ~ marked s p n) -> res = 0 /\ s' = s).
Proof.
  intros HN Hr E. pose proof (reach_wf N s HN Hr) as Hwf.
  destruct (winner_frame fuel p pos s res s' (wf_conn_vals _ _ Hwf) E)
    as [(Es & L & H) Hno].
  rewrite Es at 1 2 3 4 5 6. simpl.
  repeat split; try assumption; apply Hno; intros j Hj.
  all: destruct (wf_sized _ _ Hwf) as (_ & _ & _ & _ & ->).
  all: destruct (Z.eq_dec (rd (connected s) ((pos + rd (offsets N) j) * 2 + p)) 0)
         as [A|A]; [exact A|].
  all: exfalso; apply (H0 (pos + rd (offsets N) j)); [|exact A].
  all: apply adj_offset; exists j; split; [lia|reflexivity].
Qed.

Lemma winner_frame_effect_witness :
  (0 < 1 /\ reach 1 game1_full /\
   winner 19 0 4 game1_full =
     Ok (1, value_of no_game (let* (_, s) := winner 19 0 4 game1_full in Ok s))) /\
  let s' := value_of no_game (let* (_, s) := winner 19 0 4 game1_full in Ok s) in
  board s' = board game1_full /\
  moves s' = moves game1_full /\
  open_positions s' = open_positions game1_full /\
  number_of_open_positions s' = number_of_open_positions game1_full /\
  BOARD_DIM s' = BOARD_DIM game1_full /\
  neighbors s' = neighbors game1_full /\
  vlen (connected s') = vlen (connected game1_full) /\
  (forall k, rd (connected s') k = rd (connected game1_full) k \/
             (exists c, k = c * 2 + 0 /\
                        rd (connected game1_full) k = 0 /\
                        rd (connected s') k = 1)) /\
  ((forall n, adj 1 4 n -> ~ marked game1_full 0 n) -> 1 = 0 /\ s' = game1_full).
Proof.
  assert (H : winner 19 0 4 game1_full =
     Ok (1, value_of no_game (let* (_, s) := winner 19 0 4 game1_full in Ok s))).
  { vm_compute. reflexivity. }
  split.
  - split; [lia|]. split; [exact reach_game1_full|exact H].
  - apply (winner_frame_effect 1 19 0 4 game1_full 1 _);
      [lia|exact reach_game1_full|exact H].
Defined.

(** * Further properties of the engine *)

(** ** A reused engine is as good as a new one *)




(** ** The open positions are the empty cells *)

Lemma reach_undone_sum N u s :
  0 < N -> reach_undone N u s ->
  0 <= u /\
  number_of_open_positions s + Z.of_nat (length (moves s)) = N * N - u.
Proof.
  intros HN H. induction H as
    [s E|u s s' H IH E|u s r p pos s' H IH Hp E|u s fuel p pos res s' H IH E
    |u s n removed s' H IH E].
  - destruct (HexGame_new_ok N HN) as (s2 & E2 & _ & _ & Hn & Hm).
    rewrite E2 in E. injection E as <-. rewrite Hn, Hm. simpl. lia.
  - pose proof (reach_wf N s HN (reach_undone_reach N u s H)) as Hwf.
    destruct (init_wf N s s' HN Hwf E) as (_ & _ & _ & Hn & Hm).
    rewrite Hn, Hm. simpl. lia.
  - apply place_inv in E as (_ & _ & _ & _ & _ & _ & _ & Hn & Hm & _).
    rewrite Hn, Hm, length_app. simpl. lia.
  - pose proof (reach_wf N s HN (reach_undone_reach N u s H)) as Hwf.
    apply winner_frame in E as [(-> & _) _]; [|exact (wf_conn_vals _ _ Hwf)].
    exact IH.
  - pose proof (reach_wf N s HN (reach_undone_reach N u s H)) as Hwf.
    apply (undo_connected N) in E as (Hn & _ & _ & (_ & _ & Ho & _) & Hm);
      try assumption.
    rewrite Ho, Hm, length_take. lia.
Qed.

(** The live prefix of [open_positions] as a list. *)
Definition open_cells (s : HexGame) : list Z :=
  map (rd (open_positions s)) (zseq (Z.to_nat (number_of_open_positions s))).

Lemma In_open_cells s c :
  0 <= number_of_open_positions s ->
  In c (open_cells s) <->
  exists k, 0 <= k < number_of_open_positions s /\ rd (open_positions s) k = c.
Proof.
  intros Hn. unfold open_cells. rewrite in_map_iff. split.
  - intros (k & E & Hk). apply In_zseq in Hk. exists k. split; [lia|exact E].
  - intros (k & Hk & E). exists k. split; [exact E|]. apply In_zseq. lia.
Qed.

Lemma NoDup_map_inj (f : Z -> Z) (l : list Z) :
  (forall x y, In x l -> In y l -> f x = f y -> x = y) ->
  List.NoDup l -> List.NoDup (map f l).
Proof.
  intros Hinj Hnd. induction Hnd as [|x l Hx Hnd IH]; [constructor|].
  simpl. constructor.
  - intros Hin. apply in_map_iff in Hin as (y & E & Hy).
    assert (y = x) by (apply Hinj; [now right|now left|exact E]). now subst.
  - apply IH. intros a c Ha Hc. apply Hinj; now right.
Qed.

(** With no move undone since the last [init], every empty playable
    cell is in the live prefix of [open_positions]. *)
Lemma open_cells_cover N s c :
  0 < N -> reach_undone N 0 s -> playable N c ->
  rd (board s) (c * 2) = 0 -> rd (board s) (c * 2 + 1) = 0 ->
  exists k, 0 <= k < number_of_open_positions s /\ rd (open_positions s) k = c.
Proof.
  intros HN Hr Hpl F0 F1.
  pose proof (reach_wf N s HN (reach_undone_reach N 0 s Hr)) as Hwf.
  destruct (reach_undone_sum N 0 s HN Hr) as [_ Hsum].
  pose proof (wf_count _ _ Hwf) as Hcnt.
  set (O := open_cells s). set (M := map (padded N) (moves s)).
  set (P := map (padded N) (zseq (Z.to_nat (N * N)))).
  assert (HndO : List.NoDup O).
  { apply NoDup_map_inj; [|apply NoDup_zseq].
    intros x y Hx Hy. apply In_zseq in Hx, Hy.
    apply (wf_open_inj _ _ Hwf); lia. }
  assert (HinM : forall m, In m (moves s) -> 0 <= m < N * N).
  { intros m Hm. now apply (wf_moves_occ _ _ Hwf) in Hm. }
  assert (HndM : List.NoDup M).
  { apply NoDup_map_inj; [|apply (wf_moves_nodup _ _ Hwf)].
    intros x y Hx Hy E.
    rewrite <- (logical_padded N x HN (HinM x Hx)), <- (logical_padded N y HN (HinM y Hy)).
    now rewrite E. }
  assert (HndP : List.NoDup P).
  { apply NoDup_map_inj; [|apply NoDup_zseq].
    intros x y Hx Hy E. apply In_zseq in Hx, Hy.
    rewrite <- (logical_padded N x HN ltac:(lia)), <- (logical_padded N y HN ltac:(lia)).
    now rewrite E. }
  assert (HOM : List.NoDup (O ++ M)).
  { apply List.NoDup_app; [exact HndO|exact HndM|].
    intros a Ha Hm. apply In_open_cells in Ha as (k & Hk & <-); [|lia].
    apply in_map_iff in Hm as (m & E & Hm).
    apply (wf_moves_occ _ _ Hwf) in Hm as (_ & Hocc). rewrite E in Hocc.
    destruct (wf_open_free _ _ Hwf k Hk). lia. }
  assert (Hincl : incl (O ++ M) P).
  { intros a Ha. apply in_app_iff in Ha as [Ha|Ha].
    - apply In_open_cells in Ha as (k & Hk & <-); [|lia].
      pose proof (wf_open_playable _ _ Hwf k Hk) as Hp.
      apply in_map_iff. exists (logical N (rd (open_positions s) k)).
      split; [now apply padded_logical|].
      apply In_zseq. pose proof (logical_range N _ HN Hp). lia.
    - apply in_map_iff in Ha as (m & <- & Hm).
      apply in_map_iff. exists m. split; [reflexivity|].
      apply In_zseq. pose proof (HinM m Hm). lia. }
  assert (HcP : In c P).
  { apply in_map_iff. exists (logical N c). split; [now apply padded_logical|].
    apply In_zseq. pose proof (logical_range N c HN Hpl). lia. }
  assert (Hc : In c (O ++ M)).
  { apply (@List.NoDup_length_incl Z (O ++ M) P HOM); [|exact Hincl|exact HcP].
    unfold O, M, P, open_cells. rewrite length_app, !length_map, !length_zseq. nia. }
  apply in_app_iff in Hc as [Hc|Hc].
  - apply In_open_cells in Hc; [exact Hc|lia].
  - exfalso. apply in_map_iff in Hc as (m & E & Hm).
    apply (wf_moves_occ _ _ Hwf) in Hm as (_ & Hocc). rewrite E in Hocc. lia.
Qed.

(** With no move undone since the last [init], the cells
    [place_piece_randomly] can return, over all values of [rand()], are
    exactly the empty playable cells. *)
Theorem place_piece_randomly_reaches_empty_cells N p s c :
  0 < N -> reach_undone N 0 s -> (p = 0 \/ p = 1) ->
  (playable N c /\ rd (board s) (c * 2) = 0 /\ rd (board s) (c * 2 + 1) = 0) <->
  (exists r s', place_piece_randomly r p s = Ok (c, s')).
Proof.
  intros HN Hr Hp.
  pose proof (reach_wf N s HN (reach_undone_reach N 0 s Hr)) as Hwf. split.
  - intros (Hpl & F0 & F1).
    destruct (open_cells_cover N s c HN Hr Hpl F0 F1) as (k & Hk & E).
    assert (Hrem : Z.rem k (number_of_open_positions s) = k)
      by (apply Z.rem_small; lia).
    destruct (place_progress N k p s HN Hwf Hp ltac:(lia)) as (s' & E' & _).
    { rewrite Hrem. lia. }
    rewrite Hrem, E in E'. eauto.
  - intros (r & s' & E).
    destruct (place_wf N r p s c s' HN Hwf Hp E) as (_ & A & B & C & _). auto.
Qed.

Lemma place_piece_randomly_reaches_empty_cells_witness :
  (0 < 2 /\ reach_undone 2 0 game2_two_moves /\ (0 = 0 \/ 0 = 1)) /\
  ((playable 2 6 /\ rd (board game2_two_moves) (6 * 2) = 0 /\
    rd (board game2_two_moves) (6 * 2 + 1) = 0) <->
   (exists r s', place_piece_randomly r 0 game2_two_moves = Ok (6, s'))).
Proof.
  assert (H : reach_undone 2 0 game2_two_moves).
  { apply (ru_place 2 0 game2_one_move 0 1 10); [|now right|reflexivity].
    apply (ru_place 2 0 game2 0 0 5); [|now left|reflexivity].
    apply ru_new. reflexivity. }
  split; [split; [lia|split; [exact H|now left]]|].
  apply (place_piece_randomly_reaches_empty_cells 2 0 game2_two_moves 6);
    [lia|exact H|now left].
Defined.

(** With no move undone since the last [init], [full_board] is true
    exactly when the cell vector [board_to_coord] returns has no 0
    entry. *)
Theorem full_board_no_empty_cell N s :
  0 < N -> reach_undone N 0 s ->
  exists v,
    board_to_coord s = Ok v /\
    (full_board s = true <-> forall x, In x v -> x <> 0).
Proof.
  intros HN Hr.
  pose proof (reach_wf N s HN (reach_undone_reach N 0 s Hr)) as Hwf.
  eexists. split; [apply (board_to_coord_ok N s HN (wf_sized _ _ Hwf))|].
  unfold full_board. rewrite Z.eqb_eq. split.
  - intros Hn x Hx. apply in_map_iff in Hx as (m & <- & Hm).
    apply In_zseq in Hm. rewrite Z2Nat.id in Hm by nia.
    apply coord_value_nonzero.
    destruct (wf_board_vals _ _ Hwf (padded N m * 2)) as [A|A]; [|now left].
    destruct (wf_board_vals _ _ Hwf (padded N m * 2 + 1)) as [B|B]; [|now right].
    destruct (open_cells_cover N s (padded N m) HN Hr
                (padded_playable N m HN Hm) A B) as (k & Hk & _). lia.
  - intros Hall. pose proof (wf_count _ _ Hwf) as Hcnt.
    destruct (Z.eq_dec (number_of_open_positions s) 0) as [E|E]; [exact E|].
    exfalso.
    pose proof (wf_open_playable _ _ Hwf 0 ltac:(lia)) as Hpl.
    destruct (wf_open_free _ _ Hwf 0 ltac:(lia)) as [A B].
    pose proof (logical_range N _ HN Hpl) as Hl.
    apply (Hall (coord_value N (board s) (logical N (rd (open_positions s) 0)))).
    + apply in_map_iff. eexists. split; [reflexivity|]. apply In_zseq. nia.
    + unfold coord_value. rewrite padded_logical by assumption.
      now rewrite A, B.
Qed.

Lemma full_board_no_empty_cell_witness :
  (0 < 1 /\ reach_undone 1 0 game1_full) /\
  exists v,
    board_to_coord game1_full = Ok v /\
    (full_board game1_full = true <-> forall x, In x v -> x <> 0).
Proof.
  assert (H : reach_undone 1 0 game1_full).
  { apply (ru_place 1 0 game1 0 0 4); [|now left|reflexivity].
    apply ru_new. reflexivity. }
  split; [split; [lia|exact H]|].
  apply (full_board_no_empty_cell 1 game1_full); [lia|exact H].
Defined.

(** * The text projections: [board_to_string] and [print] *)

From Stdlib Require Import Ascii.

(** An output stream is the list of the characters written to it. *)
Abbreviation text := (list ascii).

(** ** [HexGame::board_to_string] *)



(** ** [HexGame::print] *)

(** The characters [print] sends to [std::cout]; [std::endl] is a
    newline. *)
Definition print_cell (i j : Z) (s : HexGame) (out : text) : outcome text :=
  let N := BOARD_DIM s in
  let* cell_x := vget (board s) (((i + 1) * (N + 2) + j + 1) * 2) in
  if cell_x =? 1 then Ok (out ++ [" "%char; "X"%char])
  else
    let* cell_o := vget (board s) (((i + 1) * (N + 2) + j + 1) * 2 + 1) in
    if cell_o =? 1 then Ok (out ++ [" "%char; "O"%char])
    else Ok (out ++ [" "%char; "."%char]).

Definition print_row (i : Z) (s : HexGame) (out : text) : outcome text :=
  let N := BOARD_DIM s in
  let* out := for_range 0 i (fun _ out => Ok (out ++ [" "%char])) out in
  let* out := for_range 0 N (fun j out => print_cell i j s out) out in
  Ok (out ++ ["010"%char]).

Definition print (s : HexGame) : outcome text :=
  for_range 0 (BOARD_DIM s) (fun i out => print_row i s out) [].


Definition print_symbol (x : Z) : ascii :=
  if x =? 1 then "X"%char else if x =? -1 then "O"%char else "."%char.






(** The text [print] writes for cell values [g i j]: line [i] is
    indented by [i] blanks and shows each cell of row [i] after a
    blank, with a dot for an empty cell. *)
Definition print_line (N : Z) (g : Z -> Z -> Z) (i : Z) : text :=
  replicate (Z.to_nat i) " "%char ++
  flat_map (fun j => [" "%char; print_symbol (g i j)]) (zseq (Z.to_nat N)) ++
  ["010"%char].

Definition print_text (N : Z) (g : Z -> Z -> Z) : text :=
  flat_map (print_line N g) (zseq (Z.to_nat N)).

Lemma flat_map_snoc {A B} (f : A -> list B) l x :
  flat_map f (l ++ [x]) = flat_map f l ++ f x.
Proof. rewrite flat_map_app. simpl. now rewrite app_nil_r. Qed.

Lemma replicate_snoc {A} (n : nat) (x : A) :
  replicate (S n) x = replicate n x ++ [x].
Proof. induction n as [|n IH]; [reflexivity|]. simpl in *. now rewrite <- IH. Qed.

Lemma flat_map_ext_on {A B} (f g : A -> list B) l :
  (forall x, In x l -> f x = g x) -> flat_map f l = flat_map g l.
Proof.
  induction l as [|x l IH]; intros H; [reflexivity|].
  simpl. rewrite (H x) by now left. f_equal. apply IH. intros y Hy. apply H. now right.
Qed.

Lemma print_ok N s :
  0 < N -> sized N s ->
  print s =
    Ok (print_text N (fun i j => coord_value N (board s) (i * N + j))).
Proof.
  intros HN (HD & Lb & _). unfold print, print_text. rewrite HD.
  set (g := fun i j => coord_value N (board s) (i * N + j)).
  destruct (for_range_inv
    (fun i out => out = flat_map (print_line N g) (zseq (Z.to_nat i)))
    (fun i out => print_row i s out) 0 N []) as (v & E & Hv).
  - lia.
  - reflexivity.
  - intros i out Hi ->. unfold print_row. rewrite HD.
    set (out0 := flat_map (print_line N g) (zseq (Z.to_nat i))).
    destruct (for_range_inv
      (fun j out => out = out0 ++ replicate (Z.to_nat j) " "%char)
      (fun _ out => Ok (out ++ [" "%char])) 0 i out0) as (o1 & E1 & H1).
    + lia.
    + simpl. now rewrite app_nil_r.
    + intros j o Hj ->. eexists. split; [reflexivity|].
      replace (Z.to_nat (j + 1)) with (S (Z.to_nat j)) by lia.
      now rewrite replicate_snoc, app_assoc.
    + rewrite E1. simpl bind.
      destruct (for_range_inv
        (fun j out => out = o1 ++
           flat_map (fun j => [" "%char; print_symbol (g i j)]) (zseq (Z.to_nat j)))
        (fun j out => print_cell i j s out) 0 N o1) as (o2 & E2 & H2).
      * lia.
      * simpl. now rewrite app_nil_r.
      * intros j o Hj ->. unfold print_cell. rewrite HD.
        replace ((i + 1) * (N + 2) + j + 1) with (padded N (i * N + j))
          by (rewrite padded_rowcol by lia; unfold cell; lia).
        pose proof (padded_playable N (i * N + j) HN ltac:(nia)) as Hpl.
        pose proof (playable_range N _ HN Hpl) as Hr.
        replace (Z.to_nat (j + 1)) with (S (Z.to_nat j)) by lia.
        rewrite zseq_S, flat_map_snoc, Z2Nat.id by lia.
        assert (Eg : print_symbol (g i j) =
          if rd (board s) (padded N (i * N + j) * 2) =? 1 then "X"%char
          else if rd (board s) (padded N (i * N + j) * 2 + 1) =? 1 then "O"%char
          else "."%char).
        { unfold g, coord_value, print_symbol.
          destruct (rd (board s) (padded N (i * N + j) * 2) =? 1); [reflexivity|].
          destruct (rd (board s) (padded N (i * N + j) * 2 + 1) =? 1); reflexivity. }
        rewrite Eg, vget_in by lia. simpl.
        destruct (rd (board s) (padded N (i * N + j) * 2) =? 1);
          [eexists; split; [reflexivity|now rewrite <- app_assoc]|].
        rewrite vget_in by lia. simpl.
        destruct (rd (board s) (padded N (i * N + j) * 2 + 1) =? 1);
          eexists; (split; [reflexivity|now rewrite <- app_assoc]).
      * rewrite E2. simpl bind. eexists. split; [reflexivity|].
        replace (Z.to_nat (i + 1)) with (S (Z.to_nat i)) by lia.
        rewrite zseq_S, flat_map_snoc, Z2Nat.id by lia. fold out0.
        rewrite H2, H1. unfold print_line. now rewrite <- !app_assoc.
  - rewrite E, Hv. reflexivity.
Qed.

(** [print] draws the cell vector of [board_to_coord] as a rhombus: one
    line per row, line [i] indented by [i] blanks, every cell written
    as a blank followed by X, O or a dot. *)
Theorem print_layout N s :
  0 < N -> reach N s ->
  exists v,
    board_to_coord s = Ok v /\
    print s = Ok (print_text N (fun i j => rd v (i * N + j))).
Proof.
  intros HN Hr. pose proof (wf_sized _ _ (reach_wf N s HN Hr)) as Hs.
  eexists. split; [apply (board_to_coord_ok N s HN Hs)|].
  rewrite (print_ok N s HN Hs). f_equal.
  unfold print_text. apply flat_map_ext_on. intros i Hi.
  apply In_zseq in Hi. unfold print_line. do 2 f_equal.
  apply flat_map_ext_on. intros j Hj. apply In_zseq in Hj.
  now rewrite rd_map_zseq by nia.
Qed.

Lemma print_layout_witness :
  (0 < 2 /\ reach 2 game2_two_moves) /\
  exists v,
    board_to_coord game2_two_moves = Ok v /\
    print game2_two_moves = Ok (print_text 2 (fun i j => rd v (i * 2 + j))).
Proof.
  split; [split; [lia|exact reach_game2_two_moves]|].
  apply (print_layout 2 game2_two_moves); [lia|exact reach_game2_two_moves].
Defined.

(** * The game loop of the drivers *)

(** The loop both [main] functions run after [hg.init()]:
    [while (!hg.full_board()) { position = hg.place_piece_randomly(player);
    if (hg.winner(player, position)) { winner = player; break; }
    player = 1 - player; }].
    [rand k] is the value of the [k]-th call of [rand()], [fuel] bounds
    the iterations and [depth] the recursion of [connect]; the result
    is the variable [winner] and the engine after the loop. *)
Fixpoint game_loop (fuel depth : nat) (rand : nat -> Z) (k : nat)
    (player winner_var : Z) (s : HexGame) : outcome (Z * HexGame) :=
  match fuel with
  | O => OutOfFuel
  | S fuel' =>
      if full_board s then Ok (winner_var, s)
      else
        let* (position, s) := place_piece_randomly (rand k) player s in
        let* (w, s) := winner depth player position s in
        if w =? 0
        then game_loop fuel' depth rand (S k) (1 - player) winner_var s
        else Ok (player, s)
  end.

(** Player [p] has joined their two edges on board [b]. *)
Definition has_path (N : Z) (b : list Z) (p : Z) : Prop :=
  exists pos, win_path N b p pos.

Lemma playing_no_path N s p :
  0 < N -> (p = 0 \/ p = 1) -> playing N s -> ~ has_path N (board s) p.
Proof.
  intros HN Hp Hpl (pos & Hw).
  destruct (playing_game_inv N s HN Hpl) as (_ & H0 & H1).
  apply (pinv_no_win_path N s p pos HN Hp); [|exact Hw].
  destruct Hp as [-> | ->]; assumption.
Qed.

(** What the loop returns from a game in progress. *)
Lemma game_loop_ok N depth rand :
  0 < N -> (forall k, 0 <= rand k) ->
  forall fuel k player w0 s,
    playing N s -> (player = 0 \/ player = 1) ->
    number_of_open_positions s < Z.of_nat fuel ->
    (length (connected s) < depth)%nat ->
    exists w s',
      game_loop fuel depth rand k player w0 s = Ok (w, s') /\
      reach N s' /\
      (length (moves s) <= length (moves s'))%nat /\
      ((w = w0 /\ full_board s' = true /\
        ~ has_path N (board s') 0 /\ ~ has_path N (board s') 1) \/
       (w = (if Nat.odd (length (moves s') - length (moves s))
             then player else 1 - player) /\
        full_board s = false /\
        has_path N (board s') w /\ ~ has_path N (board s') (1 - w))).
Proof.
  intros HN Hrand. induction fuel as [|fuel IH]; intros k player w0 s Hpl Hp Hf Hd.
  - pose proof (wf_count _ _ (reach_wf N s HN (playing_reach N s Hpl))). lia.
  - pose proof (playing_game_inv N s HN Hpl) as Hinv.
    pose proof Hinv as (Hwf & Hq0 & Hq1).
    pose proof (wf_count _ _ Hwf) as Hcnt.
    simpl game_loop. unfold full_board at 1.
    destruct (Z.eqb_spec (number_of_open_positions s) 0) as [E0|E0].
    + exists w0, s. split; [reflexivity|]. split; [now apply playing_reach|].
      split; [lia|]. left. split; [reflexivity|].
      split; [unfold full_board; now apply Z.eqb_eq|].
      split; apply playing_no_path; auto.
    + destruct (place_progress N (rand k) player s HN Hwf Hp ltac:(lia))
        as (s1 & E1 & _).
      { apply Z.rem_nonneg; [lia|apply Hrand]. }
      set (pos := rd (open_positions s)
                     (Z.rem (rand k) (number_of_open_positions s))) in *.
      rewrite E1. simpl bind.
      destruct (place_wf N (rand k) player s pos s1 HN Hwf Hp E1)
        as (Hwf1 & Hpos & _ & _ & Hmv1).
      pose proof (place_inv _ _ _ _ _ E1)
        as (_ & _ & _ & _ & _ & Hc1 & _ & Hn1 & _ & Hb1 & _).
      apply vset_ok in Hb1 as (_ & _ & Rb & Fb).
      destruct (winner_ok N player depth s1 pos HN Hp (wf_grid _ _ Hwf1) Hpos)
        as (res & s2 & E2 & _).
      { pose proof (zeros_le_length (connected s1)) as Hz. rewrite Hc1 in *. lia. }
      rewrite E2. simpl bind.
      pose proof (winner_frame depth player pos s1 res s2 (wf_conn_vals _ _ Hwf1) E2)
        as [Hgr _].
      pose proof Hgr as (Es2 & Ls2 & _).
      assert (Hm2 : moves s2 = moves s ++ [logical N pos])
        by (rewrite Es2; simpl; exact Hmv1).
      destruct (move_step N s (rand k) player pos s1 depth res s2 HN Hinv Hp E1 E2)
        as [[-> Hinv2]|[-> Hwin]].
      * simpl.
        assert (Hpl2 : playing N s2) by (eapply playing_move; eauto).
        destruct (IH (S k) (1 - player) w0 s2 Hpl2) as (w & s' & E & Hr' & Hlen & Hcase).
        { lia. }
        { rewrite Es2. simpl. lia. }
        { unfold vlen in Ls2. rewrite Hc1 in Ls2. lia. }
        exists w, s'. split; [exact E|]. split; [exact Hr'|].
        rewrite Hm2, length_app in Hlen. simpl in Hlen.
        split; [lia|].
        destruct Hcase as [A|(A & _ & B)]; [now left|right].
        split; [|split; [unfold full_board; now apply Z.eqb_neq|exact B]].
        rewrite A, Hm2, length_app. simpl.
        replace (length (moves s') - length (moves s))%nat
          with (S (length (moves s') - (length (moves s) + 1)))%nat by lia.
        rewrite Nat.odd_succ, <- Nat.negb_odd.
        destruct (Nat.odd (length (moves s') - (length (moves s) + 1))); simpl; lia.
      * simpl. exists player, s2. split; [reflexivity|].
        split.
        { eapply reach_winner; [|exact E2]. eapply reach_place; [|exact Hp|exact E1].
          now apply playing_reach. }
        rewrite Hm2, length_app. simpl. split; [lia|]. right.
        replace (length (moves s) + 1 - length (moves s))%nat with 1%nat by lia.
        split; [reflexivity|]. split; [unfold full_board; now apply Z.eqb_neq|].
        rewrite (grow_board _ _ _ Hgr). split; [now exists pos|].
        intros (pos' & Hw').
        assert (Hq : pinv N s (1 - player))
          by (destruct Hp as [-> | ->]; simpl; assumption).
        apply (pinv_no_win_path N s1 (1 - player) pos' HN ltac:(lia)); [|exact Hw'].
        apply (pinv_ext N s); [| |exact Hq].
        -- intros c. apply Fb. lia.
        -- intros c. now rewrite Hc1.
Qed.

(** The loop of the drivers, started on a game in progress with
    enough fuel, returns without undefined behaviour.  Either it ran to
    a full board on which neither player has joined their edges and
    left the variable [winner] as it was, or it stopped at the first
    stone that joined the two edges of the player who placed it: then
    [winner] is that player (the first mover of the loop when the loop
    placed an odd number of stones), that player has a path, and the
    other player has none. *)
Theorem game_loop_outcome N depth fuel rand k player w0 s :
  0 < N -> (forall k, 0 <= rand k) ->
  playing N s -> (player = 0 \/ player = 1) ->
  number_of_open_positions s < Z.of_nat fuel ->
  (length (connected s) < depth)%nat ->
  exists w s',
    game_loop fuel depth rand k player w0 s = Ok (w, s') /\
    reach N s' /\
    (length (moves s) <= length (moves s'))%nat /\
    ((w = w0 /\ full_board s' = true /\
      ~ has_path N (board s') 0 /\ ~ has_path N (board s') 1) \/
     (w = (if Nat.odd (length (moves s') - length (moves s))
           then player else 1 - player) /\
      full_board s = false /\
      has_path N (board s') w /\ ~ has_path N (board s') (1 - w))).
Proof. intros HN Hrand. now apply game_loop_ok. Qed.

Lemma game_loop_outcome_witness :
  (0 < 3 /\ (forall k : nat, 0 <= (fun _ => 3) k) /\
   playing 3 game3_4 /\ (0 = 0 \/ 0 = 1) /\
   number_of_open_positions game3_4 < Z.of_nat 10 /\
   (length (connected game3_4) < 51)%nat) /\
  exists w s',
    game_loop 10 51 (fun _ => 3) 0 0 (-1) game3_4 = Ok (w, s') /\
    reach 3 s' /\
    (length (moves game3_4) <= length (moves s'))%nat /\
    ((w = -1 /\ full_board s' = true /\
      ~ has_path 3 (board s') 0 /\ ~ has_path 3 (board s') 1) \/
     (w = (if Nat.odd (length (moves s') - length (moves game3_4))
           then 0 else 1 - 0) /\
      full_board game3_4 = false /\
      has_path 3 (board s') w /\ ~ has_path 3 (board s') (1 - w))).
Proof.
  split.
  - split; [lia|]. split; [intros; lia|]. split; [exact playing_game3_4|].
    split; [now left|]. split; [simpl; lia|simpl; lia].
  - apply (game_loop_outcome 3 51 10 (fun _ => 3) 0 0 (-1) game3_4);
      [lia|intros; lia|exact playing_game3_4|now left|simpl; lia|simpl; lia].
Defined.

(** ** Stone counts along the loop *)

(** The cell value of a stone of player [p], and the number of entries
    of a cell vector with a given value. *)
Definition stone_value (p : Z) : Z := if p =? 0 then 1 else -1.

Definition count_value (x : Z) (v : list Z) : nat :=
  length (List.filter (Z.eqb x) v).

Definition cell_vector (N : Z) (s : HexGame) : list Z :=
  map (coord_value N (board s)) (zseq (Z.to_nat (N * N))).

Lemma count_value_map (f : Z -> Z) x l :
  count_value x (map f l) = length (List.filter (fun m => x =? f m) l).
Proof.
  unfold count_value. induction l as [|y l IH]; [reflexivity|].
  simpl. destruct (x =? f y); simpl; now rewrite IH.
Qed.

Lemma filter_length_same (P P' : Z -> bool) l :
  (forall m, In m l -> P' m = P m) ->
  length (List.filter P' l) = length (List.filter P l).
Proof.
  induction l as [|x l IH]; intros H; [reflexivity|].
  simpl. rewrite (H x) by now left.
  specialize (IH (fun m Hm => H m (or_intror Hm))).
  destruct (P x); simpl; lia.
Qed.

Lemma filter_length_update (P P' : Z -> bool) l m0 :
  List.NoDup l -> In m0 l ->
  (forall m, In m l -> m <> m0 -> P' m = P m) ->
  P m0 = false -> P' m0 = true ->
  length (List.filter P' l) = S (length (List.filter P l)).
Proof.
  intros Hnd. induction Hnd as [|x l Hx Hnd IH]; intros Hin Hsame H0 H1; [destruct Hin|].
  simpl. destruct (Z.eq_dec x m0) as [->|Hne].
  - rewrite H0, H1. simpl. f_equal. apply filter_length_same.
    intros m Hm. apply Hsame; [now right|]. intros ->. contradiction.
  - destruct Hin as [?|Hin]; [contradiction|].
    rewrite (Hsame x (or_introl eq_refl) Hne).
    specialize (IH Hin (fun m Hm => Hsame m (or_intror Hm)) H0 H1).
    destruct (P x); simpl; lia.
Qed.

(** A placement adds one stone of the mover to the cell vector and
    leaves the other player's count as it was. *)
Lemma place_counts N r p s pos s' :
  0 < N -> wf N s -> (p = 0 \/ p = 1) ->
  place_piece_randomly r p s = Ok (pos, s') ->
  count_value (stone_value p) (cell_vector N s') =
    S (count_value (stone_value p) (cell_vector N s)) /\
  count_value (stone_value (1 - p)) (cell_vector N s') =
    count_value (stone_value (1 - p)) (cell_vector N s).
Proof.
  intros HN Hwf Hp E.
  destruct (place_wf N r p s pos s' HN Hwf Hp E) as (_ & Hpl & F0 & F1 & _).
  pose proof (place_inv _ _ _ _ _ E) as (_ & _ & _ & _ & _ & _ & _ & _ & _ & Hb & _).
  apply vset_ok in Hb as (_ & _ & Rb & Fb).
  pose proof (logical_range N pos HN Hpl) as Hl.
  assert (Hother : forall m, In m (zseq (Z.to_nat (N * N))) -> m <> logical N pos ->
            coord_value N (board s') m = coord_value N (board s) m).
  { intros m Hm Hne. apply In_zseq in Hm. rewrite Z2Nat.id in Hm by nia.
    assert (padded N m <> pos).
    { intros Ep. apply Hne. rewrite <- Ep. now rewrite logical_padded. }
    unfold coord_value. rewrite !Fb by lia. reflexivity. }
  assert (Hold : coord_value N (board s) (logical N pos) = 0).
  { unfold coord_value. rewrite padded_logical by assumption. now rewrite F0, F1. }
  assert (Hnew : coord_value N (board s') (logical N pos) = stone_value p).
  { unfold coord_value, stone_value. rewrite padded_logical by assumption.
    destruct Hp as [-> | ->]; simpl.
    - rewrite Z.add_0_r in Rb. now rewrite Rb.
    - rewrite Fb, F0, Rb by lia. reflexivity. }
  unfold cell_vector. rewrite !count_value_map. split.
  - apply (filter_length_update _ _ _ (logical N pos)).
    + apply NoDup_zseq.
    + apply In_zseq. lia.
    + intros m Hm Hne. now rewrite Hother.
    + rewrite Hold. destruct Hp as [-> | ->]; reflexivity.
    + rewrite Hnew. apply Z.eqb_refl.
  - apply filter_length_same. intros m Hm.
    destruct (Z.eq_dec m (logical N pos)) as [->|Hne]; [|now rewrite Hother].
    rewrite Hold, Hnew. destruct Hp as [-> | ->]; reflexivity.
Qed.

(** [balanced N p0 s player]: the stones on the board are those of the
    history, the first mover [p0] has as many as the other player or
    one more, and it is [p0]'s turn exactly when the counts are equal. *)
Definition balanced (N p0 : Z) (s : HexGame) (player : Z) : Prop :=
  let a := count_value (stone_value p0) (cell_vector N s) in
  let b := count_value (stone_value (1 - p0)) (cell_vector N s) in
  (a + b = length (moves s))%nat /\ (b <= a <= b + 1)%nat /\
  (player = p0 <-> a = b).

Lemma game_loop_balanced N depth rand p0 :
  0 < N -> (p0 = 0 \/ p0 = 1) ->
  forall fuel k player w0 s w s',
    reach N s -> (player = 0 \/ player = 1) -> balanced N p0 s player ->
    game_loop fuel depth rand k player w0 s = Ok (w, s') ->
    reach N s' /\ exists player', balanced N p0 s' player'.
Proof.
  intros HN Hp0. induction fuel as [|fuel IH];
    intros k player w0 s w s' Hr Hp Hbal H; [discriminate|].
  simpl in H. destruct (full_board s).
  - injection H as <- <-. split; [exact Hr|]. now exists player.
  - inv_bind H. destruct a as [pos s1]. simpl in H. inv_bind H.
    destruct a as [res s2]. simpl in H.
    pose proof (reach_wf N s HN Hr) as Hwf.
    destruct (place_wf N (rand k) player s pos s1 HN Hwf Hp E)
      as (Hwf1 & _ & _ & _ & Hmv1).
    destruct (place_counts N (rand k) player s pos s1 HN Hwf Hp E) as [Ca Cb].
    pose proof (winner_frame depth player pos s1 res s2 (wf_conn_vals _ _ Hwf1) E0)
      as [Hgr _].
    assert (Hr2 : reach N s2).
    { eapply reach_winner; [|exact E0]. eapply reach_place; eauto. }
    assert (Hv2 : cell_vector N s2 = cell_vector N s1)
      by (unfold cell_vector; now rewrite (grow_board _ _ _ Hgr)).
    assert (Hm2 : length (moves s2) = S (length (moves s))).
    { destruct Hgr as (-> & _). simpl. rewrite Hmv1, length_app. simpl. lia. }
    assert (Hbal2 : balanced N p0 s2 (1 - player)).
    { destruct Hbal as (A & B & C). unfold balanced. rewrite Hv2, Hm2.
      destruct (Z.eq_dec player p0) as [->|Hne].
      - rewrite Ca, Cb. pose proof (proj1 C eq_refl) as Heq.
        split; [lia|]. split; [lia|]. split; [lia|]. intros Hx.
        destruct Hp0 as [-> | ->]; lia.
      - assert (player = 1 - p0) as -> by lia.
        replace (1 - (1 - p0)) with p0 in * by lia.
        rewrite Ca, Cb.
        assert (count_value (stone_value p0) (cell_vector N s) <>
                count_value (stone_value (1 - p0)) (cell_vector N s)) as Hneq
          by (intros Heq; apply C in Heq; lia).
        split; [lia|]. split; [lia|]. split; [intros _; lia|reflexivity]. }
    destruct (res =? 0).
    + apply (IH (S k) (1 - player) w0 s2 w s'); auto. lia.
    + injection H as <- <-. split; [exact Hr2|]. now exists (1 - player).
Qed.

Lemma fresh_balanced N p0 s :
  0 < N -> fresh N s -> balanced N p0 s p0.
Proof.
  intros HN Hf. pose proof Hf as (_ & _ & _ & Hm).
  assert (Hz : forall x, x <> 0 -> count_value x (cell_vector N s) = 0%nat).
  { intros x Hx. unfold cell_vector. rewrite count_value_map.
    rewrite (filter_nil (fun m => x =? coord_value N (board s) m)); [reflexivity|].
    intros m _. unfold coord_value. rewrite !(fresh_board N s _ HN Hf). simpl.
    now apply Z.eqb_neq. }
  unfold balanced. rewrite !Hz, Hm.
  - simpl. repeat split; lia.
  - unfold stone_value. destruct (1 - p0 =? 0); discriminate.
  - unfold stone_value. destruct (p0 =? 0); discriminate.
Qed.

(** A game played by the loop from a freshly initialised board: in the
    cell vector exported afterwards the first mover has as many stones
    as the other player or exactly one more, and together they are the
    moves of the history. *)
Theorem game_loop_stone_balance N depth fuel rand k p0 w0 s0 s w s' :
  0 < N -> (p0 = 0 \/ p0 = 1) -> reach N s0 -> init s0 = Ok s ->
  game_loop fuel depth rand k p0 w0 s = Ok (w, s') ->
  exists v,
    board_to_coord s' = Ok v /\
    (count_value (stone_value (1 - p0)%Z) v <= count_value (stone_value p0) v)%nat /\
    (count_value (stone_value p0) v <= count_value (stone_value (1 - p0)%Z) v + 1)%nat /\
    (count_value (stone_value p0) v + count_value (stone_value (1 - p0)%Z) v =
       length (moves s'))%nat.
Proof.
  intros HN Hp0 Hr0 Ei E.
  destruct (init_wf N s0 s HN (reach_wf N s0 HN Hr0) Ei) as [_ Hf].
  assert (Hr : reach N s) by (eapply reach_init; eauto).
  destruct (game_loop_balanced N depth rand p0 HN Hp0 fuel k p0 w0 s w s' Hr Hp0
              (fresh_balanced N p0 s HN Hf) E) as (Hr' & player' & A & B & _).
  exists (cell_vector N s'). split.
  - apply board_to_coord_ok; [exact HN|]. apply (wf_sized _ _ (reach_wf N s' HN Hr')).
  - repeat split; lia.
Qed.

Lemma game_loop_stone_balance_witness :
  (0 < 2 /\ (0 = 0 \/ 0 = 1) /\ reach 2 game2_undone /\
   init game2_undone = Ok game2 /\
   game_loop 5 33 (fun _ => 0) 0 0 (-1) game2 =
     Ok (0, state_after (game_loop 5 33 (fun _ => 0%Z) 0 0%Z (-1)%Z game2))) /\
  exists v,
    board_to_coord (state_after (game_loop 5 33 (fun _ => 0%Z) 0 0%Z (-1)%Z game2)) = Ok v /\
    (count_value (stone_value (1 - 0)%Z) v <= count_value (stone_value 0%Z) v)%nat /\
    (count_value (stone_value 0%Z) v <= count_value (stone_value (1 - 0)%Z) v + 1)%nat /\
    (count_value (stone_value 0%Z) v + count_value (stone_value (1 - 0)%Z) v =
       length (moves (state_after (game_loop 5 33 (fun _ => 0%Z) 0 0%Z (-1)%Z game2))))%nat.
Proof.
  assert (Hr : reach 2 game2_undone).
  { apply (reach_undo 2 game2_two_moves 2 [3; 0]);
      [exact reach_game2_two_moves|vm_compute; reflexivity]. }
  assert (Hi : init game2_undone = Ok game2) by (vm_compute; reflexivity).
  assert (Hg : game_loop 5 33 (fun _ => 0) 0 0 (-1) game2 =
     Ok (0, state_after (game_loop 5 33 (fun _ => 0%Z) 0 0%Z (-1)%Z game2)))
    by (vm_compute; reflexivity).
  split; [split; [lia|split; [now left|split; [exact Hr|split; [exact Hi|exact Hg]]]]|].
  exact (game_loop_stone_balance 2 33 5 (fun _ => 0) 0%nat 0 (-1) game2_undone game2 0 _
           ltac:(lia) (or_introl eq_refl) Hr Hi Hg).
Defined.

(** ** A finished game is long enough for the drivers' undo *)

(** No cell is flagged for both players. *)
Definition exclusive (s : HexGame) : Prop :=
  forall c, ~ (rd (board s) (c * 2) = 1 /\ rd (board s) (c * 2 + 1) = 1).

Lemma reach_exclusive N s : 0 < N -> reach N s -> exclusive s.
Proof.
  intros HN H. induction H as
    [s E|s s' H IH E|s r p pos s' H IH Hp E|s fuel p pos res s' H IH E
    |s n removed s' H IH E]; intros c [A B].
  - destruct (HexGame_new_ok N HN) as (s2 & E2 & Hf).
    rewrite E2 in E. injection E as <-.
    rewrite (fresh_board N s2 _ HN Hf) in A. discriminate.
  - destruct (init_wf N s s' HN (reach_wf N s HN H) E) as [_ Hf].
    rewrite (fresh_board N s' _ HN Hf) in A. discriminate.
  - destruct (place_wf N r p s pos s' HN (reach_wf N s HN H) Hp E)
      as (_ & _ & F0 & F1 & _).
    pose proof (place_inv _ _ _ _ _ E) as (_ & _ & _ & _ & _ & _ & _ & _ & _ & Hb & _).
    apply vset_ok in Hb as (_ & _ & Rb & Fb).
    destruct (Z.eq_dec c pos) as [->|Hne].
    + destruct Hp as [-> | ->]; [rewrite Fb in B by lia|rewrite Fb in A by lia]; lia.
    + rewrite Fb in A, B by lia. now apply (IH c).
  - apply winner_frame in E as [Hg _];
      [|exact (wf_conn_vals _ _ (reach_wf N s HN H))].
    rewrite (grow_board _ _ _ Hg) in A, B. now apply (IH c).
  - apply (undo_connected N) in E as (_ & _ & _ & (_ & _ & _ & _ & _ & _ & U1 & U2) & _);
      [|exact HN|exact (reach_wf N s HN H)].
    destruct (in_dec Z.eq_dec c (map (padded N) removed)) as [Hin|Hnin].
    + apply in_map_iff in Hin as (m & <- & Hm). destruct (U1 m Hm) as [Z0 _]. lia.
    + rewrite !U2 in A, B; [now apply (IH c)| |].
      * intros m Hm. split; [lia|]. intros Ec. apply Hnin. apply in_map_iff.
        exists m. split; [lia|exact Hm].
      * intros m Hm. split; [|lia]. intros Ec. apply Hnin. apply in_map_iff.
        exists m. split; [lia|exact Hm].
Qed.

(** The coordinate that matters to player [p]: the row for player 0,
    the column for player 1. *)
Definition axis (N p c : Z) : Z := if p =? 0 then row N c else col N c.

Lemma adj_axis N p c n :
  0 < N -> playable N c -> playable N n -> adj N c n ->
  axis N p n <= axis N p c + 1.
Proof.
  intros HN Hc Hn Ha.
  destruct (playable_inv N c HN Hc) as (i & j & Hi & Hj & ->).
  apply adj_cell in Ha. unfold axis.
  rewrite (row_cell N i j), (col_cell N i j) by lia.
  destruct Ha as [->|[->|[->|[->|[->| ->]]]]];
    rewrite row_cell, col_cell by lia; destruct (p =? 0); lia.
Qed.

(** A chain of stones meets every value of the axis between its ends. *)
Lemma chain_axis N b p c0 c :
  0 < N ->
  (forall n, rd b (n * 2 + p) <> 0 -> playable N n) ->
  rd b (c0 * 2 + p) <> 0 ->
  chain N b p c0 c ->
  forall k, axis N p c0 <= k <= axis N p c ->
    exists d, rd b (d * 2 + p) <> 0 /\ axis N p d = k.
Proof.
  intros HN Hst Hs0 Hc. induction Hc as [|c n Hc IH Ha Hs]; intros k Hk.
  - exists c0. split; [exact Hs0|lia].
  - assert (Hsc : rd b (c * 2 + p) <> 0)
      by (destruct (chain_end _ _ _ _ _ Hc) as [->|?]; assumption).
    pose proof (adj_axis N p c n HN (Hst c Hsc) (Hst n Hs) Ha) as Hstep.
    destruct (Z_le_gt_dec k (axis N p c)) as [Hle|Hgt].
    + apply IH. lia.
    + exists n. split; [exact Hs|lia].
Qed.

Lemma axis_first_goal N p c :
  (p = 0 \/ p = 1) ->
  (first N p c <-> axis N p c = 1) /\ (goal N p c <-> axis N p c = N).
Proof.
  intros [-> | ->]; unfold first, goal, axis; simpl; split; split;
    try tauto; intros [[A B]|[A B]]; try discriminate; assumption.
Qed.

(** Stones of [p] with pairwise different axis values, up to [n]. *)
Lemma distinct_stones N s p :
  0 < N -> wf N s -> exclusive s -> (p = 0 \/ p = 1) ->
  (forall k, 1 <= k <= N ->
     exists d, rd (board s) (d * 2 + p) <> 0 /\ axis N p d = k) ->
  forall n, (Z.of_nat n <= N) ->
    exists D,
      length D = n /\ List.NoDup D /\
      forall m, In m D ->
        In m (zseq (Z.to_nat (N * N))) /\
        coord_value N (board s) m = stone_value p /\
        1 <= axis N p (padded N m) <= Z.of_nat n.
Proof.
  intros HN Hwf Hex Hp Hall. induction n as [|n IH]; intros Hn.
  - exists []. split; [reflexivity|]. split; [constructor|]. intros m [].
  - destruct (IH ltac:(lia)) as (D & Hlen & Hnd & HD).
    destruct (Hall (Z.of_nat (S n)) ltac:(lia)) as (d & Hs & Hax).
    assert (Hpl : playable N d)
      by (apply (grid_stone_playable N p Hp s d (wf_grid _ _ Hwf)); exact Hs).
    pose proof (logical_range N d HN Hpl) as Hl.
    exists (logical N d :: D). split; [simpl; lia|]. split.
    + constructor; [|exact Hnd]. intros Hin. destruct (HD _ Hin) as (_ & _ & Hr).
      rewrite padded_logical in Hr by assumption. lia.
    + intros m [<-|Hm].
      * split; [apply In_zseq; lia|]. rewrite padded_logical by assumption.
        split; [|lia]. unfold coord_value, stone_value.
        rewrite padded_logical by assumption.
        destruct (wf_board_vals _ _ Hwf (d * 2 + p)) as [?|H1]; [contradiction|].
        destruct Hp as [-> | ->]; simpl.
        -- rewrite Z.add_0_r in H1. now rewrite H1.
        -- rewrite H1. destruct (Z.eqb_spec (rd (board s) (d * 2)) 1) as [H0|H0];
             [|reflexivity].
           exfalso. now apply (Hex d).
      * destruct (HD m Hm) as (A & B & C). repeat split; try assumption; lia.
Qed.

(** A player who has joined their edges has at least [N] stones. *)
Lemma path_needs_N_stones N s p :
  0 < N -> reach N s -> (p = 0 \/ p = 1) -> has_path N (board s) p ->
  (Z.to_nat N <= count_value (stone_value p) (cell_vector N s))%nat.
Proof.
  intros HN Hr Hp (pos & c0 & g & Hpl0 & Hf & Hs0 & Hch0 & Hchg & Hgo).
  pose proof (reach_wf N s HN Hr) as Hwf.
  assert (Hst : forall n, rd (board s) (n * 2 + p) <> 0 -> playable N n).
  { intros n Hn. now apply (grid_stone_playable N p Hp s n (wf_grid _ _ Hwf)). }
  destruct (axis_first_goal N p c0 Hp) as [Hfa _].
  destruct (axis_first_goal N p g Hp) as [_ Hga].
  apply Hfa in Hf. apply Hga in Hgo.
  pose proof (chain_axis N (board s) p c0 g HN Hst Hs0
                (chain_trans _ _ _ _ _ _ Hch0 Hchg)) as Hall.
  destruct (distinct_stones N s p HN Hwf (reach_exclusive N s HN Hr) Hp
              ltac:(intros k Hk; apply Hall; lia) (Z.to_nat N) ltac:(lia))
    as (D & Hlen & Hnd & HD).
  rewrite <- Hlen. unfold cell_vector. rewrite count_value_map.
  apply NoDup_incl_length; [exact Hnd|].
  intros m Hm. destruct (HD m Hm) as (A & B & _).
  apply filter_In. split; [exact A|]. rewrite B. apply Z.eqb_refl.
Qed.

Lemma reach_reach_undone N s : reach N s -> exists u, reach_undone N u s.
Proof.
  induction 1 as
    [s E|s s' H [u IH] E|s r p pos s' H [u IH] Hp E|s fuel p pos res s' H [u IH] E
    |s n removed s' H [u IH] E].
  - exists 0. now apply ru_new.
  - exists 0. eapply ru_init; eauto.
  - exists u. eapply ru_place; eauto.
  - exists u. eapply ru_winner; eauto.
  - exists (u + Z.max 0 n). eapply ru_undo; eauto.
Qed.

Lemma game_loop_reach_undone N depth rand u :
  forall fuel k player w0 s w s',
    reach_undone N u s -> (player = 0 \/ player = 1) ->
    game_loop fuel depth rand k player w0 s = Ok (w, s') ->
    reach_undone N u s'.
Proof.
  induction fuel as [|fuel IH]; intros k player w0 s w s' Hr Hp H; [discriminate|].
  simpl in H. destruct (full_board s).
  - injection H as <- <-. exact Hr.
  - inv_bind H. destruct a as [pos s1]. simpl in H. inv_bind H.
    destruct a as [res s2]. simpl in H.
    assert (Hr2 : reach_undone N u s2).
    { eapply ru_winner; [|exact E0]. eapply ru_place; eauto. }
    destruct (res =? 0).
    + apply (IH (S k) (1 - player) w0 s2 w s'); auto. lia.
    + injection H as <- <-. exact Hr2.
Qed.

(** A game played by the loop from a freshly initialised board has at
    least [2 * N - 1] moves, so that [remove_last_n_moves(n)] on the
    finished game is within the history for every [n] up to
    [2 * N - 1]: the values 0, 2 and 5 the drivers pass on boards of
    dimension 3 and more never run past it. *)
Theorem finished_game_covers_undo N depth fuel rand k p0 w0 s0 s :
  0 < N -> (forall k, 0 <= rand k) -> (p0 = 0 \/ p0 = 1) ->
  reach N s0 -> init s0 = Ok s ->
  N * N < Z.of_nat fuel -> (length (connected s) < depth)%nat ->
  exists w s',
    game_loop fuel depth rand k p0 w0 s = Ok (w, s') /\
    2 * N - 1 <= Z.of_nat (length (moves s')) /\
    forall n, n <= 2 * N - 1 ->
      exists removed s'', remove_last_n_moves n s' = Ok (removed, s'').
Proof.
  intros HN Hrand Hp0 Hr0 Ei Hfuel Hdepth.
  destruct (init_wf N s0 s HN (reach_wf N s0 HN Hr0) Ei) as [Hwf Hf].
  assert (Hpl : playing N s) by (eapply playing_init; eauto).
  assert (Hr : reach N s) by (eapply reach_init; eauto).
  destruct (reach_reach_undone N s0 Hr0) as (u0 & Hu0).
  assert (Hu : reach_undone N 0 s) by (eapply ru_init; eauto).
  pose proof (wf_count _ _ Hwf) as Hcnt.
  destruct (game_loop_ok N depth rand HN Hrand fuel k p0 w0 s Hpl Hp0 ltac:(lia) Hdepth)
    as (w & s' & E & Hr' & _ & Hcase).
  destruct (game_loop_balanced N depth rand p0 HN Hp0 fuel k p0 w0 s w s' Hr Hp0
              (fresh_balanced N p0 s HN Hf) E) as (_ & player' & A & B & _).
  pose proof (game_loop_reach_undone N depth rand 0 fuel k p0 w0 s w s' Hu Hp0 E) as Hu'.
  destruct (reach_undone_sum N 0 s' HN Hu') as [_ Hsum].
  assert (Hlen : 2 * N - 1 <= Z.of_nat (length (moves s'))).
  { destruct Hcase as [(_ & Hfull & _)|(Hw & _ & Hpath & _)].
    - unfold full_board in Hfull. apply Z.eqb_eq in Hfull. nia.
    - assert (Hw01 : w = 0 \/ w = 1).
      { rewrite Hw. destruct (Nat.odd _); lia. }
      pose proof (path_needs_N_stones N s' w HN Hr' Hw01 Hpath) as Hn.
      assert (w = p0 \/ w = 1 - p0) as [-> | ->] by lia; lia. }
  exists w, s'. split; [exact E|]. split; [exact Hlen|].
  intros n Hn.
  destruct (remove_last_n_moves_ok N n s' HN (reach_wf N s' HN Hr') ltac:(lia))
    as (s'' & E'' & _).
  eauto.
Qed.

Lemma finished_game_covers_undo_witness :
  (0 < 2 /\ (forall k : nat, 0 <= (fun _ => 0) k) /\ (0 = 0 \/ 0 = 1) /\
   reach 2 game2_undone /\ init game2_undone = Ok game2 /\
   2 * 2 < Z.of_nat 5 /\ (length (connected game2) < 33)%nat) /\
  exists w s',
    game_loop 5 33 (fun _ => 0) 0 0 (-1) game2 = Ok (w, s') /\
    2 * 2 - 1 <= Z.of_nat (length (moves s')) /\
    forall n, n <= 2 * 2 - 1 ->
      exists removed s'', remove_last_n_moves n s' = Ok (removed, s'').
Proof.
  assert (Hr : reach 2 game2_undone).
  { apply (reach_undo 2 game2_two_moves 2 [3; 0]);
      [exact reach_game2_two_moves|vm_compute; reflexivity]. }
  assert (Hi : init game2_undone = Ok game2) by (vm_compute; reflexivity).
  split.
  - split; [lia|]. split; [intros; lia|]. split; [now left|].
    split; [exact Hr|]. split; [exact Hi|]. split; [lia|simpl; lia].
  - apply (finished_game_covers_undo 2 33 5 (fun _ => 0) 0 0 (-1) game2_undone game2);
      [lia|intros; lia|now left|exact Hr|exact Hi|lia|simpl; lia].
Defined.

(** * The dataset files: writing rows and analysing them *)

From Stdlib Require DecimalString.

(** ** Streams, strings and the standard library calls the code makes *)

(** The exceptions [std::stoi] throws.  Nothing in the repository
    catches them. *)
Inductive cxx_exception : Type :=
| invalid_argument
| out_of_range.

(** The result of the file analysis: a value, an exception that
    leaves the function, or undefined behaviour. *)
Inductive run (A : Type) : Type :=
| Done (a : A)
| Raised (e : cxx_exception)
| Undef (f : fault).

Arguments Done {A} a.
Arguments Raised {A} e.
Arguments Undef {A} f.

Definition run_bind {A B : Type} (m : run A) (k : A -> run B) : run B :=
  match m with
  | Done a => k a
  | Raised e => Raised e
  | Undef f => Undef f
  end.

Definition newline : ascii := "010"%char.
Definition comma : ascii := ","%char.

(** [stream << value] for an [int]: its decimal representation. *)
Definition show_int (z : Z) : text :=
  String.list_ascii_of_string
    (DecimalString.NilZero.string_of_int (Z.to_int z)).

(** The strings successive calls [std::getline(stream, str, delim)]
    deliver until one fails, for a stream holding [s]; [cur] is what
    the current call has extracted so far.  A call that meets the end
    of the stream before any character fails, so a text ending in the
    delimiter has no empty last field. *)
Fixpoint fields_from (delim : ascii) (cur : text) (s : text) : list text :=
  match s with
  | [] => match cur with [] => [] | _ => [cur] end
  | c :: r =>
      if Ascii.eqb c delim then cur :: fields_from delim [] r
      else fields_from delim (cur ++ [c]) r
  end.

Definition getlines (delim : ascii) (s : text) : list text :=
  fields_from delim [] s.

(** [std::stoi(str)]: skip white space, read an optional sign and the
    decimal digits that follow, ignore the rest. *)
Definition is_space (c : ascii) : bool :=
  let n := nat_of_ascii c in
  Nat.eqb n 32 || (Nat.leb 9 n && Nat.leb n 13).

Definition digit_of (c : ascii) : option Z :=
  let n := Z.of_nat (nat_of_ascii c) in
  if (48 <=? n) && (n <=? 57) then Some (n - 48) else None.

Fixpoint skip_spaces (s : text) : text :=
  match s with
  | c :: r => if is_space c then skip_spaces r else s
  | [] => []
  end.

Fixpoint read_digits (acc : Z) (seen : bool) (s : text) : option Z :=
  match s with
  | c :: r =>
      match digit_of c with
      | Some d => read_digits (acc * 10 + d) true r
      | None => if seen then Some acc else None
      end
  | [] => if seen then Some acc else None
  end.

Definition INT_MAX : Z := 2147483647.
Definition INT_MIN : Z := -2147483648.

Definition stoi (str : text) : run Z :=
  let s := skip_spaces str in
  let signed :=
    match s with
    | c :: r =>
        if Ascii.eqb c "-"%char then (true, r)
        else if Ascii.eqb c "+"%char then (false, r)
        else (false, s)
    | [] => (false, s)
    end in
  match read_digits 0 false (snd signed) with
  | None => Raised invalid_argument
  | Some n =>
      let v := if fst signed then - n else n in
      if (INT_MIN <=? v) && (v <=? INT_MAX) then Done v
      else Raised out_of_range
  end.

Definition text_eqb (a b : text) : bool :=
  if List.list_eq_dec ascii_dec a b then true else false.

Definition coord_format : text :=
  ["c"%char; "o"%char; "o"%char; "r"%char; "d"%char].

(** [std::unordered_set<std::string>] as the list of its elements:
    [insert] and [size]. *)
Definition set_insert (x : text) (set : list text) : list text :=
  if existsb (text_eqb x) set then set else x :: set.

(** ** [write_coord_game_to_csv] and [write_game_to_csv] *)

(** The version of the first driver: the cell values, then the
    winner. *)
Definition write_coord_game_to_csv (outfile : text) (board_values : list Z)
    (winner_var : Z) : text :=
  fold_left (fun out value => out ++ show_int value ++ [comma])
            board_values outfile
  ++ show_int winner_var ++ [newline].

(** The version of the second driver: the cell values, the starting
    player, then the winner. *)
Definition write_coord_game_to_csv_sp (outfile : text) (board_values : list Z)
    (starting_player winner_var : Z) : text :=
  fold_left (fun out value => out ++ show_int value ++ [comma])
            board_values outfile
  ++ show_int starting_player ++ [comma] ++ show_int winner_var ++ [newline].

Definition write_game_to_csv (outfile : text) (format : text)
    (result : text * Z) : text :=
  if text_eqb format coord_format then outfile
  else outfile ++ fst result ++ [comma] ++ show_int (snd result) ++ [newline].

(** ** [analyze_game_file] *)

(** The counters and the set of the loop:
    [(wins_player_X, wins_player_O, total_games, unique_games)]. *)
Definition tally : Type := (Z * Z * Z * list text)%type.

(** The body of the [while (std::getline(infile, line))] loop for a
    line after the header. *)
Definition analyze_line (format : text) (line : text) (t : tally) : run tally :=
  match t with
  | (wins_player_X, wins_player_O, total_games, unique_games) =>
      run_bind
        (if text_eqb format coord_format then
           let board_state := concat (getlines comma line) in
           match last board_state with
           | None => Undef BackOfEmpty
           | Some c => Done (removelast board_state, [c])
           end
         else
           let fields := getlines comma line in
           Done (nth 0 fields [], nth 1 fields []))
        (fun parsed =>
           let unique_games := set_insert (fst parsed) unique_games in
           run_bind (stoi (snd parsed)) (fun winner_var =>
             if winner_var =? 0 then
               Done (wins_player_X + 1, wins_player_O, total_games + 1, unique_games)
             else if winner_var =? 1 then
               Done (wins_player_X, wins_player_O + 1, total_games + 1, unique_games)
             else
               Done (wins_player_X, wins_player_O, total_games + 1, unique_games)))
  end.

Fixpoint analyze_lines (format : text) (lines : list text) (t : tally) : run tally :=
  match lines with
  | [] => Done t
  | line :: rest => run_bind (analyze_line format line t) (analyze_lines format rest)
  end.

(** [file] is the content of the file, [None] when it cannot be
    opened; the result is
    [{total_games, unique_games_count, wins_player_X, wins_player_O}]. *)
Definition analyze_game_file (file : option text) (format : text)
    : run (Z * Z * Z * Z) :=
  match file with
  | None => Done (0, 0, 0, 0)
  | Some content =>
      match getlines newline content with
      | [] => Done (0, 0, 0, 0)
      | _ :: lines =>
          run_bind (analyze_lines format lines (0, 0, 0, []))
            (fun t =>
               match t with
               | (wins_player_X, wins_player_O, total_games, unique_games) =>
                   Done (total_games, Z.of_nat (length unique_games),
                         wins_player_X, wins_player_O)
               end)
      end
  end.

(** ** What [getline] delivers *)

Lemma ascii_eqb_false (c d : ascii) : c <> d -> Ascii.eqb c d = false.
Proof. intros H. now apply Ascii.eqb_neq. Qed.

(** The fields put together again are the text without its delimiters. *)
Lemma concat_fields delim : forall s cur,
  concat (fields_from delim cur s) =
  cur ++ List.filter (fun c => negb (Ascii.eqb c delim)) s.
Proof.
  induction s as [|c r IH]; intros cur; simpl.
  - destruct cur; simpl; now rewrite ?app_nil_r.
  - destruct (Ascii.eqb c delim); simpl.
    + now rewrite IH.
    + rewrite IH. now rewrite <- app_assoc.
Qed.

(** A line without the delimiter, followed by the delimiter, is the
    next field. *)
Lemma fields_from_line delim rest : forall l cur,
  ~ In delim l ->
  fields_from delim cur (l ++ delim :: rest) =
  (cur ++ l) :: fields_from delim [] rest.
Proof.
  induction l as [|c l IH]; intros cur Hn; simpl.
  - rewrite Ascii.eqb_refl. now rewrite app_nil_r.
  - rewrite ascii_eqb_false by (intros ->; apply Hn; now left).
    rewrite IH by (intros H; apply Hn; now right).
    now rewrite <- app_assoc.
Qed.

Lemma getlines_lines (lines : list text) :
  (forall l, In l lines -> ~ In newline l) ->
  getlines newline (concat (map (fun l => l ++ [newline]) lines)) = lines.
Proof.
  unfold getlines. induction lines as [|l lines IH]; intros H; [reflexivity|].
  simpl. rewrite <- app_assoc. simpl.
  rewrite fields_from_line by (apply H; now left). simpl.
  f_equal. apply IH. intros l' Hl'. apply H. now right.
Qed.

(** ** The rows the drivers write *)

(** A cell value of [board_to_coord]. *)
Definition cell_value (x : Z) : Prop := x = -1 \/ x = 0 \/ x = 1.

(** The key [analyze_game_file] builds for a row of cell values. *)
Definition board_key (v : list Z) : text := concat (map show_int v).

(** The row of a game without its final newline. *)
Definition row_line (g : list Z * Z) : text :=
  concat (map (fun x => show_int x ++ [comma]) (fst g)) ++ show_int (snd g).

Lemma write_coord_game_to_csv_row out v w :
  write_coord_game_to_csv out v w = out ++ row_line (v, w) ++ [newline].
Proof.
  unfold write_coord_game_to_csv, row_line. simpl.
  rewrite !app_assoc. do 2 f_equal.
  revert out. induction v as [|x v IH]; intros out; simpl.
  - now rewrite app_nil_r.
  - rewrite IH. now rewrite <- !app_assoc.
Qed.

Lemma show_cell_value x :
  cell_value x ->
  show_int x = ["-"%char; "1"%char] \/ show_int x = ["0"%char] \/
  show_int x = ["1"%char].
Proof. intros [->|[->| ->]]; vm_compute; auto. Qed.

Lemma show_cell_value_plain x c :
  cell_value x -> In c (show_int x) -> c <> comma /\ c <> newline.
Proof.
  intros Hx Hc. destruct (show_cell_value x Hx) as [E|[E|E]]; rewrite E in Hc;
    simpl in Hc; intuition (subst; discriminate).
Qed.

Definition valid_game (g : list Z * Z) : Prop :=
  (forall x, In x (fst g) -> cell_value x) /\ (snd g = 0 \/ snd g = 1).

Lemma row_line_plain v w c :
  (forall x, In x v -> cell_value x) -> cell_value w ->
  In c (row_line (v, w)) -> c <> newline.
Proof.
  intros Hv Hw Hc. unfold row_line in Hc. simpl in Hc.
  apply in_app_iff in Hc as [Hc|Hc].
  - apply in_concat in Hc as (l & Hl & Hc). apply in_map_iff in Hl as (x & <- & Hx).
    apply in_app_iff in Hc as [Hc|[<-|[]]]; [|discriminate].
    now apply (show_cell_value_plain x c (Hv x Hx)).
  - now apply (show_cell_value_plain w c Hw).
Qed.

(** Without its commas a row is the key of its cells followed by the
    winner. *)
Lemma row_line_no_commas v w :
  (forall x, In x v -> cell_value x) -> cell_value w ->
  List.filter (fun c => negb (Ascii.eqb c comma)) (row_line (v, w)) =
  board_key v ++ show_int w.
Proof.
  intros Hv Hw. unfold row_line, board_key. simpl.
  assert (Hshow : forall x, cell_value x ->
    List.filter (fun c => negb (Ascii.eqb c comma)) (show_int x) = show_int x).
  { intros x Hx. destruct (show_cell_value x Hx) as [E|[E|E]]; rewrite E; reflexivity. }
  rewrite List.filter_app, (Hshow w Hw). f_equal.
  induction v as [|x v IH]; [reflexivity|].
  simpl. rewrite !List.filter_app, (Hshow x) by (apply Hv; now left).
  simpl. rewrite IH by (intros y Hy; apply Hv; now right).
  now rewrite app_nil_r.
Qed.

(** The keys of cell vectors are a prefix code: different vectors have
    different keys. *)
Lemma board_key_inj v v' :
  (forall x, In x v -> cell_value x) -> (forall x, In x v' -> cell_value x) ->
  board_key v = board_key v' -> v = v'.
Proof.
  unfold board_key. revert v'. induction v as [|x v IH]; intros [|y w] Hv Hw E.
  - reflexivity.
  - exfalso. simpl in E.
    destruct (show_cell_value y (Hw y (or_introl eq_refl))) as [Ey|[Ey|Ey]];
      rewrite Ey in E; discriminate.
  - exfalso. simpl in E.
    destruct (show_cell_value x (Hv x (or_introl eq_refl))) as [Ex|[Ex|Ex]];
      rewrite Ex in E; discriminate.
  - pose proof (Hv x (or_introl eq_refl)) as Hx.
    pose proof (Hw y (or_introl eq_refl)) as Hy.
    assert (Hv' : forall z, In z v -> cell_value z) by (intros z Hz; apply Hv; now right).
    assert (Hw' : forall z, In z w -> cell_value z) by (intros z Hz; apply Hw; now right).
    simpl in E.
    destruct Hx as [->|[->| ->]], Hy as [->|[->| ->]];
      vm_compute show_int in E; simpl in E;
      try discriminate; injection E as E; f_equal; now apply IH.
Qed.

(** ** Analysing written rows *)

Lemma text_eqb_spec (a b : text) : text_eqb a b = true <-> a = b.
Proof.
  unfold text_eqb. destruct (List.list_eq_dec ascii_dec a b); split; congruence.
Qed.

Lemma set_insert_spec x set :
  List.NoDup set ->
  List.NoDup (set_insert x set) /\
  forall k, In k (set_insert x set) <-> k = x \/ In k set.
Proof.
  intros Hnd. unfold set_insert.
  destruct (existsb (text_eqb x) set) eqn:E.
  - split; [exact Hnd|]. intros k. split; [now right|].
    intros [->|H]; [|exact H].
    apply existsb_exists in E as (y & Hy & Ey). apply text_eqb_spec in Ey. now subst.
  - split.
    + constructor; [|exact Hnd]. intros Hin.
      assert (existsb (text_eqb x) set = true) as E'.
      { apply existsb_exists. exists x. split; [exact Hin|now apply text_eqb_spec]. }
      congruence.
    + intros k. simpl. split; intros [H|H]; auto.
Qed.

Definition insert_keys (keys : list text) (set : list text) : list text :=
  fold_left (fun set k => set_insert k set) keys set.

Lemma insert_keys_spec keys : forall set,
  List.NoDup set ->
  List.NoDup (insert_keys keys set) /\
  forall k, In k (insert_keys keys set) <-> In k set \/ In k keys.
Proof.
  induction keys as [|x keys IH]; intros set Hnd; simpl.
  - split; [exact Hnd|]. intros k. tauto.
  - destruct (set_insert_spec x set Hnd) as [Hnd' Hin'].
    destruct (IH _ Hnd') as [A B]. split; [exact A|].
    intros k. rewrite B, Hin'. split; intros H; intuition.
Qed.

Lemma NoDup_map_inj_on {A B : Type} (f : A -> B) (l : list A) :
  (forall x y, In x l -> In y l -> f x = f y -> x = y) ->
  List.NoDup l -> List.NoDup (map f l).
Proof.
  intros Hinj Hnd. induction Hnd as [|x l Hx Hnd IH]; [constructor|].
  simpl. constructor.
  - intros Hin. apply in_map_iff in Hin as (y & E & Hy).
    assert (y = x) by (apply Hinj; [now right|now left|exact E]). now subst.
  - apply IH. intros a c Ha Hc. apply Hinj; now right.
Qed.

(** The number of different cell vectors among the games. *)
Definition distinct_boards (boards : list (list Z)) : nat :=
  length (nodup (List.list_eq_dec Z.eq_dec) boards).

(** The set built from the keys of cell vectors has one element per
    different vector. *)
Lemma insert_keys_distinct boards :
  (forall v, In v boards -> forall x, In x v -> cell_value x) ->
  length (insert_keys (map board_key boards) []) = distinct_boards boards.
Proof.
  intros Hv. unfold distinct_boards.
  destruct (insert_keys_spec (map board_key boards) [] ltac:(constructor)) as [Hnd Hin].
  rewrite <- (length_map board_key (nodup _ boards)).
  apply Permutation_length, Stdlib.Sorting.Permutation.NoDup_Permutation.
  - exact Hnd.
  - apply NoDup_map_inj_on; [|apply List.NoDup_nodup].
    intros x y Hx Hy. apply nodup_In in Hx, Hy.
    apply board_key_inj; now apply Hv.
  - intros k. rewrite Hin, !in_map_iff. split.
    + intros [[]|(v & E & H)]. exists v. split; [exact E|now apply nodup_In].
    + intros (v & E & H). right. exists v. split; [exact E|].
      now apply nodup_In in H.
Qed.

(** One written row, analysed. *)
Lemma analyze_row v w x o n set :
  (forall y, In y v -> cell_value y) -> (w = 0 \/ w = 1) ->
  analyze_line coord_format (row_line (v, w)) (x, o, n, set) =
  Done (if w =? 0 then x + 1 else x, if w =? 0 then o else o + 1, n + 1,
        set_insert (board_key v) set).
Proof.
  intros Hv Hw. unfold analyze_line.
  replace (text_eqb coord_format coord_format) with true by reflexivity.
  unfold getlines. rewrite concat_fields. simpl app.
  rewrite row_line_no_commas by (try exact Hv; unfold cell_value; lia).
  destruct Hw as [-> | ->].
  - change (show_int 0) with ["0"%char].
    rewrite last_snoc, removelast_last. reflexivity.
  - change (show_int 1) with ["1"%char].
    rewrite last_snoc, removelast_last. reflexivity.
Qed.

Lemma analyze_rows : forall games x o n set,
  (forall g, In g games -> valid_game g) ->
  analyze_lines coord_format (map row_line games) (x, o, n, set) =
  Done (x + Z.of_nat (count_value 0 (map snd games)),
        o + Z.of_nat (count_value 1 (map snd games)),
        n + Z.of_nat (length games),
        insert_keys (map (fun g => board_key (fst g)) games) set).
Proof.
  induction games as [|[v w] games IH]; intros x o n set Hg.
  - simpl. now rewrite !Z.add_0_r.
  - destruct (Hg (v, w) (or_introl eq_refl)) as [Hv Hw]. simpl in Hv, Hw.
    cbn [analyze_lines map]. rewrite (analyze_row v w x o n set Hv Hw).
    cbn [run_bind]. rewrite IH by (intros g H; apply Hg; now right).
    unfold count_value.
    destruct Hw as [-> | ->]; simpl; f_equal;
      repeat (match goal with |- (_, _) = (_, _) => apply f_equal2 end);
      try reflexivity; lia.
Qed.

(** The batch loop of the first driver:
    [for (const auto& result : game_results_coord)
       hg.write_coord_game_to_csv(outfile, result.first, result.second);]. *)
Definition write_games (outfile : text) (games : list (list Z * Z)) : text :=
  fold_left (fun out g => write_coord_game_to_csv out (fst g) (snd g))
            games outfile.

(** The same loop of the second driver, whose results carry the
    starting player. *)
Definition write_games_sp (outfile : text) (games : list (list Z * (Z * Z)))
    : text :=
  fold_left
    (fun out g =>
       write_coord_game_to_csv_sp out (fst g) (fst (snd g)) (snd (snd g)))
    games outfile.

Lemma write_games_rows : forall games out,
  write_games out games =
  out ++ concat (map (fun l => l ++ [newline]) (map row_line games)).
Proof.
  unfold write_games. induction games as [|g games IH]; intros out; simpl.
  - now rewrite app_nil_r.
  - rewrite IH, write_coord_game_to_csv_row. destruct g.
    now rewrite <- !app_assoc.
Qed.

Lemma analyze_written header games :
  ~ In newline header ->
  (forall g, In g games -> valid_game g) ->
  analyze_game_file (Some (write_games (header ++ [newline]) games)) coord_format =
  Done (Z.of_nat (length games),
        Z.of_nat (distinct_boards (map fst games)),
        Z.of_nat (count_value 0 (map snd games)),
        Z.of_nat (count_value 1 (map snd games))).
Proof.
  intros Hh Hg. unfold analyze_game_file.
  rewrite write_games_rows.
  change ((header ++ [newline]) ++
          concat (map (fun l => l ++ [newline]) (map row_line games)))
    with (concat (map (fun l => l ++ [newline]) (header :: map row_line games))).
  rewrite getlines_lines.
  - rewrite analyze_rows by exact Hg. simpl run_bind.
    rewrite <- (map_map fst board_key), insert_keys_distinct; [reflexivity|].
    intros v Hv. apply in_map_iff in Hv as (g & <- & Hin). apply (Hg g Hin).
  - intros l [<-|Hl]; [exact Hh|].
    apply in_map_iff in Hl as ([v w] & <- & Hin). destruct (Hg _ Hin) as [Hv Hw].
    simpl in Hv, Hw. intros Hc.
    apply (row_line_plain v w newline Hv) in Hc; [now apply Hc|].
    unfold cell_value. lia.
Qed.

(** A file made of a header line and the rows the first driver writes
    for games with cell values in {-1, 0, 1} and winner 0 or 1, read
    back by [analyze_game_file] in the "coord" format: the total is the
    number of games, the unique count is the number of different cell
    vectors, and the two win counts are the numbers of games won by
    player 0 and by player 1. *)
Theorem analyze_reads_back_written_games header games :
  ~ In newline header ->
  (forall g, In g games -> valid_game g) ->
  analyze_game_file (Some (write_games (header ++ [newline]) games)) coord_format =
  Done (Z.of_nat (length games),
        Z.of_nat (distinct_boards (map fst games)),
        Z.of_nat (count_value 0 (map snd games)),
        Z.of_nat (count_value 1 (map snd games))).
Proof. apply analyze_written. Qed.

Lemma analyze_reads_back_written_games_witness :
  (~ In newline ["w"%char] /\
   (forall g, In g [([1; -1; 0; 1], 0); ([1; -1; 0; 1], 0); ([-1; 1; 1; 0], 1)] ->
      valid_game g)) /\
  analyze_game_file
    (Some (write_games (["w"%char] ++ [newline])
             [([1; -1; 0; 1], 0); ([1; -1; 0; 1], 0); ([-1; 1; 1; 0], 1)]))
    coord_format =
  Done (Z.of_nat (length [([1; -1; 0; 1], 0); ([1; -1; 0; 1], 0); ([-1; 1; 1; 0], 1)]),
        Z.of_nat (distinct_boards
                    (map fst [([1; -1; 0; 1], 0); ([1; -1; 0; 1], 0); ([-1; 1; 1; 0], 1)])),
        Z.of_nat (count_value 0
                    (map snd [([1; -1; 0; 1], 0); ([1; -1; 0; 1], 0); ([-1; 1; 1; 0], 1)])),
        Z.of_nat (count_value 1
                    (map snd [([1; -1; 0; 1], 0); ([1; -1; 0; 1], 0); ([-1; 1; 1; 0], 1)]))).
Proof.
  assert (H1 : ~ In newline ["w"%char]).
  { intros [H|[]]. discriminate. }
  assert (H2 : forall g,
    In g [([1; -1; 0; 1], 0); ([1; -1; 0; 1], 0); ([-1; 1; 1; 0], 1)] -> valid_game g).
  { intros g [<-|[<-|[<-|[]]]]; (split; [|simpl; lia]);
      intros x Hx; simpl in Hx; unfold cell_value; lia. }
  split; [split; [exact H1|exact H2]|].
  exact (analyze_reads_back_written_games ["w"%char] _ H1 H2).
Defined.

(** The row of the second driver is the row of the first for the cell
    vector extended by the starting player. *)
Lemma write_coord_game_to_csv_sp_row out v sp w :
  write_coord_game_to_csv_sp out v sp w =
  write_coord_game_to_csv out (v ++ [sp]) w.
Proof.
  unfold write_coord_game_to_csv_sp, write_coord_game_to_csv.
  rewrite fold_left_app. simpl. now rewrite <- !app_assoc.
Qed.

Definition with_starting_player (g : list Z * (Z * Z)) : list Z * Z :=
  (fst g ++ [fst (snd g)], snd (snd g)).

Lemma write_games_sp_rows : forall games out,
  write_games_sp out games = write_games out (map with_starting_player games).
Proof.
  unfold write_games_sp, write_games.
  induction games as [|g games IH]; intros out; [reflexivity|].
  simpl. rewrite IH. now rewrite write_coord_game_to_csv_sp_row.
Qed.

(** The same for the rows of the second driver, which carry the
    starting player before the winner: the starting player becomes part
    of the key, so the unique count is the number of different pairs of
    cell vector and starting player. *)
Theorem analyze_reads_back_games_with_starting_player header games :
  ~ In newline header ->
  (forall g, In g games ->
     (forall x, In x (fst g) -> cell_value x) /\
     (fst (snd g) = 0 \/ fst (snd g) = 1) /\
     (snd (snd g) = 0 \/ snd (snd g) = 1)) ->
  analyze_game_file (Some (write_games_sp (header ++ [newline]) games)) coord_format =
  Done (Z.of_nat (length games),
        Z.of_nat (distinct_boards
                    (map (fun g => fst g ++ [fst (snd g)]) games)),
        Z.of_nat (count_value 0 (map (fun g => snd (snd g)) games)),
        Z.of_nat (count_value 1 (map (fun g => snd (snd g)) games))).
Proof.
  intros Hh Hg. rewrite write_games_sp_rows, analyze_written.
  - rewrite length_map, !map_map. reflexivity.
  - exact Hh.
  - intros g' Hin. apply in_map_iff in Hin as (g & <- & Hin).
    destruct (Hg g Hin) as (Hv & Hs & Hw). split; [|exact Hw].
    simpl. intros x Hx. apply in_app_iff in Hx as [Hx|[<-|[]]]; [now apply Hv|].
    unfold cell_value. lia.
Qed.

Lemma analyze_reads_back_games_with_starting_player_witness :
  (~ In newline ["w"%char] /\
   (forall g, In g [([1; -1], (0, 0)); ([1; -1], (1, 0))] ->
      (forall x, In x (fst g) -> cell_value x) /\
      (fst (snd g) = 0 \/ fst (snd g) = 1) /\
      (snd (snd g) = 0 \/ snd (snd g) = 1))) /\
  analyze_game_file
    (Some (write_games_sp (["w"%char] ++ [newline])
             [([1; -1], (0, 0)); ([1; -1], (1, 0))]))
    coord_format =
  Done (Z.of_nat (length [([1; -1], (0, 0)); ([1; -1], (1, 0))]),
        Z.of_nat (distinct_boards
                    (map (fun g : list Z * (Z * Z) => fst g ++ [fst (snd g)])
                         [([1; -1], (0, 0)); ([1; -1], (1, 0))])),
        Z.of_nat (count_value 0
                    (map (fun g : list Z * (Z * Z) => snd (snd g))
                         [([1; -1], (0, 0)); ([1; -1], (1, 0))])),
        Z.of_nat (count_value 1
                    (map (fun g : list Z * (Z * Z) => snd (snd g))
                         [([1; -1], (0, 0)); ([1; -1], (1, 0))]))).
Proof.
  assert (H1 : ~ In newline ["w"%char]).
  { intros [H|[]]. discriminate. }
  assert (H2 : forall g, In g [([1; -1], (0, 0)); ([1; -1], (1, 0))] ->
      (forall x, In x (fst g) -> cell_value x) /\
      (fst (snd g) = 0 \/ fst (snd g) = 1) /\
      (snd (snd g) = 0 \/ snd (snd g) = 1)).
  { intros g [<-|[<-|[]]]; (split; [|simpl; lia]);
      intros x Hx; simpl in Hx; unfold cell_value; lia. }
  split; [split; [exact H1|exact H2]|].
  exact (analyze_reads_back_games_with_starting_player ["w"%char] _ H1 H2).
Defined.

(** A row written with winner -1, the value the variable has while no
    game was won, is counted as a win of player 1: the winner read back
    is the last character of the row, and its key is the key of the
    cells followed by the minus sign. *)
Theorem analyze_counts_missing_winner_for_O v x o n set :
  (forall y, In y v -> cell_value y) ->
  analyze_line coord_format (row_line (v, -1)) (x, o, n, set) =
  Done (x, o + 1, n + 1, set_insert (board_key v ++ ["-"%char]) set).
Proof.
  intros Hv. unfold analyze_line.
  replace (text_eqb coord_format coord_format) with true by reflexivity.
  unfold getlines. rewrite concat_fields. simpl app.
  rewrite row_line_no_commas by (try exact Hv; unfold cell_value; lia).
  change (show_int (-1)) with (["-"%char] ++ ["1"%char]).
  rewrite app_assoc, last_snoc, removelast_last. reflexivity.
Qed.

Lemma analyze_counts_missing_winner_for_O_witness :
  (forall y, In y [1; 0; -1] -> cell_value y) /\
  analyze_line coord_format (row_line ([1; 0; -1], -1)) (0, 0, 0, []) =
  Done (0, 0 + 1, 0 + 1, set_insert (board_key [1; 0; -1] ++ ["-"%char]) []).
Proof.
  assert (H : forall y, In y [1; 0; -1] -> cell_value y).
  { intros y Hy. simpl in Hy. unfold cell_value. lia. }
  split; [exact H|].
  exact (analyze_counts_missing_winner_for_O [1; 0; -1] 0 0 0 [] H).
Defined.

Lemma stoi_defined str f : stoi str <> Undef f.
Proof.
  unfold stoi. destruct (read_digits 0 false _); [|discriminate].
  destruct (_ && _); discriminate.
Qed.

(** In the "coord" format a line makes the analysis undefined exactly
    when it holds nothing but commas, the empty line included: the
    concatenated cells are then empty and [board_state.back()] has
    nothing to return. *)
Theorem analyze_line_undefined_on_blank line t :
  analyze_line coord_format line t = Undef BackOfEmpty <->
  (forall c, In c line -> c = comma).
Proof.
  destruct t as [[[x o] n] set]. unfold analyze_line.
  replace (text_eqb coord_format coord_format) with true by reflexivity.
  unfold getlines. rewrite concat_fields. simpl app.
  set (b := List.filter (fun c => negb (Ascii.eqb c comma)) line).
  assert (Hb : b = [] <-> forall c, In c line -> c = comma).
  { unfold b. split.
    - intros E c Hc. destruct (Ascii.eqb_spec c comma) as [?|Hne]; [assumption|].
      assert (In c (List.filter (fun c => negb (Ascii.eqb c comma)) line)) as Hin.
      { apply filter_In. split; [exact Hc|]. now rewrite ascii_eqb_false. }
      rewrite E in Hin. destruct Hin.
    - intros H. induction line as [|c l IH]; [reflexivity|].
      simpl. rewrite (H c) by now left. rewrite Ascii.eqb_refl. simpl.
      apply IH. intros d Hd. apply H. now right. }
  destruct (last b) as [c|] eqn:El.
  - split.
    + simpl. pose proof (stoi_defined [c]) as Hs.
      destruct (stoi [c]) as [w| |f]; simpl; try discriminate.
      * destruct (w =? 0); [discriminate|]. destruct (w =? 1); discriminate.
      * now contradiction (Hs f).
    + intros H. apply Hb in H. rewrite H in El. discriminate.
  - split; [|reflexivity]. intros _. apply Hb.
    destruct b as [|c l]; [reflexivity|].
    destruct (exists_last (l := c :: l)) as (l' & d & E); [discriminate|].
    rewrite E, last_snoc in El. discriminate.
Qed.

(** Whatever the file and the format, when [analyze_game_file] returns
    its counts are consistent: the win counts are not negative and
    together do not exceed the total, and the unique count is between 0
    and the total. *)
Theorem analyze_counts_consistent file format total unique wins_X wins_O :
  analyze_game_file file format = Done (total, unique, wins_X, wins_O) ->
  0 <= wins_X /\ 0 <= wins_O /\ wins_X + wins_O <= total /\
  0 <= unique <= total.
Proof.
  assert (Hins : forall k set, (length (set_insert k set) <= S (length set))%nat).
  { intros k set. unfold set_insert. destruct (existsb _ set); simpl; lia. }
  assert (Hline : forall line x o n set x' o' n' set',
    analyze_line format line (x, o, n, set) = Done (x', o', n', set') ->
    0 <= x -> 0 <= o -> x + o <= n -> Z.of_nat (length set) <= n ->
    0 <= x' /\ 0 <= o' /\ x' + o' <= n' /\ Z.of_nat (length set') <= n').
  { intros line x o n set x' o' n' set' H Hx Ho Hn Hs. unfold analyze_line in H.
    destruct (if text_eqb format coord_format then _ else _) as [[bs ws]| |];
      simpl in H; try discriminate.
    destruct (stoi ws) as [w| |]; simpl in H; try discriminate.
    pose proof (Hins bs set).
    destruct (w =? 0); [|destruct (w =? 1)]; injection H as <- <- <- <-; lia. }
  assert (Hlines : forall lines x o n set x' o' n' set',
    analyze_lines format lines (x, o, n, set) = Done (x', o', n', set') ->
    0 <= x -> 0 <= o -> x + o <= n -> Z.of_nat (length set) <= n ->
    0 <= x' /\ 0 <= o' /\ x' + o' <= n' /\ Z.of_nat (length set') <= n').
  { induction lines as [|l lines IH]; intros x o n set x' o' n' set' H Hx Ho Hn Hs.
    - injection H as <- <- <- <-. auto.
    - cbn [analyze_lines] in H.
      destruct (analyze_line format l (x, o, n, set)) as [[[[x1 o1] n1] s1]| |] eqn:E;
        cbn [run_bind] in H; try discriminate.
      destruct (Hline _ _ _ _ _ _ _ _ _ E Hx Ho Hn Hs) as (A & B & C & D).
      now apply (IH _ _ _ _ _ _ _ _ H). }
  unfold analyze_game_file. destruct file as [content|].
  - destruct (getlines newline content) as [|hd lines].
    + intros [= <- <- <- <-]. lia.
    + destruct (analyze_lines format lines (0, 0, 0, [])) as [[[[x o] n] set]| |] eqn:E;
        simpl; try discriminate.
      intros [= <- <- <- <-].
      destruct (Hlines _ _ _ _ _ _ _ _ _ E) as (A & B & C & D); simpl; lia.
  - intros [= <- <- <- <-]. lia.
Qed.

Lemma analyze_counts_consistent_witness :
  analyze_game_file
    (Some (write_games (["w"%char] ++ [newline]) [([1; -1; 0; 1], 0); ([0], -1)]))
    coord_format = Done (2, 2, 1, 1) /\
  (0 <= 1 /\ 0 <= 1 /\ 1 + 1 <= 2 /\ 0 <= 2 <= 2).
Proof.
  assert (H : analyze_game_file
    (Some (write_games (["w"%char] ++ [newline]) [([1; -1; 0; 1], 0); ([0], -1)]))
    coord_format = Done (2, 2, 1, 1)) by (vm_compute; reflexivity).
  split; [exact H|].
  exact (analyze_counts_consistent _ _ 2 2 1 1 H).
Defined.

(** * Undo and the rest of the engine *)

(** A placement followed by [remove_last_n_moves(1)] gives back the
    board and the history exactly as they were, and the marks are
    untouched throughout; the open count stays one lower, the cell is
    not open again. *)
Theorem place_then_undo_restores_board N r p s pos s1 :
  0 < N -> reach N s -> (p = 0 \/ p = 1) ->
  place_piece_randomly r p s = Ok (pos, s1) ->
  exists s2,
    remove_last_n_moves 1 s1 = Ok ([logical N pos], s2) /\
    board s2 = board s /\ moves s2 = moves s /\
    connected s2 = connected s /\
    number_of_open_positions s2 = number_of_open_positions s - 1.
Proof.
  intros HN Hr Hp E. pose proof (reach_wf N s HN Hr) as Hwf.
  destruct (place_wf N r p s pos s1 HN Hwf Hp E) as (Hwf1 & Hpl & F0 & F1 & Hmv).
  pose proof (place_inv _ _ _ _ _ E)
    as (_ & _ & _ & _ & _ & Hc1 & _ & Hn1 & _ & Hb1 & _).
  apply vset_ok in Hb1 as (_ & Lb & Rb & Fb).
  destruct (remove_last_move_ok N s1 [] s1 (moves s) (logical N pos) HN Hwf1
              (undone_refl N s1) Hmv)
    as (s2 & E2 & _ & (_ & _ & Un & Uc & _ & Ul & U1 & U2) & Hm2).
  exists s2. split.
  { unfold remove_last_n_moves, for_range.
    change (Z.to_nat (1 - 0)) with 1%nat. rewrite for_loop_S, E2. reflexivity. }
  split; [|split; [exact Hm2|split; [congruence|lia]]].
  apply rd_ext; [lia|]. intros k _.
  destruct (U1 (logical N pos) (or_introl eq_refl)) as [Z0 Z1].
  rewrite padded_logical in Z0, Z1 by assumption.
  destruct (Z.eq_dec k (pos * 2)) as [->|H0]; [congruence|].
  destruct (Z.eq_dec k (pos * 2 + 1)) as [->|H1]; [congruence|].
  rewrite U2.
  - apply Fb. lia.
  - intros m [<-|[]]. now rewrite padded_logical.
Qed.

Lemma place_then_undo_restores_board_witness :
  (0 < 2 /\ reach 2 game2_one_move /\ (1 = 0 \/ 1 = 1) /\
   place_piece_randomly 0 1 game2_one_move = Ok (10, game2_two_moves)) /\
  exists s2,
    remove_last_n_moves 1 game2_two_moves = Ok ([logical 2 10], s2) /\
    board s2 = board game2_one_move /\ moves s2 = moves game2_one_move /\
    connected s2 = connected game2_one_move /\
    number_of_open_positions s2 = number_of_open_positions game2_one_move - 1.
Proof.
  assert (Hr : reach 2 game2_one_move).
  { apply (reach_place 2 game2 0 0 5); [exact reach_game2|now left|reflexivity]. }
  assert (He : place_piece_randomly 0 1 game2_one_move = Ok (10, game2_two_moves))
    by reflexivity.
  split; [split; [lia|split; [exact Hr|split; [now right|exact He]]]|].
  exact (place_then_undo_restores_board 2 0 1 game2_one_move 10 game2_two_moves
           ltac:(lia) Hr (or_intror eq_refl) He).
Defined.

(** Undoing the whole history leaves an empty board: every entry of the
    cell vector is 0 and the history is empty. *)
Theorem undo_all_empties_board N s removed s' :
  0 < N -> reach N s ->
  remove_last_n_moves (Z.of_nat (length (moves s))) s = Ok (removed, s') ->
  moves s' = [] /\
  exists v, board_to_coord s' = Ok v /\ forall x, In x v -> x = 0.
Proof.
  intros HN Hr E. pose proof (reach_wf N s HN Hr) as Hwf.
  destruct (undo_connected N _ s removed s' HN Hwf E) as (_ & _ & Hwf' & _ & Hm).
  assert (Hm' : moves s' = []).
  { rewrite Hm, Nat2Z.id, Nat.sub_diag. reflexivity. }
  split; [exact Hm'|].
  eexists. split; [apply (board_to_coord_ok N s' HN (wf_sized _ _ Hwf'))|].
  intros x Hx. apply in_map_iff in Hx as (m & <- & Hin).
  apply In_zseq in Hin. rewrite Z2Nat.id in Hin by nia.
  destruct (Z.eq_dec (coord_value N (board s') m) 0) as [?|Hne]; [assumption|].
  exfalso. apply coord_value_nonzero in Hne.
  assert (In m (moves s')) as Hc by (apply (wf_moves_occ _ _ Hwf'); auto).
  rewrite Hm' in Hc. destruct Hc.
Qed.

Lemma undo_all_empties_board_witness :
  (0 < 2 /\ reach 2 game2_two_moves /\
   remove_last_n_moves (Z.of_nat (length (moves game2_two_moves))) game2_two_moves =
     Ok ([3; 0], game2_undone)) /\
  moves game2_undone = [] /\
  exists v, board_to_coord game2_undone = Ok v /\ forall x, In x v -> x = 0.
Proof.
  assert (H : remove_last_n_moves (Z.of_nat (length (moves game2_two_moves)))
                game2_two_moves = Ok ([3; 0], game2_undone))
    by (vm_compute; reflexivity).
  split; [split; [lia|split; [exact reach_game2_two_moves|exact H]]|].
  exact (undo_all_empties_board 2 game2_two_moves [3; 0] game2_undone
           ltac:(lia) reach_game2_two_moves H).
Defined.

(** A cell freed by [remove_last_n_moves] is not handed out again:
    after the undo no value of [rand()] makes [place_piece_randomly]
    return an undone cell. *)
Theorem undone_cells_stay_closed N n s removed s' m r p pos s'' :
  0 < N -> reach N s ->
  remove_last_n_moves n s = Ok (removed, s') -> In m removed ->
  place_piece_randomly r p s' = Ok (pos, s'') ->
  pos <> padded N m.
Proof.
  intros HN Hr E Hm Ep. pose proof (reach_wf N s HN Hr) as Hwf.
  destruct (undo_connected N n s removed s' HN Hwf E)
    as (_ & Erem & _ & (_ & Uo & Un & _) & _).
  pose proof (place_inv _ _ _ _ _ Ep) as (Hn0 & Hidx & Hpos & _).
  simpl in Hn0, Hidx, Hpos. rewrite Uo, Un in *.
  pose proof (wf_count _ _ Hwf) as Hcnt.
  pose proof (rem_index r (number_of_open_positions s) ltac:(lia) ltac:(lia)) as Hk.
  destruct (wf_open_free _ _ Hwf _ Hk) as [F0 F1]. rewrite <- Hpos in F0, F1.
  assert (In m (moves s)) as Hin.
  { rewrite Erem in Hm. apply in_rev in Hm.
    rewrite <- (take_drop (length (moves s) - Z.to_nat n) (moves s)).
    apply in_app_iff. now right. }
  apply (wf_moves_occ _ _ Hwf) in Hin as (_ & Hocc).
  intros ->. lia.
Qed.

Lemma undone_cells_stay_closed_witness :
  (0 < 2 /\ reach 2 game2_two_moves /\
   remove_last_n_moves 2 game2_two_moves = Ok ([3; 0], game2_undone) /\
   In 3 [3; 0] /\
   place_piece_randomly 0 0 game2_undone =
     Ok (9, state_after (place_piece_randomly 0 0 game2_undone))) /\
  9 <> padded 2 3.
Proof.
  assert (H : remove_last_n_moves 2 game2_two_moves = Ok ([3; 0], game2_undone))
    by (vm_compute; reflexivity).
  assert (Hp : place_piece_randomly 0 0 game2_undone =
     Ok (9, state_after (place_piece_randomly 0 0 game2_undone)))
    by (vm_compute; reflexivity).
  split.
  - split; [lia|]. split; [exact reach_game2_two_moves|]. split; [exact H|].
    split; [now left|exact Hp].
  - exact (undone_cells_stay_closed 2 2 game2_two_moves [3; 0] game2_undone 3 0 0 9 _
             ltac:(lia) reach_game2_two_moves H (or_introl eq_refl) Hp).
Defined.

(** ** Two undos in a row *)

Lemma for_loop_app {St} n m i body (s : St) :
  for_loop (n + m) i body s =
  bind (for_loop n i body s) (fun s' => for_loop m (i + Z.of_nat n) body s').
Proof.
  revert i s. induction n as [|n IH]; intros i s.
  - simpl. f_equal. lia.
  - change (S n + m)%nat with (S (n + m)). rewrite !for_loop_S.
    destruct (body i s) as [t| | |]; simpl; try reflexivity.
    rewrite IH. now replace (i + 1 + Z.of_nat n) with (i + Z.of_nat (S n)) by lia.
Qed.

(** The local vector [removed_moves] is only appended to: starting the
    loop body with some moves already collected gives the same state and
    the same new move behind them. *)
Lemma remove_last_move_acc acc s :
  remove_last_move (acc, s) =
  let* (r, s') := remove_last_move ([], s) in Ok (acc ++ r, s').
Proof.
  unfold remove_last_move.
  destruct (last (moves s)) as [m|]; [|reflexivity].
  destruct (cdiv m (BOARD_DIM s)) as [q| | |]; simpl; try reflexivity.
  destruct (crem m (BOARD_DIM s)) as [c| | |]; simpl; try reflexivity.
  destruct (vset (board s) _ 0) as [b| | |]; simpl; try reflexivity.
  destruct (vset b _ 0) as [b'| | |]; simpl; reflexivity.
Qed.

Lemma remove_loop_acc n i acc s :
  for_loop n i (fun _ a => remove_last_move a) (acc, s) =
  let* (r, s') := for_loop n i (fun _ a => remove_last_move a) ([], s) in
  Ok (acc ++ r, s').
Proof.
  revert i acc s. induction n as [|n IH]; intros i acc s.
  - simpl. now rewrite app_nil_r.
  - rewrite !for_loop_S, (remove_last_move_acc acc s).
    destruct (remove_last_move ([], s)) as [[r1 s1]| | |]; simpl; try reflexivity.
    rewrite (IH (i + 1) (acc ++ r1) s1), (IH (i + 1) r1 s1).
    destruct (for_loop n (i + 1) _ ([], s1)) as [[r2 s2]| | |]; simpl;
      try reflexivity.
    now rewrite app_assoc.
Qed.

Lemma remove_loop_index n i j a :
  for_loop n i (fun _ a => remove_last_move a) a =
  for_loop n j (fun _ a => remove_last_move a) a.
Proof.
  revert i j a. induction n as [|n IH]; intros i j a; [reflexivity|].
  rewrite !for_loop_S. destruct (remove_last_move a); simpl; auto.
Qed.

(** Undoing [a] moves and then [b] moves is undoing [a + b] moves at
    once: same final object, the two returned lists one after the
    other, and the same failure where either call fails. *)
Theorem remove_last_n_moves_twice a b s :
  0 <= a -> 0 <= b ->
  remove_last_n_moves (a + b) s =
  let* (r1, s1) := remove_last_n_moves a s in
  let* (r2, s2) := remove_last_n_moves b s1 in
  Ok (r1 ++ r2, s2).
Proof.
  intros Ha Hb. unfold remove_last_n_moves, for_range.
  rewrite !Z.sub_0_r, Z2Nat.inj_add, for_loop_app by assumption.
  destruct (for_loop (Z.to_nat a) 0 _ ([], s)) as [[r1 s1]| | |]; simpl;
    try reflexivity.
  rewrite (remove_loop_acc _ _ r1 s1).
  now rewrite (remove_loop_index (Z.to_nat b) (0 + Z.of_nat (Z.to_nat a)) 0).
Qed.

Lemma remove_last_n_moves_twice_witness :
  (0 <= 1 /\ 0 <= 1) /\
  remove_last_n_moves (1 + 1) game2_two_moves =
  let* (r1, s1) := remove_last_n_moves 1 game2_two_moves in
  let* (r2, s2) := remove_last_n_moves 1 s1 in
  Ok (r1 ++ r2, s2).
Proof.
  split; [lia|].
  apply (remove_last_n_moves_twice 1 1 game2_two_moves); lia.
Defined.
